(** * learn-solo: the AI adapter, the file routes and the scroll synchroniser

    A shallow embedding of
    - [src/services/aiService.ts]   (class [AIService]),
    - [api/routes/files.ts]         (the two routes and [buildFileTree]),
    - [src/components/MarkdownEditor.tsx], [MonacoEditor.tsx] and
      [MarkdownRenderer.tsx]        (the scroll handlers, on rationals for the
                                     control flow and on doubles for the
                                     arithmetic, and the AI buttons),
    - [src/utils/fileOperations.ts] (the recent-files list),
    together with the properties the specification states about them. *)

From Stdlib Require Import List NArith ZArith QArith Bool Lia String Ascii.
From Stdlib Require Import Qpower Qabs Lqa.
From Stdlib Require Import Floats.SpecFloat.
From Stdlib Require Import Sorting.Sorted Sorting.Permutation.
Import ListNotations.

Set Implicit Arguments.
Set Warnings "-register-all".

(* ===================================================================== *)
(** * JavaScript values *)
(* ===================================================================== *)

Module JS.

(** A JavaScript string is a sequence of UTF-16 code units. *)
Definition jsstring := list N.

(** Source literals are written as UTF-8 Rocq strings and converted. *)
Fixpoint utf8_decode (bs : list N) : list N :=
  match bs with
  | [] => []
  | b :: rest =>
      if (b <? 128)%N then b :: utf8_decode rest
      else if (b <? 224)%N then
        match rest with
        | b1 :: rest' => ((b - 192) * 64 + (b1 - 128))%N :: utf8_decode rest'
        | _ => []
        end
      else if (b <? 240)%N then
        match rest with
        | b1 :: b2 :: rest' =>
            ((b - 224) * 4096 + (b1 - 128) * 64 + (b2 - 128))%N :: utf8_decode rest'
        | _ => []
        end
      else
        match rest with
        | b1 :: b2 :: b3 :: rest' =>
            ((b - 240) * 262144 + (b1 - 128) * 4096 + (b2 - 128) * 64 + (b3 - 128))%N
              :: utf8_decode rest'
        | _ => []
        end
  end.

Definition utf16_encode (cps : list N) : jsstring :=
  flat_map (fun cp =>
    if (cp <? 65536)%N then [cp]
    else [(55296 + (cp - 65536) / 1024)%N; (56320 + (cp - 65536) mod 1024)%N]) cps.

Definition lit (s : string) : jsstring :=
  utf16_encode (utf8_decode (map N_of_ascii (list_ascii_of_string s))).

Fixpoint eqb_str (a b : jsstring) : bool :=
  match a, b with
  | [], [] => true
  | x :: a', y :: b' => (x =? y)%N && eqb_str a' b'
  | _, _ => false
  end.

(** [String.prototype.startsWith]. *)
Fixpoint startsWith (s prefix : jsstring) : bool :=
  match prefix, s with
  | [], _ => true
  | p :: prefix', c :: s' => (c =? p)%N && startsWith s' prefix'
  | _ :: _, [] => false
  end.

(** [String(n)] for a non-negative integer: its decimal digits. *)
Fixpoint digits_of_uint (d : Decimal.uint) : jsstring :=
  match d with
  | Decimal.Nil => []
  | Decimal.D0 d' => 48%N :: digits_of_uint d'
  | Decimal.D1 d' => 49%N :: digits_of_uint d'
  | Decimal.D2 d' => 50%N :: digits_of_uint d'
  | Decimal.D3 d' => 51%N :: digits_of_uint d'
  | Decimal.D4 d' => 52%N :: digits_of_uint d'
  | Decimal.D5 d' => 53%N :: digits_of_uint d'
  | Decimal.D6 d' => 54%N :: digits_of_uint d'
  | Decimal.D7 d' => 55%N :: digits_of_uint d'
  | Decimal.D8 d' => 56%N :: digits_of_uint d'
  | Decimal.D9 d' => 57%N :: digits_of_uint d'
  end.

Definition string_of_N (n : N) : jsstring := digits_of_uint (N.to_uint n).

(** The code units [String.prototype.trim] strips: ECMAScript WhiteSpace
    and LineTerminator. *)
Definition is_whitespace (c : N) : bool :=
  ((9 <=? c) && (c <=? 13) || (c =? 32) || (c =? 160) || (c =? 5760)
   || ((8192 <=? c) && (c <=? 8202)) || (c =? 8232) || (c =? 8233)
   || (c =? 8239) || (c =? 8287) || (c =? 12288) || (c =? 65279))%N.

Fixpoint trimStart (s : jsstring) : jsstring :=
  match s with
  | c :: s' => if is_whitespace c then trimStart s' else s
  | [] => []
  end.

Definition trimEnd (s : jsstring) : jsstring := rev (trimStart (rev s)).

Definition trim (s : jsstring) : jsstring := trimEnd (trimStart s).

(** What [JSON.parse] can produce.  Numbers are IEEE doubles; an object is
    the list of its own properties. *)
Inductive json : Type :=
| JNull
| JBool (b : bool)
| JNum (x : spec_float)
| JStr (s : jsstring)
| JArr (xs : list json)
| JObj (fields : list (jsstring * json)).

(** A value read from a property may be [undefined]: [None]. *)
Definition jsval := option json.

(** ToBoolean. *)
Definition truthy (v : jsval) : bool :=
  match v with
  | None => false
  | Some JNull => false
  | Some (JBool b) => b
  | Some (JNum (S754_zero _)) => false
  | Some (JNum S754_nan) => false
  | Some (JNum _) => true
  | Some (JStr s) => negb (eqb_str s [])
  | Some (JArr _) => true
  | Some (JObj _) => true
  end.

Fixpoint assoc (name : jsstring) (fields : list (jsstring * json)) : jsval :=
  match fields with
  | [] => None
  | (k, v) :: rest => if eqb_str k name then Some v else assoc name rest
  end.

(** [v.name] on a value that is neither [null] nor [undefined], for a name
    that no built-in prototype defines (the adapter reads only [error],
    [message], [choices] and [content]). *)
Definition own_prop (name : jsstring) (v : json) : jsval :=
  match v with
  | JObj fields => assoc name fields
  | _ => None
  end.

(** [v[0]] on a value that is neither [null] nor [undefined]. *)
Definition index0 (v : json) : jsval :=
  match v with
  | JArr (x :: _) => Some x
  | JObj fields => assoc [48%N] fields
  | JStr (c :: _) => Some (JStr [c])
  | _ => None
  end.

(** Optional chaining: [v?.name] and [v?.[0]]. *)
Definition opt_prop (name : jsstring) (v : jsval) : jsval :=
  match v with
  | None | Some JNull => None
  | Some o => own_prop name o
  end.

Definition opt_index0 (v : jsval) : jsval :=
  match v with
  | None | Some JNull => None
  | Some o => index0 o
  end.

(** A thrown value: an [Error] instance with its message, or anything else. *)
Inductive thrown : Type :=
| ThrownError (message : jsstring)
| ThrownOther.

(** The texts of the TypeErrors the engine itself raises are not fixed by
    the language. *)
Record Engine : Type := {
  cannot_read_null : jsstring -> jsstring;   (* null.name *)
  not_a_function : jsstring -> jsstring      (* calling an undefined member *)
}.

Definition v8 : Engine := {|
  cannot_read_null name :=
    lit "Cannot read properties of null (reading '" ++ name ++ lit "')";
  not_a_function callee := callee ++ lit " is not a function"
|}.

Inductive completion (A : Type) : Type :=
| Returns (a : A)
| Throws (e : thrown).
Arguments Throws {A} e.

End JS.

(* ===================================================================== *)
(** * The AI adapter ([AIService]) *)
(* ===================================================================== *)

Module AI.
Import JS.

Record AISettings : Type := {
  apiUrl : jsstring;
  apiKey : jsstring;
  model : jsstring;
  enabled : bool
}.

Inductive role : Type := system | user | assistant.

Record ChatMessage : Type := {
  msg_role : role;
  msg_content : jsstring
}.

(** [AIResponse]: both [content] and [error] are optional fields. *)
Record AIResponse : Type := {
  success : bool;
  content : jsval;
  error : jsval
}.

(** The service object: [private settings: AISettings | null = null]. *)
Record AIService : Type := { settings : option AISettings }.

Definition initialize (st : AISettings) : AIService := {| settings := Some st |}.

Definition nonempty (s : jsstring) : bool := negb (eqb_str s []).

Definition isAvailable (svc : AIService) : bool :=
  match settings svc with
  | None => false
  | Some st => enabled st && nonempty (apiKey st) && nonempty (apiUrl st)
  end.

(** ** What goes over the wire *)

(** The object given to [JSON.stringify] for the request body. *)
Record chat_body : Type := {
  body_model : jsstring;
  body_messages : list ChatMessage;
  temperature : Q;
  max_tokens : Z;
  stream : bool
}.

Record request : Type := {
  url : jsstring;
  method : option jsstring;               (* [None]: fetch's default, GET *)
  headers : list (jsstring * jsstring);
  body : option chat_body
}.

(** [response.json()] resolves with the parsed body or rejects. *)
Inductive body_result : Type :=
| BodyJson (j : json)
| BodyThrows (e : thrown).

Record response : Type := {
  status : N;
  resp_body : body_result
}.

(** [Response.ok]: the status is in the range 200-299. *)
Definition ok (r : response) : bool :=
  ((200 <=? status r) && (status r <=? 299))%N.

Inductive fetch_result : Type :=
| Resolves (r : response)
| Rejects (e : thrown).

(** ** Computations: a log of the requests sent, and exceptions *)

Definition M (A : Type) : Type := list request -> completion A * list request.

Definition ret {A} (a : A) : M A := fun log => (Returns a, log).

Definition throw {A} (e : thrown) : M A := fun log => (Throws e, log).

Definition bind {A B} (m : M A) (k : A -> M B) : M B :=
  fun log =>
    match m log with
    | (Returns a, log') => k a log'
    | (Throws e, log') => (Throws e, log')
    end.

Definition try_catch {A} (m : M A) (handler : thrown -> M A) : M A :=
  fun log =>
    match m log with
    | (Returns a, log') => (Returns a, log')
    | (Throws e, log') => handler e log'
    end.

Declare Scope js_scope.
Delimit Scope js_scope with js.
Notation "x <- m ;; k" := (bind m (fun x => k))
  (at level 61, m at next level, right associativity) : js_scope.
Local Open Scope js_scope.

Section Service.

(** The engine the code runs on and the network it talks to. *)
Variable engine : Engine.
Variable network : request -> fetch_result.

Definition fetch (req : request) : M response :=
  fun log =>
    match network req with
    | Resolves r => (Returns r, log ++ [req])
    | Rejects e => (Throws e, log ++ [req])
    end.

Definition response_json (r : response) : M json :=
  match resp_body r with
  | BodyJson j => ret j
  | BodyThrows e => throw e
  end.

(** [v.name]: a TypeError when [v] is [null]. *)
Definition get_prop (name : jsstring) (v : json) : M jsval :=
  match v with
  | JNull => throw (ThrownError (cannot_read_null engine name))
  | _ => ret (own_prop name v)
  end.

(** [content.trim()] on a truthy value: only strings have the method. *)
Definition call_trim (v : jsval) : M jsstring :=
  match v with
  | Some (JStr s) => ret (trim s)
  | _ => throw (ThrownError (not_a_function engine (lit "content.trim")))
  end.

(** [this.settings!.f]: the assertion is erased, so a [null] would throw. *)
Definition settings_field (svc : AIService) (name : string)
    (f : AISettings -> jsstring) : M jsstring :=
  match settings svc with
  | Some st => ret (f st)
  | None => throw (ThrownError (cannot_read_null engine (lit name)))
  end.

Record call_options : Type := {
  opt_temperature : option Q;
  opt_maxTokens : option Z;
  opt_stream : option bool
}.

Definition no_options : call_options :=
  {| opt_temperature := None; opt_maxTokens := None; opt_stream := None |}.

(** [x || d] on optional numbers and booleans. *)
Definition or_Q (x : option Q) (d : Q) : Q :=
  match x with
  | Some q => if Qeq_bool q 0 then d else q
  | None => d
  end.

Definition or_Z (x : option Z) (d : Z) : Z :=
  match x with
  | Some z => if (z =? 0)%Z then d else z
  | None => d
  end.

Definition or_bool (x : option bool) (d : bool) : bool :=
  match x with
  | Some true => true
  | _ => d
  end.

(** [v || d] on values. *)
Definition or_else (v : jsval) (d : json) : json :=
  match v with
  | Some x => if truthy v then x else d
  | None => d
  end.

Definition msg_not_configured : jsstring := lit "AI服务未配置或未启用".
Definition msg_request_failed (st : N) : jsstring :=
  lit "API请求失败: " ++ string_of_N st.
Definition msg_malformed : jsstring := lit "AI响应格式错误".
Definition msg_network : jsstring := lit "网络请求失败".

Definition failure (e : json) : AIResponse :=
  {| success := false; content := None; error := Some e |}.

Definition succeeded (c : json) : AIResponse :=
  {| success := true; content := Some c; error := None |}.

(** The request of [callAPI]: one POST to [{apiUrl}/chat/completions]. *)
Definition chat_request (base key mdl : jsstring) (messages : list ChatMessage)
    (options : call_options) : request :=
  {| url := base ++ lit "/chat/completions";
     method := Some (lit "POST");
     headers := [(lit "Content-Type", lit "application/json");
                 (lit "Authorization", lit "Bearer " ++ key)];
     body := Some {| body_model := mdl;
                     body_messages := messages;
                     temperature := or_Q (opt_temperature options) (7 # 10);
                     max_tokens := or_Z (opt_maxTokens options) 1000;
                     stream := or_bool (opt_stream options) false |} |}.

(** [error instanceof Error ? error.message : '...'] *)
Definition message_or (fallback : jsstring) (error : thrown) : json :=
  match error with
  | ThrownError message => JStr message
  | ThrownOther => JStr fallback
  end.

Definition callAPI (svc : AIService) (messages : list ChatMessage)
    (options : call_options) : M AIResponse :=
  if negb (isAvailable svc) then ret (failure (JStr msg_not_configured))
  else
    try_catch
      (base <- settings_field svc "apiUrl" apiUrl ;;
       key <- settings_field svc "apiKey" apiKey ;;
       mdl <- settings_field svc "model" model ;;
       response <- fetch (chat_request base key mdl messages options) ;;
       if negb (ok response) then
         errorData <- try_catch (response_json response)
                                (fun _ => ret (JObj [])) ;;
         err <- get_prop (lit "error") errorData ;;
         ret (failure (or_else (opt_prop (lit "message") err)
                               (JStr (msg_request_failed (status response)))))
       else
         data <- response_json response ;;
         choices <- get_prop (lit "choices") data ;;
         let content :=
           opt_prop (lit "content") (opt_prop (lit "message") (opt_index0 choices)) in
         if negb (truthy content) then ret (failure (JStr msg_malformed))
         else
           trimmed <- call_trim content ;;
           ret (succeeded (JStr trimmed)))
      (fun error => ret (failure (message_or msg_network error))).

(** ** The intents *)

Definition nl2 : jsstring := [10%N; 10%N].

Definition two_messages (sys usr : jsstring) : list ChatMessage :=
  [ {| msg_role := system; msg_content := sys |};
    {| msg_role := user; msg_content := usr |} ].

Definition options (t : Q) (n : Z) : call_options :=
  {| opt_temperature := Some t; opt_maxTokens := Some n; opt_stream := None |}.

Definition continueText (svc : AIService) (text : jsstring)
    (context : option jsstring) : M AIResponse :=
  callAPI svc
    (two_messages
       (lit "你是一个专业的写作助手。请根据用户提供的文本内容，自然地续写下去。保持原文的风格和语调。"
        ++ match context with
           | Some c => if nonempty c then nl2 ++ lit "上下文：" ++ c else []
           | None => []
           end)
       (lit "请续写以下文本：" ++ nl2 ++ text))
    (options (8 # 10) 500).

Definition optimizeContent (svc : AIService) (text : jsstring) : M AIResponse :=
  callAPI svc
    (two_messages
       (lit "你是一个专业的文本编辑助手。请帮助用户优化文本内容，改善语法、表达和结构，使其更加清晰、流畅和专业。保持原意不变。")
       (lit "请优化以下文本：" ++ nl2 ++ text))
    (options (3 # 10) 800).

Definition checkGrammar (svc : AIService) (text : jsstring) : M AIResponse :=
  callAPI svc
    (two_messages
       (lit "你是一个专业的语法检查助手。请检查文本中的语法错误、拼写错误和表达问题，并提供修正建议。如果没有错误，请说明文本语法正确。")
       (lit "请检查以下文本的语法：" ++ nl2 ++ text))
    (options (2 # 10) 600).

Definition translateText (svc : AIService) (text : jsstring)
    (targetLanguage : option jsstring) : M AIResponse :=
  let targetLanguage :=
    match targetLanguage with Some l => l | None => lit "英文" end in
  callAPI svc
    (two_messages
       (lit "你是一个专业的翻译助手。请将用户提供的文本翻译成" ++ targetLanguage
        ++ lit "，保持原意和语调。")
       (lit "请将以下文本翻译成" ++ targetLanguage ++ lit "：" ++ nl2 ++ text))
    (options (3 # 10) 800).

Inductive summary_length : Type := short | medium | long.

Definition lengthMap (l : summary_length) : jsstring :=
  match l with
  | short => lit "简短"
  | medium => lit "中等长度"
  | long => lit "详细"
  end.

Definition maxTokens (l : summary_length) : Z :=
  match l with
  | short => 200
  | medium => 400
  | long => 600
  end.

Definition generateSummary (svc : AIService) (text : jsstring)
    (length : option summary_length) : M AIResponse :=
  let length := match length with Some l => l | None => medium end in
  callAPI svc
    (two_messages
       (lit "你是一个专业的摘要生成助手。请为用户提供的文本生成" ++ lengthMap length
        ++ lit "的摘要，突出关键信息和要点。")
       (lit "请为以下文本生成摘要：" ++ nl2 ++ text))
    (options (3 # 10) (maxTokens length)).

Definition generateTitle (svc : AIService) (text : jsstring) : M AIResponse :=
  callAPI svc
    (two_messages
       (lit "你是一个专业的标题生成助手。请为用户提供的文本内容生成3-5个吸引人且准确的标题选项。")
       (lit "请为以下文本生成标题：" ++ nl2 ++ text))
    (options (6 # 10) 200).

Definition customPrompt (svc : AIService) (text prompt : jsstring) : M AIResponse :=
  callAPI svc (two_messages prompt text) (options (7 # 10) 800).

Definition msg_connected : jsstring := lit "AI API连接成功".
Definition msg_connection_failed : jsstring := lit "AI API连接失败，请检查配置".
Definition msg_network_down : jsstring := lit "网络连接失败".

Definition testConnection (svc : AIService) : M AIResponse :=
  if negb (isAvailable svc) then ret (failure (JStr msg_not_configured))
  else
    try_catch
      (base <- settings_field svc "apiUrl" apiUrl ;;
       key <- settings_field svc "apiKey" apiKey ;;
       response <- fetch
         {| url := base ++ lit "/models";
            method := None;
            headers := [(lit "Authorization", lit "Bearer " ++ key);
                        (lit "Content-Type", lit "application/json")];
            body := None |} ;;
       if ok response then ret (succeeded (JStr msg_connected))
       else ret (failure (JStr msg_connection_failed)))
      (fun _ => ret (failure (JStr msg_network_down))).

(** The public operations, as one family. *)
Inductive intent : Type :=
| Continue (text : jsstring) (context : option jsstring)
| Optimize (text : jsstring)
| Grammar (text : jsstring)
| Translate (text : jsstring) (targetLanguage : option jsstring)
| Summary (text : jsstring) (length : option summary_length)
| Title (text : jsstring)
| Custom (text prompt : jsstring)
| TestConnection.

Definition run (svc : AIService) (i : intent) : M AIResponse :=
  match i with
  | Continue text context => continueText svc text context
  | Optimize text => optimizeContent svc text
  | Grammar text => checkGrammar svc text
  | Translate text l => translateText svc text l
  | Summary text l => generateSummary svc text l
  | Title text => generateTitle svc text
  | Custom text prompt => customPrompt svc text prompt
  | TestConnection => testConnection svc
  end.

(** The intents that go through [callAPI]. *)
Definition is_chat (i : intent) : bool :=
  match i with TestConnection => false | _ => true end.

End Service.

(** [data.choices?.[0]?.message?.content], every step optional. *)
Definition content_field (data : json) : jsval :=
  opt_prop (lit "content")
    (opt_prop (lit "message") (opt_index0 (opt_prop (lit "choices") (Some data)))).

(** ** Sample configurations and responses *)

Definition example_settings : AISettings :=
  {| apiUrl := lit "https://api.example.com/v1";
     apiKey := lit "sk-test";
     model := lit "gpt-4o-mini";
     enabled := true |}.

Definition example_service : AIService := initialize example_settings.

Definition disabled_service : AIService :=
  initialize {| apiUrl := lit "https://api.example.com/v1";
                apiKey := lit "sk-test";
                model := lit "gpt-4o-mini";
                enabled := false |}.

(** A network that answers every request with the same response. *)
Definition always (r : response) : request -> fetch_result :=
  fun _ => Resolves r.

(** [{"error":{"message":m}}] *)
Definition error_body (m : json) : json :=
  JObj [(lit "error", JObj [(lit "message", m)])].

(** [{"choices":[{"message":{"content":c}}]}] *)
Definition completion_body (c : json) : json :=
  JObj [(lit "choices", JArr [JObj [(lit "message", JObj [(lit "content", c)])]])].

(** An [AIResponse] with exactly the fields of its tag. *)
Definition fully_populated (r : AIResponse) : Prop :=
  (success r = true /\ content r <> None /\ error r = None)
  \/ (success r = false /\ error r <> None /\ content r = None).

(** [errorData.error?.message], every step optional. *)
Definition error_message_field (errorData : json) : jsval :=
  opt_prop (lit "message") (opt_prop (lit "error") (Some errorData)).

End AI.

(* ===================================================================== *)
(** * Node's [path] module (POSIX flavour) *)
(* ===================================================================== *)

Module Path.
Import JS.

Definition slash : N := 47.

(** [s.split('/')]. *)
Fixpoint split (s : jsstring) : list jsstring :=
  match s with
  | [] => [[]]
  | c :: s' =>
      if (c =? slash)%N then [] :: split s'
      else match split s' with
           | seg :: segs => (c :: seg) :: segs
           | [] => [[c]]
           end
  end.

Fixpoint join_segments (segs : list jsstring) : jsstring :=
  match segs with
  | [] => []
  | [seg] => seg
  | seg :: rest => seg ++ slash :: join_segments rest
  end.

(** [normalizeString]: drop empty and [.] segments, let [..] remove the
    segment before it; [stack] holds the kept segments, last one first. *)
Fixpoint normalizeString (allowAboveRoot : bool) (stack segs : list jsstring)
    : list jsstring :=
  match segs with
  | [] => rev stack
  | seg :: rest =>
      if eqb_str seg [] || eqb_str seg (lit ".") then
        normalizeString allowAboveRoot stack rest
      else if eqb_str seg (lit "..") then
        match stack with
        | top :: below =>
            if eqb_str top (lit "..") then
              normalizeString allowAboveRoot
                (if allowAboveRoot then seg :: stack else stack) rest
            else normalizeString allowAboveRoot below rest
        | [] =>
            normalizeString allowAboveRoot
              (if allowAboveRoot then [seg] else []) rest
        end
      else normalizeString allowAboveRoot (seg :: stack) rest
  end.

Definition isAbsolute (p : jsstring) : bool :=
  match p with
  | c :: _ => (c =? slash)%N
  | [] => false
  end.

Definition trailingSeparator (p : jsstring) : bool :=
  match rev p with
  | c :: _ => (c =? slash)%N
  | [] => false
  end.

(** [path.posix.normalize]. *)
Definition normalize (p : jsstring) : jsstring :=
  match p with
  | [] => lit "."
  | _ =>
      let res := join_segments (normalizeString (negb (isAbsolute p)) [] (split p)) in
      match res with
      | [] => if isAbsolute p then [slash]
              else if trailingSeparator p then lit "./" else lit "."
      | _ => (if isAbsolute p then [slash] else [])
             ++ res ++ (if trailingSeparator p then [slash] else [])
      end
  end.

(** [path.posix.join(a, b)]. *)
Definition join (a b : jsstring) : jsstring :=
  match a, b with
  | [], [] => lit "."
  | [], _ => normalize b
  | _, [] => normalize a
  | _, _ => normalize (a ++ slash :: b)
  end.

(** A resolved absolute path lies in the tree rooted at [root]: it is the
    root itself or continues it after a separator. *)
Definition within (root p : jsstring) : bool :=
  eqb_str root [slash] || eqb_str p root || startsWith p (root ++ [slash]).

End Path.

(* ===================================================================== *)
(** * The file routes ([api/routes/files.ts]) *)
(* ===================================================================== *)

Module Files.
Import JS.

(** What [fs.stat] answers. *)
Record Stats : Type := {
  isFile : bool;
  size : N;
  mtime : jsstring                  (* [mtime.toISOString()] *)
}.

(** ** [GET /*]: the content of one file *)

(** The file system seen through [fs.stat] and [fs.readFile]; [None] is a
    rejected promise. *)
Record FileSystem : Type := {
  stat : jsstring -> option Stats;
  readFile : jsstring -> option jsstring
}.

Record file_data : Type := {
  data_content : jsstring;
  data_path : jsstring;
  data_size : N;
  data_lastModified : jsstring
}.

Record http_response : Type := {
  http_status : N;
  http_success : bool;
  http_error : option jsstring;
  http_data : option file_data
}.

Definition rejected (code : N) (msg : string) : http_response :=
  {| http_status := code; http_success := false;
     http_error := Some (lit msg); http_data := None |}.

Section Routes.

(** [PROJECT_ROOT = path.resolve(__dirname, '../..')]: an absolute,
    normalised directory fixed when the server starts. *)
Variable PROJECT_ROOT : jsstring.
Variable fs : FileSystem.

(** The handler of [router.get('/*')]; [filePath] is [req.params[0]]. *)
Definition get_file (filePath : jsstring) : http_response :=
  let absolutePath := Path.join PROJECT_ROOT filePath in
  if negb (startsWith absolutePath PROJECT_ROOT) then
    rejected 403 "Access denied: Path outside project root"
  else
    match stat fs absolutePath with
    | None => rejected 500 "Failed to read file"
    | Some stats =>
        if negb (isFile stats) then rejected 404 "File not found"
        else
          match readFile fs absolutePath with
          | None => rejected 500 "Failed to read file"
          | Some content =>
              {| http_status := 200; http_success := true; http_error := None;
                 http_data := Some {| data_content := content;
                                      data_path := filePath;
                                      data_size := size stats;
                                      data_lastModified := mtime stats |} |}
          end
    end.

End Routes.

(** ** [buildFileTree] *)

Inductive node_type : Type := file | folder.

Inductive FileNode : Type :=
  mkFileNode (key title path : jsstring) (type : node_type)
             (isLeaf : option bool) (children : option (list FileNode))
             (size : option N) (lastModified : option jsstring).

Definition title (n : FileNode) : jsstring :=
  match n with mkFileNode _ t _ _ _ _ _ _ => t end.

Definition type (n : FileNode) : node_type :=
  match n with mkFileNode _ _ _ ty _ _ _ _ => ty end.

Definition children (n : FileNode) : option (list FileNode) :=
  match n with mkFileNode _ _ _ _ _ ch _ _ => ch end.

(** What the walk sees below a path: the answer of [fs.stat] on it, and of
    [fs.readdir] (each entry with its name, its [Dirent.isDirectory()] and
    what lies below it).  [None] is a rejected promise. *)
Inductive fsnode : Type :=
  FsNode (stats : option Stats)
         (listing : option (list (jsstring * bool * fsnode))).

Definition stats_of (n : fsnode) : option Stats :=
  match n with FsNode s _ => s end.

(** The filter of [entries.filter(...)]. *)
Definition allowed_dotfiles : list jsstring := [lit ".gitignore"; lit ".env.example"].

Definition build_outputs : list jsstring :=
  [lit "node_modules"; lit "dist"; lit "dist-electron"; lit "build"; lit "release"].

Definition includes (names : list jsstring) (name : jsstring) : bool :=
  existsb (eqb_str name) names.

Definition keep (name : jsstring) : bool :=
  if startsWith name (lit ".")
     && negb (eqb_str name (lit ".gitignore"))
     && negb (eqb_str name (lit ".env.example"))
  then false
  else if includes build_outputs name then false
  else true.

Definition eqb_type (a b : node_type) : bool :=
  match a, b with
  | file, file | folder, folder => true
  | _, _ => false
  end.

(** One entry of the directory as the loop meets it: the [Dirent], the
    answer of [fs.stat(itemPath)], and what the recursive call on it returns. *)
Record visit : Type := {
  v_name : jsstring;
  v_isDirectory : bool;
  v_stats : option Stats;
  v_subtree : list FileNode
}.

Section Tree.

(** [String.prototype.localeCompare] is the host's collation. *)
Variable localeCompare : jsstring -> jsstring -> Z.

(** The comparator given to [items.sort]. *)
Definition compareNodes (a b : FileNode) : Z :=
  if negb (eqb_type (type a) (type b)) then
    match type a with folder => -1 | file => 1 end
  else localeCompare (title a) (title b).

(** [Array.prototype.sort] is stable; with a consistent comparator its
    result is the one of any stable sort, written here by insertion. *)
Fixpoint insert (x : FileNode) (sorted : list FileNode) : list FileNode :=
  match sorted with
  | [] => [x]
  | y :: rest =>
      if (compareNodes y x <=? 0)%Z then y :: insert x rest
      else x :: sorted
  end.

Definition sort (items : list FileNode) : list FileNode :=
  fold_left (fun acc x => insert x acc) items [].

(** The body of [for (const entry of filteredEntries)]: [inr items] when the
    loop runs to its end, [inl items] when [fs.stat] throws, with the items
    pushed until then. *)
Fixpoint push_entries (relativePath : jsstring) (entries : list visit)
    (items : list FileNode) : list FileNode + list FileNode :=
  match entries with
  | [] => inr items
  | entry :: rest =>
      let itemRelativePath := Path.join relativePath (v_name entry) in
      match v_stats entry with
      | None => inl items
      | Some stats =>
          if v_isDirectory entry then
            let depth := List.length (Path.split relativePath) in
            let children := if (depth <? 3)%nat then v_subtree entry else [] in
            push_entries relativePath rest
              (items ++ [mkFileNode itemRelativePath (v_name entry) itemRelativePath
                           folder None
                           (match children with [] => None | _ => Some children end)
                           None (Some (mtime stats))])
          else
            push_entries relativePath rest
              (items ++ [mkFileNode itemRelativePath (v_name entry) itemRelativePath
                           file (Some true) None
                           (Some (size stats)) (Some (mtime stats))])
      end
  end.

(** [buildFileTree(absolutePath, relativePath)], the file system below
    [absolutePath] given as [here].  A rejected [readdir] or [stat] is caught
    and the items pushed so far are returned as they are. *)
Fixpoint buildFileTree (here : fsnode) (relativePath : jsstring) : list FileNode :=
  match here with
  | FsNode _ None => []
  | FsNode _ (Some entries) =>
      let visits :=
        map (fun entry : jsstring * bool * fsnode =>
               let '(name, isDirectory, below) := entry in
               {| v_name := name;
                  v_isDirectory := isDirectory;
                  v_stats := stats_of below;
                  v_subtree := buildFileTree below (Path.join relativePath name) |})
            entries in
      let filteredEntries := filter (fun entry => keep (v_name entry)) visits in
      match push_entries relativePath filteredEntries [] with
      | inr items => sort items
      | inl items => items
      end
  end.

End Tree.

(** The titles of a node and of everything below it. *)
Fixpoint titles (n : FileNode) : list jsstring :=
  match n with
  | mkFileNode _ t _ _ _ ch _ _ =>
      t :: match ch with
           | Some nodes => flat_map titles nodes
           | None => []
           end
  end.

(** ** Sample trees *)

Definition example_root : jsstring := lit "/srv/learn-solo".

(** A file system with one file, in a directory beside the project root. *)
Definition sibling_fs : FileSystem :=
  {| stat := fun p =>
       if eqb_str p (lit "/srv/learn-solo-backup/.env")
       then Some {| isFile := true; size := 14;
                    mtime := lit "2024-01-01T00:00:00.000Z" |}
       else None;
     readFile := fun p =>
       if eqb_str p (lit "/srv/learn-solo-backup/.env")
       then Some (lit "API_KEY=secret")
       else None |}.

Definition regular (name : string) : jsstring * bool * fsnode :=
  (lit name, false,
   FsNode (Some {| isFile := true; size := 12;
                   mtime := lit "2024-01-01T00:00:00.000Z" |}) None).

Definition directory (name : string) (entries : list (jsstring * bool * fsnode))
    : jsstring * bool * fsnode :=
  (lit name, true,
   FsNode (Some {| isFile := false; size := 4096;
                   mtime := lit "2024-01-01T00:00:00.000Z" |}) (Some entries)).

(** A symbolic link whose target is gone: [fs.stat] rejects. *)
Definition dangling (name : string) : jsstring * bool * fsnode :=
  (lit name, false, FsNode None None).

Definition example_directory : fsnode :=
  FsNode None
    (Some [directory ".git" [regular "HEAD"]; directory "node_modules" [];
           regular "b.txt"; regular "a.md"]).

Definition directory_with_dangling_link : fsnode :=
  FsNode None (Some [regular "b.txt"; regular "a.md"; dangling "latest"]).

(** A directory as [readdir] may list it: a file, a folder, a link whose
    target is gone, another file. *)
Definition notes_with_dangling_link : fsnode :=
  FsNode None
    (Some [regular "notes.md"; directory "docs" [regular "guide.md"];
           dangling "latest"; regular "a.md"]).

(** Code-unit order, a collation to run the walk with. *)
Fixpoint lex_compare (a b : jsstring) : Z :=
  match a, b with
  | [], [] => 0
  | [], _ :: _ => -1
  | _ :: _, [] => 1
  | x :: a', y :: b' =>
      match (x ?= y)%N with
      | Lt => -1
      | Gt => 1
      | Eq => lex_compare a' b'
      end
  end.

End Files.

(* ===================================================================== *)
(** * The scroll synchroniser ([MarkdownEditor.tsx] and its two surfaces) *)
(* ===================================================================== *)

Module ScrollSync.

Local Open Scope Q_scope.

(** This module follows the control flow of the component: the guard, the
    refs, the timers and the order of the commands.  Pixel quantities are
    idealised here as rationals; the arithmetic of the handlers on JavaScript
    numbers is the subject of [ScrollDouble] below. *)
Record ScrollInfo : Type := {
  scrollTop : Q;
  scrollHeight : Q;
  clientHeight : Q
}.

(** What a surface's imperative handle closes over: the Monaco editor
    ([editorRef.current] in [MonacoEditor]) or the container element
    ([containerRef.current] in [MarkdownRenderer]); [None] while it is null. *)
Definition handle : Type := option ScrollInfo.

Definition getScrollInfo (h : handle) : ScrollInfo :=
  match h with
  | Some info => info
  | None => {| scrollTop := 0; scrollHeight := 0; clientHeight := 0 |}
  end.

Definition Qgtb (a b : Q) : bool := negb (Qle_bool a b).

Definition Qmax0 (x : Q) : Q := if Qle_bool 0 x then x else 0.

(** [scrollToPosition]: the element behind the handle is given a position
    and takes it within its scrolling range, from [0] to
    [max(0, scrollHeight - clientHeight)]: the [scrollTop] setter of the DOM
    and Monaco's [setScrollTop] both clamp.  A surface may besides snap the
    position to its pixel grid; what it has settled on is what its next
    scroll event reports. *)
Definition scrollToPosition (h : handle) (target : Q) : handle :=
  match h with
  | Some info =>
      let last := Qmax0 (scrollHeight info - clientHeight info) in
      Some {| scrollTop := if Qgtb 0 target then 0
                           else if Qgtb target last then last
                           else target;
              scrollHeight := scrollHeight info;
              clientHeight := clientHeight info |}
  | None => None
  end.

Inductive surface : Type := Editor | Renderer.

(** What a handler does, in order. *)
Inductive action : Type :=
| SetIsScrollSyncing (b : bool)
| ScrollTo (target : surface) (position : Q)
| SetTimeout (callback : action) (ms : N).

Definition scrollRatio (scrollTop scrollHeight clientHeight : Q) : Q :=
  if Qgtb scrollHeight clientHeight
  then scrollTop / (scrollHeight - clientHeight)
  else 0.

(** [handleEditorScroll].  [isScrollSyncing] is the value the closure
    captured in the render that created it; [rendererRef] is
    [rendererRef.current], read when the handler runs. *)
Definition handleEditorScroll (isScrollSyncing : bool) (rendererRef : option handle)
    (scrollTop scrollHeight clientHeight : Q) : list action :=
  match isScrollSyncing, rendererRef with
  | true, _ | _, None => []
  | false, Some renderer =>
      let scrollRatio := scrollRatio scrollTop scrollHeight clientHeight in
      let rendererScrollInfo := getScrollInfo renderer in
      let targetScrollTop :=
        scrollRatio * Qmax0 (ScrollSync.scrollHeight rendererScrollInfo
                             - ScrollSync.clientHeight rendererScrollInfo) in
      [SetIsScrollSyncing true;
       ScrollTo Renderer targetScrollTop;
       SetTimeout (SetIsScrollSyncing false) 100]
  end.

(** [handleRendererScroll]. *)
Definition handleRendererScroll (isScrollSyncing : bool) (editorRef : option handle)
    (scrollTop scrollHeight clientHeight : Q) : list action :=
  match isScrollSyncing, editorRef with
  | true, _ | _, None => []
  | false, Some editor =>
      let scrollRatio := scrollRatio scrollTop scrollHeight clientHeight in
      let editorScrollInfo := getScrollInfo editor in
      let targetScrollTop :=
        scrollRatio * Qmax0 (ScrollSync.scrollHeight editorScrollInfo
                             - ScrollSync.clientHeight editorScrollInfo) in
      [SetIsScrollSyncing true;
       ScrollTo Editor targetScrollTop;
       SetTimeout (SetIsScrollSyncing false) 100]
  end.

(** ** The component around the handlers *)

(** [isScrollSyncing] is React state; a handler sees the value of the render
    that created it.  [MarkdownRenderer] is handed the current
    [handleRendererScroll] on every render.  [MonacoEditor] subscribes to
    [editor.onDidScrollChange] once, inside [handleEditorDidMount], and the
    listener keeps calling the [onScroll] of that render. *)
Record state : Type := {
  isScrollSyncing : bool;          (* the state variable *)
  rendered : bool;                 (* its value in the last render *)
  editorListener : option bool;    (* its value in the render the listener is from *)
  editorRef : option handle;
  rendererRef : option handle;
  timers : list action;            (* pending [setTimeout] callbacks *)
  commands : list (surface * Q)    (* [scrollToPosition] calls so far *)
}.

Inductive event : Type :=
| Render
| EditorDidMount (info : ScrollInfo)
| EditorScroll (scrollTop scrollHeight clientHeight : Q)
| RendererScroll (scrollTop scrollHeight clientHeight : Q)
| TimerFires.

Definition set_isScrollSyncing (b : bool) (st : state) : state :=
  {| isScrollSyncing := b; rendered := rendered st;
     editorListener := editorListener st; editorRef := editorRef st;
     rendererRef := rendererRef st; timers := timers st;
     commands := commands st |}.

Definition set_rendered (b : bool) (st : state) : state :=
  {| isScrollSyncing := isScrollSyncing st; rendered := b;
     editorListener := editorListener st; editorRef := editorRef st;
     rendererRef := rendererRef st; timers := timers st;
     commands := commands st |}.

Definition set_editorListener (l : option bool) (st : state) : state :=
  {| isScrollSyncing := isScrollSyncing st; rendered := rendered st;
     editorListener := l; editorRef := editorRef st;
     rendererRef := rendererRef st; timers := timers st;
     commands := commands st |}.

Definition set_timers (ts : list action) (st : state) : state :=
  {| isScrollSyncing := isScrollSyncing st; rendered := rendered st;
     editorListener := editorListener st; editorRef := editorRef st;
     rendererRef := rendererRef st; timers := ts;
     commands := commands st |}.

Definition set_commands (cs : list (surface * Q)) (st : state) : state :=
  {| isScrollSyncing := isScrollSyncing st; rendered := rendered st;
     editorListener := editorListener st; editorRef := editorRef st;
     rendererRef := rendererRef st; timers := timers st;
     commands := cs |}.

Definition get_ref (s : surface) (st : state) : option handle :=
  match s with
  | Editor => editorRef st
  | Renderer => rendererRef st
  end.

Definition set_ref (s : surface) (r : option handle) (st : state) : state :=
  {| isScrollSyncing := isScrollSyncing st; rendered := rendered st;
     editorListener := editorListener st;
     editorRef := match s with Editor => r | Renderer => editorRef st end;
     rendererRef := match s with Renderer => r | Editor => rendererRef st end;
     timers := timers st; commands := commands st |}.

(** The element behind a mounted surface takes a new position or layout. *)
Definition update_surface (s : surface) (f : handle -> handle) (st : state) : state :=
  set_ref s (option_map f (get_ref s st)) st.

Definition perform (a : action) (st : state) : state :=
  match a with
  | SetIsScrollSyncing b => set_isScrollSyncing b st
  | ScrollTo s position =>
      let st' := update_surface s (fun h => scrollToPosition h position) st in
      set_commands (commands st' ++ [(s, position)]) st'
  | SetTimeout callback _ => set_timers (timers st ++ [callback]) st
  end.

Definition perform_all (actions : list action) (st : state) : state :=
  fold_left (fun st a => perform a st) actions st.

Definition reported (scrollTop scrollHeight clientHeight : Q) : handle -> handle :=
  option_map (fun _ => {| scrollTop := scrollTop; scrollHeight := scrollHeight;
                          clientHeight := clientHeight |}).

Definition step (st : state) (e : event) : state :=
  match e with
  | Render => set_rendered (isScrollSyncing st) st
  | EditorDidMount info =>
      match editorListener st with
      | Some _ => st
      | None =>
          set_editorListener (Some (rendered st))
            (update_surface Editor (fun _ => Some info) st)
      end
  | EditorScroll scrollTop scrollHeight clientHeight =>
      match editorListener st with
      | Some captured =>
          perform_all
            (handleEditorScroll captured (rendererRef st)
               scrollTop scrollHeight clientHeight)
            (update_surface Editor (reported scrollTop scrollHeight clientHeight) st)
      | None => st
      end
  | RendererScroll scrollTop scrollHeight clientHeight =>
      perform_all
        (handleRendererScroll (rendered st) (editorRef st)
           scrollTop scrollHeight clientHeight)
        (update_surface Renderer (reported scrollTop scrollHeight clientHeight) st)
  | TimerFires =>
      match timers st with
      | callback :: rest => perform callback (set_timers rest st)
      | [] => st
      end
  end.

Definition run (st : state) (events : list event) : state :=
  fold_left step events st.

(** The component after its first render in split view: both handles are
    there, the preview's container too, the Monaco editor not yet. *)
Definition initial (renderer : ScrollInfo) : state :=
  {| isScrollSyncing := false; rendered := false; editorListener := None;
     editorRef := Some None; rendererRef := Some (Some renderer);
     timers := []; commands := [] |}.

(** ** Sample surfaces *)

Definition example_editor : ScrollInfo :=
  {| scrollTop := 0; scrollHeight := 1000; clientHeight := 200 |}.

Definition example_renderer : ScrollInfo :=
  {| scrollTop := 0; scrollHeight := 400; clientHeight := 100 |}.

(** The user scrolls the preview once the editor is up and a render has
    passed; the component renders again with [isScrollSyncing] set. *)
Definition preview_scrolled : state :=
  run (initial example_renderer)
      [EditorDidMount example_editor; Render; RendererScroll 150 400 100; Render].

End ScrollSync.

(* ===================================================================== *)
(** * JavaScript numbers *)
(* ===================================================================== *)

(** A JavaScript number is an IEEE 754 double.  The operations are those of
    the Standard Library's reference implementation, at 53 bits of precision
    and with the exponents of binary64; rounding is to nearest, ties to
    even. *)
Module Number.

Local Open Scope Q_scope.

Definition number : Type := spec_float.

Definition prec : Z := 53.
Definition emax : Z := 1024.

Definition sub : number -> number -> number := SFsub prec emax.
Definition mul : number -> number -> number := SFmul prec emax.
Definition div : number -> number -> number := SFdiv prec emax.

(** [a > b], false when an operand is NaN. *)
Definition gt (a b : number) : bool := SFltb b a.

Definition zero : number := S754_zero false.

(** [Math.max(a, b)]: NaN when an operand is NaN; [+0] counts as larger
    than [-0]. *)
Definition max (a b : number) : number :=
  match SFcompare a b with
  | None => S754_nan
  | Some Gt => a
  | Some Lt => b
  | Some Eq => match a with S754_zero true => b | _ => a end
  end.

(** The number an integer literal denotes. *)
Definition of_Z (n : Z) : number := binary_normalize prec emax n 0 false.

(** The rational a finite number stands for ([0] for the others). *)
Definition value (x : number) : Q :=
  match x with
  | S754_finite s m e =>
      (if s then -1 else 1) * inject_Z (Zpos m) * 2 ^ e
  | _ => 0
  end.

Definition finite (x : number) : bool :=
  match x with
  | S754_zero _ | S754_finite _ _ _ => true
  | _ => false
  end.

(** A positive normal number (53 significant bits) whose exponent lies
    between [lo] and [hi]. *)
Definition normal_in (lo hi : Z) (x : number) : bool :=
  match x with
  | S754_finite false m e =>
      (Zpos (digits2_pos m) =? prec)%Z && (lo <=? e)%Z && (e <=? hi)%Z
  | _ => false
  end.

(** A positive number of moderate size, from [2^-248] up to [2^353]: what a
    length in pixels is, unless it is [0]. *)
Definition moderate : number -> bool := normal_in (-300) 300.

(** A length in pixels: [+0] or a positive number of moderate size. *)
Definition pixels (x : number) : bool :=
  match x with
  | S754_zero false => true
  | _ => moderate x
  end.

(** Half the distance from [1] to the next number, [2^-53]: the relative
    error of one rounding. *)
Definition unit_roundoff : Q := 1 # 9007199254740992.

(** What a rounding step knows of the value it rounds: [location] tells
    where the rational [A / B] lies between [m] and [m + 1]. *)
Definition inbetween (m : Z) (l : location) (A B : Z) : Prop :=
  match l with
  | loc_Exact => A = m * B
  | loc_Inexact Lt => m * B < A /\ 2 * A < (2 * m + 1) * B
  | loc_Inexact Eq => 2 * A = (2 * m + 1) * B
  | loc_Inexact Gt => (2 * m + 1) * B < 2 * A /\ A < (m + 1) * B
  end%Z.

Definition located (mrs : shr_record) (A B : Z) : Prop :=
  (0 <= shr_m mrs)%Z /\ (0 < B)%Z
  /\ inbetween (shr_m mrs) (loc_of_shr_record mrs) A B.

End Number.

(* ===================================================================== *)
(** * The scroll handlers on JavaScript numbers *)
(* ===================================================================== *)

(** The two handlers of [MarkdownEditor.tsx] once more, with the arithmetic
    the source performs. *)
Module ScrollDouble.
Import Number.
Export ScrollSync (surface, Editor, Renderer).

Record ScrollInfo : Type := {
  scrollTop : number;
  scrollHeight : number;
  clientHeight : number
}.

Definition handle : Type := option ScrollInfo.

Definition getScrollInfo (h : handle) : ScrollInfo :=
  match h with
  | Some info => info
  | None => {| scrollTop := zero; scrollHeight := zero; clientHeight := zero |}
  end.

Inductive action : Type :=
| SetIsScrollSyncing (b : bool)
| ScrollTo (target : surface) (position : number)
| SetTimeout (callback : action) (ms : N).

Definition scrollRatio (scrollTop scrollHeight clientHeight : number) : number :=
  if gt scrollHeight clientHeight
  then div scrollTop (sub scrollHeight clientHeight)
  else zero.

(** [handleEditorScroll]. *)
Definition handleEditorScroll (isScrollSyncing : bool) (rendererRef : option handle)
    (scrollTop scrollHeight clientHeight : number) : list action :=
  match isScrollSyncing, rendererRef with
  | true, _ | _, None => []
  | false, Some renderer =>
      let scrollRatio := scrollRatio scrollTop scrollHeight clientHeight in
      let rendererScrollInfo := getScrollInfo renderer in
      let targetScrollTop :=
        mul scrollRatio
            (max zero (sub (ScrollDouble.scrollHeight rendererScrollInfo)
                           (ScrollDouble.clientHeight rendererScrollInfo))) in
      [SetIsScrollSyncing true;
       ScrollTo Renderer targetScrollTop;
       SetTimeout (SetIsScrollSyncing false) 100]
  end.

(** [handleRendererScroll]. *)
Definition handleRendererScroll (isScrollSyncing : bool) (editorRef : option handle)
    (scrollTop scrollHeight clientHeight : number) : list action :=
  match isScrollSyncing, editorRef with
  | true, _ | _, None => []
  | false, Some editor =>
      let scrollRatio := scrollRatio scrollTop scrollHeight clientHeight in
      let editorScrollInfo := getScrollInfo editor in
      let targetScrollTop :=
        mul scrollRatio
            (max zero (sub (ScrollDouble.scrollHeight editorScrollInfo)
                           (ScrollDouble.clientHeight editorScrollInfo))) in
      [SetIsScrollSyncing true;
       ScrollTo Editor targetScrollTop;
       SetTimeout (SetIsScrollSyncing false) 100]
  end.

(** An action here and an action of [ScrollSync] that differ at most in
    the position they carry. *)
Inductive agrees : action -> ScrollSync.action -> Prop :=
| agrees_guard (b : bool) :
    agrees (SetIsScrollSyncing b) (ScrollSync.SetIsScrollSyncing b)
| agrees_scroll (target : surface) (position : number) (ideal : Q) :
    agrees (ScrollTo target position) (ScrollSync.ScrollTo target ideal)
| agrees_timer (callback : action) (callback' : ScrollSync.action) (ms : N) :
    agrees callback callback' ->
    agrees (SetTimeout callback ms) (ScrollSync.SetTimeout callback' ms).

(** A preview three pixels taller than its window. *)
Definition short_preview : ScrollInfo :=
  {| scrollTop := zero; scrollHeight := of_Z 103; clientHeight := of_Z 100 |}.

End ScrollDouble.

(* ===================================================================== *)
(** * The tree route and the shape of its nodes ([api/routes/files.ts]) *)
(* ===================================================================== *)

Module TreeRoute.
Import JS Files.

Definition key (n : FileNode) : jsstring :=
  match n with mkFileNode k _ _ _ _ _ _ _ => k end.

Definition path (n : FileNode) : jsstring :=
  match n with mkFileNode _ _ p _ _ _ _ _ => p end.

Definition isLeaf (n : FileNode) : option bool :=
  match n with mkFileNode _ _ _ _ l _ _ _ => l end.

Definition size (n : FileNode) : option N :=
  match n with mkFileNode _ _ _ _ _ _ s _ => s end.

Definition lastModified (n : FileNode) : option jsstring :=
  match n with mkFileNode _ _ _ _ _ _ _ m => m end.

(** A node and everything below it. *)
Fixpoint all_nodes (n : FileNode) : list FileNode :=
  n :: match children n with
       | Some nodes => flat_map all_nodes nodes
       | None => []
       end.

(** The node the loop of [buildFileTree] pushes for an entry on which
    [fs.stat] answered [stats]. *)
Definition pushed_node (relativePath : jsstring) (entry : visit) (stats : Stats)
    : FileNode :=
  let itemRelativePath := Path.join relativePath (v_name entry) in
  if v_isDirectory entry then
    let depth := List.length (Path.split relativePath) in
    let children := if (depth <? 3)%nat then v_subtree entry else [] in
    mkFileNode itemRelativePath (v_name entry) itemRelativePath folder None
      (match children with [] => None | _ => Some children end)
      None (Some (mtime stats))
  else
    mkFileNode itemRelativePath (v_name entry) itemRelativePath file (Some true)
      None (Some (Files.size stats)) (Some (mtime stats)).

(** A name as [fs.readdir] gives them: not empty, without a slash, and
    neither [.] nor [..]. *)
Definition plain_segment (name : jsstring) : bool :=
  negb (eqb_str name []) && negb (existsb (N.eqb Path.slash) name)
  && negb (eqb_str name (lit ".")) && negb (eqb_str name (lit "..")).

(** The names of all entries below a path, at every depth. *)
Fixpoint all_names (here : fsnode) : list jsstring :=
  match here with
  | FsNode _ None => []
  | FsNode _ (Some entries) =>
      flat_map (fun entry : jsstring * bool * fsnode =>
                  fst (fst entry) :: all_names (snd entry))
               entries
  end.

(** A value of [req.query]: the query-string parser gives a string, an
    array ([?path=a&path=b]) or an object ([?path[x]=a]). *)
Inductive query_value : Type :=
| QString (s : jsstring)
| QArray (items : list query_value)
| QObject (fields : list (jsstring * query_value)).

(** The body of a [/tree] answer. *)
Record tree_response : Type := {
  tree_status : N;
  tree_success : bool;
  tree_error : option jsstring;
  tree_data : option (list FileNode)
}.

Section Route.

Variable PROJECT_ROOT : jsstring.
Variable localeCompare : jsstring -> jsstring -> Z.

(** What the file system holds under each absolute path. *)
Variable below : jsstring -> fsnode.

(** The handler of [router.get('/tree')]; [query] is [req.query.path].
    The cast [as string] changes nothing at run time: of the values the parser
    gives only the empty string is falsy, and [path.join] throws a TypeError
    on an argument that is not a string, which the handler's [catch] turns
    into the 500 answer.  [buildFileTree] catches what it meets itself. *)
Definition get_tree (query : option query_value) : tree_response :=
  let rootPath :=
    match query with
    | Some (QString []) | None => QString (lit "/")
    | Some value => value
    end in
  match rootPath with
  | QString rootPath =>
      let absolutePath := Path.join PROJECT_ROOT rootPath in
      if negb (startsWith absolutePath PROJECT_ROOT) then
        {| tree_status := 403; tree_success := false;
           tree_error := Some (lit "Access denied: Path outside project root");
           tree_data := None |}
      else
        let fileTree := buildFileTree localeCompare (below absolutePath) rootPath in
        {| tree_status := 200; tree_success := true; tree_error := None;
           tree_data := Some fileTree |}
  | QArray _ | QObject _ =>
      {| tree_status := 500; tree_success := false;
         tree_error := Some (lit "Failed to get file tree");
         tree_data := None |}
  end.

End Route.

End TreeRoute.

(* ===================================================================== *)
(** * The recent-files list ([src/utils/fileOperations.ts]) *)
(* ===================================================================== *)

Module FileOperations.
Import JS.

(** [Array.prototype.indexOf]: the first index holding the value. *)
Fixpoint indexOf (l : list jsstring) (x : jsstring) : option nat :=
  match l with
  | [] => None
  | y :: rest =>
      if eqb_str y x then Some O
      else option_map S (indexOf rest x)
  end.

(** [l.splice(index, 1)]: what is left of [l]. *)
Fixpoint splice1 (index : nat) (l : list jsstring) : list jsstring :=
  match l, index with
  | [], _ => []
  | _ :: rest, O => rest
  | y :: rest, S i => y :: splice1 i rest
  end.

(** [addToRecentFiles]: the new value of [this.recentFiles] (which is also
    what is handed to [localStorage.setItem]). *)
Definition addToRecentFiles (recentFiles : list jsstring) (filePath : jsstring)
    : list jsstring :=
  let recentFiles :=
    match indexOf recentFiles filePath with
    | Some index => splice1 index recentFiles
    | None => recentFiles
    end in
  let recentFiles := filePath :: recentFiles in
  if (10 <? List.length recentFiles)%nat then firstn 10 recentFiles
  else recentFiles.

End FileOperations.

(* ===================================================================== *)
(** * The editor's counters and AI buttons ([MarkdownEditor.tsx]) *)
(* ===================================================================== *)

Module Editor.
Import JS AI.

(** ** [handleContentChange]: words and characters *)

(** [s.split(/\s+/)]: the pieces between maximal runs of white space;
    [in_gap] says that the code unit before was white space. *)
Fixpoint split_ws (in_gap : bool) (s : jsstring) : list jsstring :=
  match s with
  | [] => [[]]
  | c :: s' =>
      if is_whitespace c then
        if in_gap then split_ws true s' else [] :: split_ws true s'
      else
        match split_ws false s' with
        | piece :: pieces => (c :: piece) :: pieces
        | [] => [[c]]
        end
  end.

Record word_count : Type := { words : nat; characters : nat }.

(** The counts [handleContentChange] stores. *)
Definition count (newContent : jsstring) : word_count :=
  {| words :=
       List.length
         (filter (fun word => (0 <? List.length word)%nat)
                 (split_ws false (trim newContent)));
     characters := List.length newContent |}.

(** The number of maximal runs of code units that are not white space;
    [in_word] says that the code unit before belonged to such a run. *)
Fixpoint word_starts (in_word : bool) (s : jsstring) : nat :=
  match s with
  | [] => O
  | c :: s' =>
      if is_whitespace c then word_starts false s'
      else if in_word then word_starts true s'
      else S (word_starts true s')
  end.

(** ** The AI buttons *)

(** [s.slice(-n)]: the last [n] code units. *)
Definition slice_last (n : nat) (s : jsstring) : jsstring :=
  skipn (List.length s - n) s.

(** What a handler does to the editor and to the component's state. *)
Inductive ui_action : Type :=
| SetIsAiProcessing (b : bool)
| InsertText (text : json)
| ReplaceSelection (text : json)
| SetContent (text : json).

(** [selection || fallback] *)
Definition or_text (selection fallback : jsstring) : jsstring :=
  match selection with
  | [] => fallback
  | _ => selection
  end.

Section Handlers.

Variable engine : Engine.
Variable network : request -> fetch_result.

(** The handlers share their frame: the early return, the flag set and
    cleared around a [try] whose [catch] only logs.  [aiServiceInstance] and
    [isAiProcessing] are the values the closure captured; [editorRef] says
    whether [editorRef.current] is there when the handler starts,
    [editorRefLater] whether it still is once the answer has come. *)
Definition guarded (aiServiceInstance : option AIService) (editorRef : bool)
    (isAiProcessing : bool) (body : AIService -> M (list ui_action))
    : M (list ui_action) :=
  match aiServiceInstance with
  | None => ret []
  | Some service =>
      if negb editorRef || isAiProcessing then ret []
      else
        (edits <- try_catch (body service) (fun _ => ret []) ;;
         ret ([SetIsAiProcessing true] ++ edits ++ [SetIsAiProcessing false]))%js
  end.

(** [editorRef.current.method(...)] after the [await]: a TypeError, caught,
    when the ref has become [null]. *)
Definition on_editor (editorRefLater : bool) (method : string) (a : ui_action)
    : M (list ui_action) :=
  if editorRefLater then ret [a]
  else throw (ThrownError (cannot_read_null engine (lit method))).

Definition usable (result : AIResponse) : bool :=
  success result && truthy (content result).

Definition handleAiCompletion (aiServiceInstance : option AIService)
    (editorRef editorRefLater isAiProcessing : bool)
    (selection content : jsstring) : M (list ui_action) :=
  guarded aiServiceInstance editorRef isAiProcessing (fun service =>
    let textToComplete := or_text selection (slice_last 500 content) in
    (result <- continueText engine network service textToComplete None ;;
     match AI.content result with
     | Some text =>
         if usable result then on_editor editorRefLater "insertText" (InsertText text)
         else ret []
     | None => ret []
     end)%js).

Definition handleAiOptimize (aiServiceInstance : option AIService)
    (editorRef editorRefLater isAiProcessing : bool)
    (selection content : jsstring) : M (list ui_action) :=
  guarded aiServiceInstance editorRef isAiProcessing (fun service =>
    let textToOptimize := or_text selection content in
    (result <- optimizeContent engine network service textToOptimize ;;
     match AI.content result with
     | Some text =>
         if usable result then
           match selection with
           | [] => ret [SetContent text]
           | _ => on_editor editorRefLater "replaceSelection" (ReplaceSelection text)
           end
         else ret []
     | None => ret []
     end)%js).

Definition handleAiTranslate (aiServiceInstance : option AIService)
    (editorRef editorRefLater isAiProcessing : bool)
    (selection content : jsstring) : M (list ui_action) :=
  guarded aiServiceInstance editorRef isAiProcessing (fun service =>
    let textToTranslate := or_text selection content in
    (result <- translateText engine network service textToTranslate
                 (Some (lit "en")) ;;
     match AI.content result with
     | Some text =>
         if usable result then
           match selection with
           | [] => ret [SetContent text]
           | _ => on_editor editorRefLater "replaceSelection" (ReplaceSelection text)
           end
         else ret []
     | None => ret []
     end)%js).

(** The text of the template [`\n\n## Summary\n\n${content}\n\n`]; the
    adapter only ever answers with a string there. *)
Definition summary_block (text : json) : json :=
  match text with
  | JStr s => JStr (nl2 ++ lit "## Summary" ++ nl2 ++ s ++ nl2)
  | other => other
  end.

Definition handleAiSummarize (aiServiceInstance : option AIService)
    (editorRef editorRefLater isAiProcessing : bool)
    (selection content : jsstring) : M (list ui_action) :=
  guarded aiServiceInstance editorRef isAiProcessing (fun service =>
    let textToSummarize := or_text selection content in
    (result <- generateSummary engine network service textToSummarize None ;;
     match AI.content result with
     | Some text =>
         if usable result
         then on_editor editorRefLater "insertText" (InsertText (summary_block text))
         else ret []
     | None => ret []
     end)%js).

(** The four buttons, as one family. *)
Inductive button : Type := Completion | Optimization | Translation | Summarization.

Definition click (b : button) (aiServiceInstance : option AIService)
    (editorRef editorRefLater isAiProcessing : bool)
    (selection content : jsstring) : M (list ui_action) :=
  match b with
  | Completion =>
      handleAiCompletion aiServiceInstance editorRef editorRefLater
        isAiProcessing selection content
  | Optimization =>
      handleAiOptimize aiServiceInstance editorRef editorRefLater
        isAiProcessing selection content
  | Translation =>
      handleAiTranslate aiServiceInstance editorRef editorRefLater
        isAiProcessing selection content
  | Summarization =>
      handleAiSummarize aiServiceInstance editorRef editorRefLater
        isAiProcessing selection content
  end.

End Handlers.

(** The text a chat intent is about. *)
Definition intent_text (i : intent) : jsstring :=
  match i with
  | Continue text _ | Optimize text | Grammar text | Translate text _
  | Summary text _ | Title text | Custom text _ => text
  | TestConnection => []
  end.

(** The adapter operation each button asks for. *)
Definition requested (b : button) (selection content : jsstring) : intent :=
  match b with
  | Completion => Continue (or_text selection (slice_last 500 content)) None
  | Optimization => Optimize (or_text selection content)
  | Translation => Translate (or_text selection content) (Some (lit "en"))
  | Summarization => Summary (or_text selection content) None
  end.

(** An action that changes the document. *)
Definition is_edit (a : ui_action) : bool :=
  match a with
  | SetIsAiProcessing _ => false
  | _ => true
  end.

End Editor.

Unset Implicit Arguments.

(* ===================================================================== *)
(** * Properties of [trim] *)
(* ===================================================================== *)

Module JSFacts.
Import JS.

Lemma eqb_str_eq (a b : jsstring) : eqb_str a b = true <-> a = b.
Proof.
  revert b; induction a as [|x a IH]; intros [|y b]; simpl; split;
    try congruence; try reflexivity.
  - intros H. apply andb_true_iff in H as [Hxy Hab].
    apply N.eqb_eq in Hxy. apply IH in Hab. congruence.
  - intros H. injection H as -> ->. rewrite N.eqb_refl. simpl. now apply IH.
Qed.

Lemma trimStart_split (s : jsstring) :
  exists pre, s = pre ++ trimStart s /\ forallb is_whitespace pre = true.
Proof.
  induction s as [|c s [pre [Hs Hpre]]]; simpl.
  - exists []. auto.
  - destruct (is_whitespace c) eqn:Hc.
    + exists (c :: pre). simpl. rewrite Hc, Hpre. split; [congruence | reflexivity].
    + exists []. auto.
Qed.

Lemma trimStart_head (s : jsstring) (c : N) (rest : jsstring) :
  trimStart s = c :: rest -> is_whitespace c = false.
Proof.
  induction s as [|d s IH]; simpl; [discriminate|].
  destruct (is_whitespace d) eqn:Hd; [assumption|].
  intros H. injection H as <- _. assumption.
Qed.

Lemma trimStart_clean (s : jsstring) (c : N) (rest : jsstring) :
  s = c :: rest -> is_whitespace c = false -> trimStart s = s.
Proof. intros -> H. simpl. now rewrite H. Qed.

Lemma forallb_rev {A} (f : A -> bool) (l : list A) :
  forallb f (rev l) = forallb f l.
Proof.
  induction l as [|x l IH]; simpl; [reflexivity|].
  rewrite forallb_app, IH. simpl. rewrite andb_true_r. apply andb_comm.
Qed.

(** [trim] removes a run of white space at each end and nothing else. *)
Lemma trim_split (s : jsstring) :
  exists pre post,
    s = pre ++ trim s ++ post
    /\ forallb is_whitespace pre = true
    /\ forallb is_whitespace post = true.
Proof.
  destruct (trimStart_split s) as [pre [Hs Hpre]].
  destruct (trimStart_split (rev (trimStart s))) as [tsop [Hr Htsop]].
  exists pre, (rev tsop). unfold trim, trimEnd. repeat split.
  - rewrite Hs at 1. f_equal.
    rewrite <- (rev_involutive (trimStart s)) at 1.
    rewrite Hr at 1. now rewrite rev_app_distr.
  - assumption.
  - now rewrite forallb_rev.
Qed.

(** What [trim] returns neither starts nor ends with white space. *)
Lemma trim_first (s : jsstring) (c : N) (rest : jsstring) :
  trim s = c :: rest -> is_whitespace c = false.
Proof.
  unfold trim, trimEnd. intros H.
  destruct (trimStart s) as [|d t] eqn:Ht.
  - discriminate.
  - pose proof (trimStart_head s d t Ht) as Hd.
    destruct (trimStart_split (rev (d :: t))) as [pre [Hr Hpre]].
    assert (Hdt : d :: t = rev (trimStart (rev (d :: t))) ++ rev pre).
    { rewrite <- rev_app_distr, <- Hr. now rewrite rev_involutive. }
    rewrite H in Hdt. simpl in Hdt. injection Hdt as -> _. assumption.
Qed.

Lemma trim_last (s : jsstring) (c : N) (rest : jsstring) :
  rev (trim s) = c :: rest -> is_whitespace c = false.
Proof.
  unfold trim, trimEnd. rewrite rev_involutive. apply trimStart_head.
Qed.

(** A string with white space at either end is changed by [trim]. *)
Lemma trim_changes (s : jsstring) (c : N) (rest : jsstring) :
  s = c :: rest \/ rev s = c :: rest ->
  is_whitespace c = true -> trim s <> s.
Proof.
  intros [H|H] Hc Heq.
  - rewrite <- Heq in H. apply trim_first in H. congruence.
  - rewrite <- Heq in H. apply trim_last in H. congruence.
Qed.

End JSFacts.

(* ===================================================================== *)
(** * Properties of the AI adapter *)
(* ===================================================================== *)

Module AIFacts.
Import JS AI.

Lemma nonempty_iff (s : jsstring) : nonempty s = true <-> s <> [].
Proof.
  destruct s; simpl; split; intros H; try congruence; try reflexivity.
  now elim H.
Qed.

(** An available service has settings. *)
Lemma isAvailable_settings svc :
  isAvailable svc = true -> exists st, settings svc = Some st.
Proof.
  unfold isAvailable. destruct (settings svc) as [st|]; [eauto | discriminate].
Qed.

Lemma populated_failure e : fully_populated (failure e).
Proof. right. repeat split. discriminate. Qed.

Lemma populated_succeeded c : fully_populated (succeeded c).
Proof. left. repeat split. discriminate. Qed.

Create HintDb populated.
#[local] Hint Resolve populated_failure populated_succeeded : populated.

Section Facts.

Variable engine : Engine.
Variable network : request -> fetch_result.

Ltac run_callAPI Hav Hst :=
  unfold callAPI, try_catch, bind, settings_field, fetch;
  rewrite Hav, Hst; cbn [negb ret].

Lemma callAPI_unavailable svc messages options log :
  isAvailable svc = false ->
  callAPI engine network svc messages options log
  = (Returns (failure (JStr msg_not_configured)), log).
Proof. intros H. unfold callAPI. now rewrite H. Qed.

Lemma callAPI_rejects svc st messages options log e :
  isAvailable svc = true -> settings svc = Some st ->
  network (chat_request (apiUrl st) (apiKey st) (model st) messages options)
  = Rejects e ->
  callAPI engine network svc messages options log
  = (Returns (failure (message_or msg_network e)),
     log ++ [chat_request (apiUrl st) (apiKey st) (model st) messages options]).
Proof.
  intros Hav Hst Hnet. run_callAPI Hav Hst. now rewrite Hnet.
Qed.

(** The answer to a response whose status is not in 200-299. *)
Lemma callAPI_not_ok svc st messages options log r :
  isAvailable svc = true -> settings svc = Some st ->
  network (chat_request (apiUrl st) (apiKey st) (model st) messages options)
  = Resolves r ->
  ok r = false ->
  callAPI engine network svc messages options log
  = (Returns
       match resp_body r with
       | BodyJson JNull =>
           failure (JStr (cannot_read_null engine (lit "error")))
       | BodyJson errorData =>
           failure (or_else (error_message_field errorData)
                            (JStr (msg_request_failed (status r))))
       | BodyThrows _ => failure (JStr (msg_request_failed (status r)))
       end,
     log ++ [chat_request (apiUrl st) (apiKey st) (model st) messages options]).
Proof.
  intros Hav Hst Hnet Hok. run_callAPI Hav Hst.
  rewrite Hnet, Hok. cbn [negb]. unfold response_json.
  destruct (resp_body r) as [[| | | | |]|]; reflexivity.
Qed.

(** The answer to a response whose status is in 200-299. *)
Lemma callAPI_ok svc st messages options log r :
  isAvailable svc = true -> settings svc = Some st ->
  network (chat_request (apiUrl st) (apiKey st) (model st) messages options)
  = Resolves r ->
  ok r = true ->
  callAPI engine network svc messages options log
  = (Returns
       match resp_body r with
       | BodyThrows e => failure (message_or msg_network e)
       | BodyJson JNull =>
           failure (JStr (cannot_read_null engine (lit "choices")))
       | BodyJson data =>
           match content_field data with
           | Some (JStr s) =>
               if nonempty s then succeeded (JStr (trim s))
               else failure (JStr msg_malformed)
           | v =>
               if truthy v
               then failure (JStr (not_a_function engine (lit "content.trim")))
               else failure (JStr msg_malformed)
           end
       end,
     log ++ [chat_request (apiUrl st) (apiKey st) (model st) messages options]).
Proof.
  intros Hav Hst Hnet Hok. run_callAPI Hav Hst.
  rewrite Hnet, Hok. cbn [negb]. unfold response_json.
  destruct (resp_body r) as [data|e]; [|reflexivity].
  destruct data; try reflexivity;
    unfold content_field; cbn [get_prop ret opt_prop own_prop];
    match goal with
    | |- context [truthy ?c] =>
        destruct c as [[|b0|[]|s0| |]|] eqn:Hc
    end;
    try reflexivity; [destruct b0 | destruct s0];
    reflexivity.
Qed.

(** Whatever the network does, an available service sends the one request. *)
Lemma callAPI_sends svc st messages options log :
  isAvailable svc = true -> settings svc = Some st ->
  exists res,
    callAPI engine network svc messages options log
    = (Returns res,
       log ++ [chat_request (apiUrl st) (apiKey st) (model st) messages options])
    /\ fully_populated res.
Proof.
  intros Hav Hst.
  destruct (network (chat_request (apiUrl st) (apiKey st) (model st)
                                  messages options)) as [r|e] eqn:Hnet.
  - destruct (ok r) eqn:Hok.
    + rewrite (callAPI_ok _ _ _ _ log _ Hav Hst Hnet Hok). eexists; split; [reflexivity|].
      destruct (resp_body r) as [[| | | | |]|[]];
        repeat match goal with
               | |- context [match ?x with _ => _ end] => destruct x
               end; auto with populated.
    + rewrite (callAPI_not_ok _ _ _ _ log _ Hav Hst Hnet Hok). eexists; split; [reflexivity|].
      destruct (resp_body r) as [[| | | | |]|]; auto with populated.
  - rewrite (callAPI_rejects _ _ _ _ log _ Hav Hst Hnet). eexists; split; [reflexivity|].
    auto with populated.
Qed.

(** Every chat intent is one call of [callAPI]. *)
Lemma chat_intent_calls_API svc i :
  is_chat i = true ->
  exists messages options,
    run engine network svc i = callAPI engine network svc messages options.
Proof.
  destruct i; intros Hi; try discriminate;
    unfold run, continueText, optimizeContent, checkGrammar, translateText,
      generateSummary, generateTitle, customPrompt;
    eexists; eexists; reflexivity.
Qed.

End Facts.

Lemma testConnection_unavailable engine network svc log :
  isAvailable svc = false ->
  testConnection engine network svc log
  = (Returns (failure (JStr msg_not_configured)), log).
Proof. intros H. unfold testConnection. now rewrite H. Qed.

Lemma testConnection_populated engine network svc log :
  exists res log',
    testConnection engine network svc log = (Returns res, log')
    /\ fully_populated res.
Proof.
  destruct (isAvailable svc) eqn:Hav.
  - destruct (isAvailable_settings svc Hav) as [st Hst].
    unfold testConnection, try_catch, bind, settings_field, fetch.
    rewrite Hav, Hst. cbn [negb ret].
    destruct (network _) as [r|e]; [destruct (ok r)|];
      eexists; eexists; (split; [reflexivity | auto with populated]).
  - rewrite testConnection_unavailable by assumption.
    eexists; eexists; split; [reflexivity | auto with populated].
Qed.

(** C3.  [isAvailable] holds exactly when the settings are present, enabled,
    and carry a non-empty [apiUrl] and [apiKey]; while it does not hold,
    every intent (continue, optimize, grammar check, translate, summary,
    title, custom prompt, connection test) returns, without throwing,
    [{success: false}] with the service-not-configured message, and sends
    nothing: the log of requests is unchanged. *)
Theorem unavailable_fails_fast (engine : Engine)
    (network : request -> fetch_result) (svc : AIService) (i : intent)
    (log : list request) :
  (isAvailable svc = true <->
     exists st, settings svc = Some st /\ enabled st = true
                /\ apiUrl st <> [] /\ apiKey st <> [])
  /\ (isAvailable svc = false ->
      run engine network svc i log
      = (Returns {| success := false; content := None;
                    error := Some (JStr msg_not_configured) |},
         log)).
Proof.
  split.
  - unfold isAvailable. destruct (settings svc) as [st|].
    + rewrite !andb_true_iff, !nonempty_iff. split.
      * intros [[He Hk] Hu]. exists st. auto.
      * intros [st' [Hst [He [Hu Hk]]]]. injection Hst as <-. auto.
    + split; [discriminate | intros [st [Hst _]]; discriminate].
  - intros Hav.
    destruct i;
      unfold run, continueText, optimizeContent, checkGrammar, translateText,
        generateSummary, generateTitle, customPrompt;
      [ apply callAPI_unavailable; assumption ..
      | apply testConnection_unavailable; assumption ].
Qed.

Lemma unavailable_fails_fast_witness :
  isAvailable disabled_service = false
  /\ run v8 (always {| status := 200; resp_body := BodyJson JNull |})
         disabled_service (Translate (lit "hello") None) []
     = (Returns {| success := false; content := None;
                   error := Some (JStr msg_not_configured) |}, []).
Proof.
  split; [reflexivity|].
  apply (proj2 (unavailable_fails_fast v8 _ disabled_service _ [])).
  reflexivity.
Defined.

(** C9.  Every public operation returns (it never throws) a result with
    exactly the fields of its tag: [success: true] with [content] defined and
    no [error], or [success: false] with [error] defined and no [content]. *)
Theorem results_fully_populated (engine : Engine)
    (network : request -> fetch_result) (svc : AIService) (i : intent)
    (log : list request) :
  exists res log',
    run engine network svc i log = (Returns res, log')
    /\ ((success res = true /\ content res <> None /\ error res = None)
        \/ (success res = false /\ error res <> None /\ content res = None)).
Proof.
  destruct (is_chat i) eqn:Hi.
  - destruct (chat_intent_calls_API engine network svc i Hi)
      as [messages [options ->]].
    destruct (isAvailable svc) eqn:Hav.
    + destruct (isAvailable_settings svc Hav) as [st Hst].
      destruct (callAPI_sends engine network svc st messages options log Hav Hst)
        as [res [-> Hres]].
      eauto.
    + rewrite callAPI_unavailable by assumption.
      eexists; eexists; split; [reflexivity | apply populated_failure].
  - destruct i; try discriminate. apply testConnection_populated.
Qed.

(** ** Responses with an error status *)

(** C4, as stated, fails: a body whose [error.message] is present but empty
    does not come back as the error; the generic message does. *)
Lemma empty_error_message_counterexample :
  error_message_field (error_body (JStr [])) = Some (JStr [])
  /\ fst (run v8 (always {| status := 500;
                            resp_body := BodyJson (error_body (JStr [])) |})
              example_service (Optimize (lit "hello")) [])
     = Returns {| success := false; content := None;
                  error := Some (JStr (msg_request_failed 500)) |}
  /\ Some (JStr (msg_request_failed 500))
     <> error_message_field (error_body (JStr [])).
Proof.
  split; [reflexivity|]. split; [vm_compute; reflexivity|].
  vm_compute. discriminate.
Qed.

(** C4, amended.  For a response whose status is not in 200-299 and whose
    body is not the JSON value [null], every chat intent returns
    [{success: false}] whose [error] is the body's [error.message] when that
    value is truthy (any non-empty string), and otherwise (the field is
    absent or falsy, or the body is not JSON) the generic message
    ["API请求失败: "] followed by the decimal status. *)
Theorem error_status_reports_message (engine : Engine) (svc : AIService)
    (i : intent) (log : list request) (r : response) :
  isAvailable svc = true -> is_chat i = true -> ok r = false ->
  resp_body r <> BodyJson JNull ->
  exists req,
    run engine (always r) svc i log
    = (Returns
         {| success := false; content := None;
            error :=
              Some match resp_body r with
                   | BodyJson errorData =>
                       match error_message_field errorData with
                       | Some message =>
                           if truthy (Some message) then message
                           else JStr (msg_request_failed (status r))
                       | None => JStr (msg_request_failed (status r))
                       end
                   | BodyThrows _ => JStr (msg_request_failed (status r))
                   end |},
       log ++ [req]).
Proof.
  intros Hav Hi Hok Hnull.
  destruct (chat_intent_calls_API engine (always r) svc i Hi)
    as [messages [options ->]].
  destruct (isAvailable_settings svc Hav) as [st Hst].
  eexists.
  rewrite (callAPI_not_ok engine (always r) svc st messages options log r
             Hav Hst eq_refl Hok).
  destruct (resp_body r) as [errorData|e]; [|reflexivity].
  destruct errorData; [now elim Hnull | ..];
    unfold failure, or_else;
    match goal with
    | |- context [error_message_field ?d] =>
        destruct (error_message_field d); reflexivity
    end.
Qed.

Lemma error_status_reports_message_witness :
  exists req,
    run v8 (always {| status := 500;
                      resp_body := BodyJson (error_body (JStr (lit "boom"))) |})
        example_service (Optimize (lit "hello")) []
    = (Returns {| success := false; content := None;
                  error := Some (JStr (lit "boom")) |},
       [] ++ [req]).
Proof.
  destruct (error_status_reports_message v8 example_service
              (Optimize (lit "hello")) []
              {| status := 500;
                 resp_body := BodyJson (error_body (JStr (lit "boom"))) |})
    as [req Hreq];
    [reflexivity | reflexivity | reflexivity | discriminate |].
  exists req. rewrite Hreq. vm_compute. reflexivity.
Defined.

(** The generic message spells the status out in decimal. *)
Lemma msg_request_failed_503 :
  msg_request_failed 503 = lit "API请求失败: 503".
Proof. vm_compute. reflexivity. Qed.


(** ** Responses with a success status *)

(** C5.  A 200 response whose body is the JSON value [null] lacks
    [choices[0].message.content], yet the answer does not carry the
    malformed-response message: reading [data.choices] throws inside the
    [try], and the [catch] returns the engine's TypeError text. *)
Theorem null_body_escapes_malformed_check :
  content_field JNull = None
  /\ fst (run v8 (always {| status := 200; resp_body := BodyJson JNull |})
              example_service (Optimize (lit "hello")) [])
     = Returns {| success := false; content := None;
                  error := Some (JStr (cannot_read_null v8 (lit "choices"))) |}
  /\ cannot_read_null v8 (lit "choices")
     = lit "Cannot read properties of null (reading 'choices')"
  /\ cannot_read_null v8 (lit "choices") <> msg_malformed.
Proof.
  split; [reflexivity|]. split; [vm_compute; reflexivity|].
  split; [vm_compute; reflexivity|]. vm_compute. discriminate.
Qed.

(** Away from the [null] body the malformed-response message is what comes
    back whenever the content is missing or falsy. *)
Lemma missing_content_is_malformed (engine : Engine) (svc : AIService)
    (i : intent) (log : list request) (r : response) (data : json) :
  isAvailable svc = true -> is_chat i = true -> ok r = true ->
  resp_body r = BodyJson data -> data <> JNull ->
  truthy (content_field data) = false ->
  exists req,
    run engine (always r) svc i log
    = (Returns {| success := false; content := None;
                  error := Some (JStr msg_malformed) |}, log ++ [req]).
Proof.
  intros Hav Hi Hok Hbody Hnull Hfalsy.
  destruct (chat_intent_calls_API engine (always r) svc i Hi)
    as [messages [options ->]].
  destruct (isAvailable_settings svc Hav) as [st Hst].
  eexists.
  rewrite (callAPI_ok engine (always r) svc st messages options log r
             Hav Hst eq_refl Hok), Hbody.
  assert (Hgoal :
    match content_field data with
    | Some (JStr s) =>
        if nonempty s then succeeded (JStr (trim s))
        else failure (JStr msg_malformed)
    | v => if truthy v
           then failure (JStr (not_a_function engine (lit "content.trim")))
           else failure (JStr msg_malformed)
    end = failure (JStr msg_malformed)).
  { destruct (content_field data) as [[|b0|x0|s0| |]|];
      try (rewrite Hfalsy; reflexivity).
    unfold truthy in Hfalsy. unfold nonempty. now rewrite Hfalsy. }
  destruct data; [now elim Hnull | ..]; now rewrite Hgoal.
Qed.

(** A rejected [fetch] and an unreadable body are caught: the answer is the
    error's message, or the network-failure text for a thrown non-error. *)
Lemma transport_failure_is_caught (engine : Engine)
    (network : request -> fetch_result) (svc : AIService) (i : intent)
    (log : list request) (e : thrown) :
  isAvailable svc = true -> is_chat i = true ->
  (forall req, network req = Rejects e
               \/ exists st, 200 <= st <= 299
                    /\ network req = Resolves {| status := st;
                                                 resp_body := BodyThrows e |})%N ->
  exists req,
    run engine network svc i log
    = (Returns {| success := false; content := None;
                  error := Some (message_or msg_network e) |}, log ++ [req]).
Proof.
  intros Hav Hi Hnet.
  destruct (chat_intent_calls_API engine network svc i Hi)
    as [messages [options ->]].
  destruct (isAvailable_settings svc Hav) as [st Hst].
  eexists.
  destruct (Hnet (chat_request (apiUrl st) (apiKey st) (model st)
                               messages options)) as [H|[code [Hcode H]]].
  - now rewrite (callAPI_rejects engine network svc st messages options log e
                   Hav Hst H).
  - rewrite (callAPI_ok engine network svc st messages options log _
               Hav Hst H); [reflexivity|].
    unfold ok; simpl. apply andb_true_iff; split; apply N.leb_le; lia.
Qed.

(** C10.  On a response with a success status, a chat intent returns
    [success: true] exactly when [choices[0].message.content] is a non-empty
    string, and the content returned is then that string trimmed (so it
    differs from the field whenever the field starts or ends with white
    space); an empty string there gives the malformed-response failure. *)
Theorem success_iff_nonempty_string_content (engine : Engine) (svc : AIService)
    (i : intent) (log : list request) (r : response) :
  isAvailable svc = true -> is_chat i = true -> ok r = true ->
  exists res req,
    run engine (always r) svc i log = (Returns res, log ++ [req])
    /\ (success res = true <->
        exists data s, resp_body r = BodyJson data
                       /\ content_field data = Some (JStr s) /\ s <> [])
    /\ (forall data s,
          resp_body r = BodyJson data -> content_field data = Some (JStr s) ->
          s <> [] ->
          res = {| success := true; content := Some (JStr (trim s));
                   error := None |}
          /\ (forall c rest, s = c :: rest \/ rev s = c :: rest ->
                             is_whitespace c = true ->
                             content res <> Some (JStr s)))
    /\ (forall data,
          resp_body r = BodyJson data -> content_field data = Some (JStr []) ->
          res = {| success := false; content := None;
                   error := Some (JStr msg_malformed) |}).
Proof.
  intros Hav Hi Hok.
  destruct (chat_intent_calls_API engine (always r) svc i Hi)
    as [messages [options ->]].
  destruct (isAvailable_settings svc Hav) as [st Hst].
  eexists; eexists.
  rewrite (callAPI_ok engine (always r) svc st messages options log r
             Hav Hst eq_refl Hok).
  split; [reflexivity|].
  destruct (resp_body r) as [data|e].
  - assert (Hnull : content_field JNull = None) by reflexivity.
    assert (Hcases :
      forall res,
        res = match content_field data with
              | Some (JStr s) =>
                  if nonempty s then succeeded (JStr (trim s))
                  else failure (JStr msg_malformed)
              | v => if truthy v
                     then failure (JStr (not_a_function engine (lit "content.trim")))
                     else failure (JStr msg_malformed)
              end
        \/ (data = JNull
            /\ res = failure (JStr (cannot_read_null engine (lit "choices")))) ->
        (success res = true <->
         exists data' s, BodyJson data = BodyJson data'
                         /\ content_field data' = Some (JStr s) /\ s <> [])
        /\ (forall data' s,
              BodyJson data = BodyJson data' ->
              content_field data' = Some (JStr s) -> s <> [] ->
              res = {| success := true; content := Some (JStr (trim s));
                       error := None |}
              /\ (forall c rest, s = c :: rest \/ rev s = c :: rest ->
                                 is_whitespace c = true ->
                                 content res <> Some (JStr s)))
        /\ (forall data',
              BodyJson data = BodyJson data' ->
              content_field data' = Some (JStr []) ->
              res = {| success := false; content := None;
                       error := Some (JStr msg_malformed) |})).
    { intros res Hres. repeat split.
      - intros Hs. exists data.
        destruct Hres as [->|[-> ->]]; [|discriminate].
        destruct (content_field data) as [[|b|x|s| |]|];
          try (destruct (truthy _); discriminate).
        destruct s as [|c s]; [discriminate|].
        exists (c :: s). repeat split. discriminate.
      - intros [data' [s [Hd [Hc Hs]]]]. injection Hd as <-.
        destruct Hres as [->|[-> ->]]; [|congruence].
        rewrite Hc. destruct s; [now elim Hs | reflexivity].
      - injection H as <-.
        destruct Hres as [->|[-> ->]]; [|congruence].
        rewrite H0. destruct s; [now elim H1 | reflexivity].
      - injection H as <-.
        destruct Hres as [->|[-> ->]]; [|congruence].
        rewrite H0. destruct s as [|d s]; [now elim H1|].
        intros c rest Hends Hc. simpl. intros Heq. injection Heq as Heq.
        exact (JSFacts.trim_changes (d :: s) c rest Hends Hc Heq).
      - intros data' Hd Hc. injection Hd as <-.
        destruct Hres as [->|[-> ->]]; [|congruence].
        now rewrite Hc. }
    apply Hcases. destruct data; auto.
  - repeat split.
    + discriminate.
    + intros [data [s [Hd _]]]. discriminate.
    + discriminate.
    + discriminate.
    + discriminate.
Qed.

Lemma success_iff_nonempty_string_content_witness :
  exists res req,
    run v8 (always {| status := 200;
                      resp_body := BodyJson (completion_body
                                               (JStr (lit "  Hello.  "))) |})
        example_service (Continue (lit "Once") None) []
    = (Returns res, [] ++ [req])
    /\ content res = Some (JStr (lit "Hello.")).
Proof.
  destruct (success_iff_nonempty_string_content v8 example_service
              (Continue (lit "Once") None) []
              {| status := 200;
                 resp_body := BodyJson (completion_body
                                          (JStr (lit "  Hello.  "))) |})
    as [res [req [Hrun [_ [Htrim _]]]]];
    [reflexivity | reflexivity | reflexivity |].
  exists res, req. split; [exact Hrun|].
  destruct (Htrim (completion_body (JStr (lit "  Hello.  ")))
                  (lit "  Hello.  ") eq_refl) as [-> _].
  - vm_compute. reflexivity.
  - vm_compute. discriminate.
  - vm_compute. reflexivity.
Defined.

(** ** Sampling parameters *)

(** C8.  The sampling parameters are constants of the intent: continuation
    asks for temperature 0.8 and 500 tokens, optimization and translation
    for 0.3 and 800, whatever the text; so continuation is strictly hotter
    and strictly shorter than either. *)
Theorem continuation_hotter_and_shorter (engine : Engine)
    (network : request -> fetch_result) (svc : AIService)
    (text text_o text_t : jsstring) (context targetLanguage : option jsstring) :
  isAvailable svc = true ->
  exists bc bo bt,
    map body (snd (continueText engine network svc text context [])) = [Some bc]
    /\ map body (snd (optimizeContent engine network svc text_o [])) = [Some bo]
    /\ map body (snd (translateText engine network svc text_t targetLanguage []))
       = [Some bt]
    /\ temperature bc = 8 # 10 /\ max_tokens bc = 500%Z
    /\ temperature bo = 3 # 10 /\ max_tokens bo = 800%Z
    /\ temperature bt = 3 # 10 /\ max_tokens bt = 800%Z
    /\ (temperature bo < temperature bc)%Q /\ (temperature bt < temperature bc)%Q
    /\ (max_tokens bc < max_tokens bo)%Z /\ (max_tokens bc < max_tokens bt)%Z.
Proof.
  intros Hav. destruct (isAvailable_settings svc Hav) as [st Hst].
  unfold continueText, optimizeContent, translateText.
  repeat match goal with
  | |- context [callAPI engine network svc ?m ?o []] =>
      let res := fresh "res" in
      let H := fresh "H" in
      destruct (callAPI_sends engine network svc st m o [] Hav Hst)
        as [res [H _]];
      rewrite H; clear H
  end.
  do 3 eexists. cbn [snd app map body chat_request].
  repeat (split; [reflexivity|]).
  cbn [temperature max_tokens options opt_temperature opt_maxTokens or_Q or_Z].
  repeat split.
Qed.

Lemma continuation_hotter_and_shorter_witness :
  isAvailable example_service = true
  /\ exists bc bo bt,
    map body (snd (continueText v8 (always {| status := 200;
                                              resp_body := BodyJson JNull |})
                     example_service (lit "Once") None [])) = [Some bc]
    /\ map body (snd (optimizeContent v8 (always {| status := 200;
                                                    resp_body := BodyJson JNull |})
                        example_service (lit "teh cat") [])) = [Some bo]
    /\ map body (snd (translateText v8 (always {| status := 200;
                                                  resp_body := BodyJson JNull |})
                        example_service (lit "bonjour") None [])) = [Some bt]
    /\ temperature bc = 8 # 10 /\ max_tokens bc = 500%Z
    /\ temperature bo = 3 # 10 /\ max_tokens bo = 800%Z
    /\ temperature bt = 3 # 10 /\ max_tokens bt = 800%Z
    /\ (temperature bo < temperature bc)%Q /\ (temperature bt < temperature bc)%Q
    /\ (max_tokens bc < max_tokens bo)%Z /\ (max_tokens bc < max_tokens bt)%Z.
Proof.
  split; [reflexivity|].
  apply (continuation_hotter_and_shorter v8 _ example_service).
  reflexivity.
Defined.

End AIFacts.

(* ===================================================================== *)
(** * Properties of the file routes *)
(* ===================================================================== *)

Module FilesFacts.
Import JS Files.

(** ** The file-content route *)

(** C6.  With the project at [/srv/learn-solo], the request path
    [../learn-solo-backup/.env] resolves to a file beside the root, not
    under it; the prefix test lets it through and the file is served. *)
Theorem sibling_directory_is_served :
  Path.join example_root (lit "../learn-solo-backup/.env")
  = lit "/srv/learn-solo-backup/.env"
  /\ Path.within example_root (lit "/srv/learn-solo-backup/.env") = false
  /\ get_file example_root sibling_fs (lit "../learn-solo-backup/.env")
     = {| http_status := 200; http_success := true; http_error := None;
          http_data :=
            Some {| data_content := lit "API_KEY=secret";
                    data_path := lit "../learn-solo-backup/.env";
                    data_size := 14;
                    data_lastModified := lit "2024-01-01T00:00:00.000Z" |} |}.
Proof. repeat split; vm_compute; reflexivity. Qed.

Lemma startsWith_app (s t : jsstring) : startsWith (s ++ t) s = true.
Proof.
  induction s as [|c s IH]; simpl; [now destruct t|].
  now rewrite N.eqb_refl.
Qed.

Lemma startsWith_prefix (s p : jsstring) :
  startsWith s p = true <-> exists t, s = p ++ t.
Proof.
  revert s; induction p as [|c p IH]; intros s; simpl.
  - destruct s; split; eauto.
  - destruct s as [|d s]; simpl.
    + split; [discriminate | intros [t Ht]; discriminate].
    + rewrite andb_true_iff, N.eqb_eq, IH. split.
      * intros [-> [t ->]]. eauto.
      * intros [t Ht]. injection Ht as -> ->. eauto.
Qed.

(** ** The tree walk *)

Lemma keep_spec (name : jsstring) :
  keep name = true <->
  (startsWith name (lit ".") = true ->
   name = lit ".gitignore" \/ name = lit ".env.example")
  /\ ~ In name build_outputs.
Proof.
  unfold keep.
  assert (Hb : includes build_outputs name = true <-> In name build_outputs).
  { unfold includes. rewrite existsb_exists. split.
    - intros [x [Hx Heq]]. apply JSFacts.eqb_str_eq in Heq. now subst.
    - intros H. exists name. split; [assumption | now apply JSFacts.eqb_str_eq]. }
  pose proof (JSFacts.eqb_str_eq name (lit ".gitignore")) as Hg.
  pose proof (JSFacts.eqb_str_eq name (lit ".env.example")) as He.
  destruct (startsWith name (lit ".")), (eqb_str name (lit ".gitignore")),
    (eqb_str name (lit ".env.example")), (includes build_outputs name);
    cbn [andb negb]; intuition (try discriminate; try congruence).
Qed.

(** Induction over the file system, entry by entry. *)
Lemma fsnode_nested_ind (P : fsnode -> Prop) :
  (forall s, P (FsNode s None)) ->
  (forall s entries,
      Forall (fun e : jsstring * bool * fsnode => P (snd e)) entries ->
      P (FsNode s (Some entries))) ->
  forall n, P n.
Proof.
  intros Hleaf Hdir.
  fix IH 1. intros [s [entries|]]; [|apply Hleaf].
  apply Hdir. induction entries as [|[[name isDir] below] entries IHe].
  - constructor.
  - constructor; [apply IH | exact IHe].
Qed.

Section TreeFacts.

Variable localeCompare : jsstring -> jsstring -> Z.

Local Abbreviation compare := (compareNodes localeCompare).
Local Abbreviation insert := (Files.insert localeCompare).
Local Abbreviation sort := (Files.sort localeCompare).

Lemma insert_Forall (P : FileNode -> Prop) x l :
  P x -> Forall P l -> Forall P (insert x l).
Proof.
  intros Hx Hl. induction Hl as [|y l Hy Hl IH]; simpl.
  - auto.
  - destruct (compare y x <=? 0)%Z; auto.
Qed.

Lemma sort_Forall (P : FileNode -> Prop) l :
  Forall P l -> Forall P (sort l).
Proof.
  unfold Files.sort. intros Hl.
  assert (Hacc : Forall P (@nil FileNode)) by constructor.
  revert Hacc. generalize (@nil FileNode) as acc.
  induction Hl as [|x l Hx Hl IH]; intros acc Hacc; simpl; [assumption|].
  apply IH. now apply insert_Forall.
Qed.

Lemma insert_Permutation x l : Permutation (insert x l) (x :: l).
Proof.
  induction l as [|y l IH]; simpl; [reflexivity|].
  destruct (compare y x <=? 0)%Z; [|reflexivity].
  rewrite IH. apply perm_swap.
Qed.

Lemma sort_Permutation l : Permutation (sort l) l.
Proof.
  unfold Files.sort.
  assert (H : forall acc, Permutation (fold_left (fun acc x => insert x acc) l acc)
                                      (acc ++ l)).
  { induction l as [|x l IH]; intros acc; simpl.
    - now rewrite app_nil_r.
    - rewrite IH, insert_Permutation. apply Permutation_middle. }
  apply (H []).
Qed.

(** The nodes the loop pushes carry the names of the entries it met. *)
Lemma push_entries_Forall (P : FileNode -> Prop) (Q : jsstring -> Prop)
    relativePath entries :
  (forall key t path ty leaf ch sz lm,
      Q t ->
      match ch with Some nodes => Forall P nodes | None => True end ->
      P (mkFileNode key t path ty leaf ch sz lm)) ->
  Forall (fun v => Q (v_name v) /\ Forall P (v_subtree v)) entries ->
  forall items, Forall P items ->
  match push_entries relativePath entries items with
  | inl r | inr r => Forall P r
  end.
Proof.
  intros Hmk Hentries.
  induction Hentries as [|v entries [Hname Hsub] _ IH]; intros items Hitems; simpl.
  - assumption.
  - destruct (v_stats v) as [stats|]; [|assumption].
    destruct (v_isDirectory v); apply IH; apply Forall_app; split; try assumption;
      constructor; try constructor; apply Hmk; try assumption; try exact I.
    destruct (_ <? 3)%nat; [|exact I].
    destruct (v_subtree v); [exact I | assumption].
Qed.

Lemma push_entries_complete relativePath entries :
  Forall (fun v => v_stats v <> None) entries ->
  forall items,
  exists pushed,
    push_entries relativePath entries items = inr (items ++ pushed)
    /\ map title pushed = map v_name entries.
Proof.
  intros Hentries.
  induction Hentries as [|v entries Hv _ IH]; intros items; simpl.
  - exists []. now rewrite app_nil_r.
  - destruct (v_stats v) as [stats|]; [|now elim Hv].
    destruct (v_isDirectory v);
      match goal with
      | |- context [push_entries _ _ (items ++ [?n])] =>
          destruct (IH (items ++ [n])) as [pushed [Hp Ht]];
          exists (n :: pushed); rewrite Hp, <- app_assoc; simpl;
          split; [reflexivity | now rewrite Ht]
      end.
Qed.

(** Whatever the file system answers, only names that pass the filter are
    listed, at every level. *)
Lemma buildFileTree_kept here :
  forall relativePath,
    Forall (fun n => Forall (fun t => keep t = true) (titles n))
           (buildFileTree localeCompare here relativePath).
Proof.
  induction here as [s|s entries IH] using fsnode_nested_ind;
    intros relativePath; simpl; [constructor|].
  match goal with
  | |- context [push_entries relativePath ?es []] =>
      pose proof (push_entries_Forall
                    (fun n => Forall (fun t => keep t = true) (titles n))
                    (fun t => keep t = true) relativePath es) as Hpush
  end.
  lazy beta in Hpush.
  match type of Hpush with
  | ?A -> ?B -> _ => assert (HA : A); [|assert (HB : B)]
  end.
  - intros key t path ty leaf ch sz lm Ht Hch. simpl. constructor; [assumption|].
    destruct ch as [nodes|]; [|constructor].
    apply Forall_flat_map. exact Hch.
  - apply Forall_forall. intros v Hv. apply filter_In in Hv as [Hv Hkeep].
    split; [assumption|].
    apply in_map_iff in Hv as [[[name isDir] below] [<- Hin]]. simpl.
    rewrite Forall_forall in IH. apply (IH _ Hin).
  - specialize (Hpush HA HB [] (Forall_nil _)).
    destruct (push_entries _ _ _); [assumption | now apply sort_Forall].
Qed.

(** What the comparator's sign says. *)
Lemma compare_le_spec a b :
  (compare a b <= 0)%Z <->
  (type a = folder /\ type b = file)
  \/ (type a = type b /\ (localeCompare (title a) (title b) <= 0)%Z).
Proof.
  unfold compareNodes.
  destruct (type a), (type b); cbn [eqb_type negb]; split;
    intros H; try lia; auto;
    destruct H as [[H1 H2]|[H1 H2]]; try discriminate; try lia.
Qed.

(** ** Sorting, for a collation that is a total preorder *)

Hypothesis localeCompare_total :
  forall a b, (localeCompare a b <= 0 \/ localeCompare b a <= 0)%Z.
Hypothesis localeCompare_trans :
  forall a b c, (localeCompare a b <= 0 -> localeCompare b c <= 0 ->
                 localeCompare a c <= 0)%Z.

Lemma compare_total a b : (compare a b <= 0 \/ compare b a <= 0)%Z.
Proof.
  rewrite !compare_le_spec.
  destruct (localeCompare_total (title a) (title b));
    destruct (type a), (type b); auto.
Qed.

Lemma compare_trans a b c :
  (compare a b <= 0 -> compare b c <= 0 -> compare a c <= 0)%Z.
Proof.
  rewrite !compare_le_spec.
  intros [[Ha Hb]|[Hab Hle]] [[Hb' Hc]|[Hbc Hle']]; try congruence.
  - left. split; congruence.
  - left. split; congruence.
  - right. split; [congruence|]. eapply localeCompare_trans; eassumption.
Qed.

Lemma insert_Sorted x l :
  Sorted (fun a b => compare a b <= 0)%Z l ->
  Sorted (fun a b => compare a b <= 0)%Z (insert x l).
Proof.
  induction l as [|y l IH]; intros Hl; simpl.
  - repeat constructor.
  - destruct (compare y x <=? 0)%Z eqn:Hyx.
    + apply Z.leb_le in Hyx. inversion Hl as [|? ? Hl' Hhd]; subst.
      constructor; [now apply IH|].
      destruct l as [|z l]; simpl.
      * now constructor.
      * destruct (compare z x <=? 0)%Z; constructor; [|assumption].
        now inversion Hhd.
    + apply Z.leb_gt in Hyx. constructor; [assumption|]. constructor.
      destruct (compare_total x y); [assumption | lia].
Qed.

Lemma sort_Sorted l : Sorted (fun a b => compare a b <= 0)%Z (sort l).
Proof.
  unfold Files.sort.
  assert (H : forall acc, Sorted (fun a b => compare a b <= 0)%Z acc ->
              Sorted (fun a b => compare a b <= 0)%Z
                     (fold_left (fun acc x => insert x acc) l acc)).
  { induction l as [|x l IH]; intros acc Hacc; simpl; [assumption|].
    apply IH. now apply insert_Sorted. }
  apply H. constructor.
Qed.

Lemma sort_StronglySorted l :
  StronglySorted (fun a b => compare a b <= 0)%Z (sort l).
Proof.
  apply Sorted_StronglySorted; [|apply sort_Sorted].
  intros a b c. apply compare_trans.
Qed.

End TreeFacts.

(** C7.  [fs.stat] rejects on one entry, a link whose target is gone, met
    after the file [notes.md] and the folder [docs] and before [a.md].  The
    walk stops there and returns what it has pushed, as it is: the file
    stands before the folder, and [a.md], which passes the filter and is
    there, is not listed.  The sort is never reached, so the collation plays
    no part. *)
Theorem stat_failure_leaves_listing_unsorted
    (localeCompare : jsstring -> jsstring -> Z) :
  map (fun n => (title n, type n))
      (buildFileTree localeCompare notes_with_dangling_link (lit "/"))
  = [(lit "notes.md", file); (lit "docs", folder)]
  /\ filter keep
       (map (fun e : jsstring * bool * fsnode => fst (fst e))
            [regular "notes.md"; directory "docs" [regular "guide.md"];
             dangling "latest"; regular "a.md"])
     = [lit "notes.md"; lit "docs"; lit "latest"; lit "a.md"].
Proof. split; vm_compute; reflexivity. Qed.

(** What a listing holds.  At every level it has only names that pass the
    filter: none starts with ['.'] unless it is [.gitignore] or
    [.env.example], and none is [node_modules], [dist], [dist-electron],
    [build] or [release].  When the directory can be read and [fs.stat]
    succeeds on each entry that passes the filter, the listing holds exactly
    those entries, folders before files and, within each kind, in the order
    of the host's [localeCompare], whatever total preorder that is. *)
Theorem file_tree_filtered_and_sorted
    (localeCompare : jsstring -> jsstring -> Z) (here : fsnode)
    (relativePath : jsstring) :
  (forall a b, localeCompare a b <= 0 \/ localeCompare b a <= 0)%Z ->
  (forall a b c, localeCompare a b <= 0 -> localeCompare b c <= 0 ->
                 localeCompare a c <= 0)%Z ->
  Forall (fun n =>
            Forall (fun t =>
                      (startsWith t (lit ".") = true ->
                       t = lit ".gitignore" \/ t = lit ".env.example")
                      /\ ~ In t build_outputs)
                   (titles n))
         (buildFileTree localeCompare here relativePath)
  /\ (forall s entries,
        here = FsNode s (Some entries) ->
        Forall (fun e : jsstring * bool * fsnode =>
                  keep (fst (fst e)) = true -> stats_of (snd e) <> None)
               entries ->
        Permutation
          (map title (buildFileTree localeCompare here relativePath))
          (filter keep (map (fun e : jsstring * bool * fsnode => fst (fst e))
                            entries))
        /\ StronglySorted
             (fun a b =>
                (type a = folder /\ type b = file)
                \/ (type a = type b
                    /\ (localeCompare (title a) (title b) <= 0)%Z))
             (buildFileTree localeCompare here relativePath)).
Proof.
  intros Htotal Htrans. split.
  - eapply Forall_impl; [|apply buildFileTree_kept].
    intros n Hn. eapply Forall_impl; [|exact Hn].
    intros t Ht. now apply keep_spec.
  - intros s entries -> Hstats. simpl.
    match goal with
    | |- context [push_entries relativePath ?es []] =>
        destruct (push_entries_complete relativePath es) with (items := @nil FileNode)
          as [pushed [Hp Ht]]
    end.
    + apply Forall_forall. intros v Hv. apply filter_In in Hv as [Hv Hkeep].
      apply in_map_iff in Hv as [[[name isDir] below] [<- Hin]].
      rewrite Forall_forall in Hstats. apply (Hstats _ Hin). exact Hkeep.
    + rewrite Hp. simpl. split.
      * rewrite sort_Permutation, Ht.
        clear. induction entries as [|[[name isDir] below] entries IH]; simpl.
        -- constructor.
        -- destruct (keep name); simpl; [constructor|]; exact IH.
      * pose proof (sort_StronglySorted localeCompare Htotal Htrans pushed) as Hs.
        induction Hs as [|a l Hl IH Ha]; constructor; [assumption|].
        eapply Forall_impl; [|exact Ha].
        intros b Hab. now apply compare_le_spec.
Qed.

Lemma lex_compare_total (a b : jsstring) :
  (lex_compare a b <= 0 \/ lex_compare b a <= 0)%Z.
Proof.
  revert b; induction a as [|x a IH]; intros [|y b]; simpl; try lia.
  rewrite (N.compare_antisym x y).
  destruct (x ?= y)%N; simpl; try lia. apply IH.
Qed.

Lemma lex_compare_trans (a b c : jsstring) :
  (lex_compare a b <= 0 -> lex_compare b c <= 0 -> lex_compare a c <= 0)%Z.
Proof.
  revert b c; induction a as [|x a IH]; intros [|y b] [|z c]; simpl; try lia.
  destruct (x ?= y)%N eqn:Hxy; destruct (y ?= z)%N eqn:Hyz; try lia;
    try apply N.compare_eq_iff in Hxy; try apply N.compare_eq_iff in Hyz;
    subst; try rewrite Hxy; try rewrite Hyz; try lia.
  - rewrite N.compare_refl. apply IH.
  - intros _ _.
    rewrite N.compare_lt_iff in Hxy, Hyz.
    assert (H : (x < z)%N) by lia. apply N.compare_lt_iff in H. rewrite H. lia.
Qed.

Lemma file_tree_filtered_and_sorted_witness :
  map title (buildFileTree lex_compare example_directory (lit "/"))
  = [lit "a.md"; lit "b.txt"]
  /\ Permutation
       (map title (buildFileTree lex_compare example_directory (lit "/")))
       (filter keep [lit ".git"; lit "node_modules"; lit "b.txt"; lit "a.md"])
  /\ StronglySorted
       (fun a b =>
          (type a = folder /\ type b = file)
          \/ (type a = type b /\ (lex_compare (title a) (title b) <= 0)%Z))
       (buildFileTree lex_compare example_directory (lit "/")).
Proof.
  split; [vm_compute; reflexivity|].
  apply (proj2 (file_tree_filtered_and_sorted lex_compare example_directory
                  (lit "/") lex_compare_total lex_compare_trans)
               None _ eq_refl).
  repeat constructor; vm_compute; intros; discriminate.
Defined.

End FilesFacts.

(* ===================================================================== *)
(** * Properties of the scroll synchroniser *)
(* ===================================================================== *)

Module ScrollFacts.
Import ScrollSync.
Local Open Scope Q_scope.

Lemma Qgtb_true (a b : Q) : Qgtb a b = true <-> b < a.
Proof.
  unfold Qgtb. rewrite negb_true_iff. split.
  - intros H. apply Qnot_le_lt. intros Hle. apply Qle_bool_iff in Hle. congruence.
  - intros H. destruct (Qle_bool a b) eqn:Hle; [|reflexivity].
    apply Qle_bool_iff in Hle. exfalso. now apply (Qlt_not_le _ _ H).
Qed.

Lemma Qmax0_nonneg (x : Q) : 0 <= x -> Qmax0 x = x.
Proof. unfold Qmax0. intros H. apply Qle_bool_iff in H. now rewrite H. Qed.

Lemma Qmax0_neg (x : Q) : x < 0 -> Qmax0 x = 0.
Proof.
  unfold Qmax0. intros H. destruct (Qle_bool 0 x) eqn:Hle; [|reflexivity].
  apply Qle_bool_iff in Hle. exfalso. now apply (Qlt_not_le _ _ H).
Qed.



(** A surface takes the position it is sent when that lies in its range,
    and the nearest end of the range otherwise; its heights stay. *)
Lemma scrollToPosition_clamps (info : ScrollInfo) (target : Q) :
  let after := getScrollInfo (scrollToPosition (Some info) target) in
  let last := Qmax0 (ScrollSync.scrollHeight info - ScrollSync.clientHeight info) in
  ScrollSync.scrollHeight after = ScrollSync.scrollHeight info
  /\ ScrollSync.clientHeight after = ScrollSync.clientHeight info
  /\ 0 <= ScrollSync.scrollTop after <= last
  /\ (0 <= target <= last -> ScrollSync.scrollTop after = target)
  /\ (target < 0 -> ScrollSync.scrollTop after = 0)
  /\ (last < target -> ScrollSync.scrollTop after = last).
Proof.
  cbv zeta. cbn [scrollToPosition getScrollInfo ScrollSync.scrollHeight
                 ScrollSync.clientHeight ScrollSync.scrollTop].
  set (last := Qmax0 _).
  assert (Hlast : 0 <= last).
  { unfold last, Qmax0. destruct (Qle_bool 0 _) eqn:Hx.
    - now apply Qle_bool_iff. - apply Qle_refl. }
  split; [reflexivity|]. split; [reflexivity|].
  destruct (Qgtb 0 target) eqn:Hneg.
  - apply Qgtb_true in Hneg. repeat split.
    + apply Qle_refl.
    + assumption.
    + intros [H _]. exfalso. now apply (Qlt_not_le _ _ Hneg).
    + intros H. exfalso. apply (Qlt_irrefl target).
      eapply Qlt_le_trans; [exact Hneg|]. eapply Qle_trans; [exact Hlast|].
      now apply Qlt_le_weak.
  - assert (Hpos : 0 <= target).
    { unfold Qgtb in Hneg. apply negb_false_iff in Hneg.
      now apply Qle_bool_iff. }
    destruct (Qgtb target last) eqn:Hbig.
    + apply Qgtb_true in Hbig. repeat split.
      * assumption.
      * apply Qle_refl.
      * intros [_ H]. exfalso. now apply (Qlt_not_le _ _ Hbig).
      * intros H. exfalso. now apply (Qlt_not_le _ _ H).
    + assert (Hin : target <= last).
      { unfold Qgtb in Hbig. apply negb_false_iff in Hbig.
        now apply Qle_bool_iff. }
      repeat split; try assumption.
      * intros H. exfalso. now apply (Qlt_not_le _ _ H).
      * intros H. exfalso. now apply (Qlt_not_le _ _ H).
Qed.

(** C2.  The preview has just been scrolled by the user: the guard is set,
    the component has rendered with it, one command has gone to the editor.
    The editor's own scroll notification then arrives.  Its listener was
    registered at mount and still calls the handler of that render, whose
    [isScrollSyncing] is [false]: the event is not discarded and a second
    command goes out, back to the preview, inside the guard window. *)
Theorem editor_event_passes_the_guard :
  isScrollSyncing preview_scrolled = true
  /\ rendered preview_scrolled = true
  /\ timers preview_scrolled = [SetIsScrollSyncing false]
  /\ editorListener preview_scrolled = Some false
  /\ map fst (commands preview_scrolled) = [Editor]
  /\ map fst (commands (step preview_scrolled (EditorScroll 400 1000 200)))
     = [Editor; Renderer].
Proof. repeat split. Qed.

(** The preview's side of the guard works: its handler is the one of the
    last render, and once that render has seen the guard its events are
    discarded. *)
Lemma renderer_event_discarded (st : state) (scrollTop scrollHeight clientHeight : Q) :
  rendered st = true ->
  commands (step st (RendererScroll scrollTop scrollHeight clientHeight))
  = commands st
  /\ isScrollSyncing (step st (RendererScroll scrollTop scrollHeight clientHeight))
     = isScrollSyncing st
  /\ timers (step st (RendererScroll scrollTop scrollHeight clientHeight))
     = timers st.
Proof.
  intros H. unfold step, handleRendererScroll. rewrite H.
  destruct (editorRef st); repeat split.
Qed.

End ScrollFacts.

(* ===================================================================== *)
(** * Rounding of JavaScript numbers *)
(* ===================================================================== *)

Module NumberFacts.
Import Number.
Local Open Scope Z_scope.

(** ** Digits *)

Lemma digits2_size (p : positive) : digits2_pos p = Pos.size p.
Proof. induction p; simpl; congruence. Qed.

Lemma digits_bounds (p : positive) :
  2 ^ (Zpos (digits2_pos p) - 1) <= Zpos p < 2 ^ Zpos (digits2_pos p).
Proof.
  rewrite digits2_size. split.
  - pose proof (Pos.size_le p) as H.
    assert (H' : 2 ^ Zpos (Pos.size p) <= 2 * Zpos p).
    { rewrite <- Pos2Z.inj_pow. change (2 * Zpos p) with (Zpos p~0).
      apply Pos2Z.pos_le_pos. exact H. }
    replace (Zpos (Pos.size p)) with (Z.succ (Zpos (Pos.size p) - 1)) in H' by lia.
    rewrite Z.pow_succ_r in H' by lia. lia.
  - pose proof (Pos.size_gt p) as H.
    rewrite <- Pos2Z.inj_pow. apply Pos2Z.pos_lt_pos. exact H.
Qed.

Lemma digits_unique (p : positive) (d : Z) :
  2 ^ (d - 1) <= Zpos p < 2 ^ d -> 0 < d -> Zpos (digits2_pos p) = d.
Proof.
  intros [Hlo Hhi] Hd. pose proof (digits_bounds p) as [Hlo' Hhi'].
  destruct (Z.lt_trichotomy (Zpos (digits2_pos p)) d) as [H|[H|H]]; [|assumption|].
  - assert (2 ^ Zpos (digits2_pos p) <= 2 ^ (d - 1))
      by (apply Z.pow_le_mono_r; lia). lia.
  - assert (2 ^ d <= 2 ^ (Zpos (digits2_pos p) - 1))
      by (apply Z.pow_le_mono_r; lia). lia.
Qed.

(** ** Locations *)

Lemma inbetween_bounds m l A B :
  0 < B -> inbetween m l A B -> m * B <= A < (m + 1) * B.
Proof. destruct l as [|[]]; unfold inbetween; lia. Qed.

Lemma shr_1_located mrs A B :
  located mrs A B -> located (shr_1 mrs) A (2 * B).
Proof.
  destruct mrs as [m r s]. unfold located.
  cbn [shr_m loc_of_shr_record]. intros [Hm [HB Hin]].
  destruct m as [|p|p]; [| |lia].
  - destruct r, s; cbn [shr_1 shr_m loc_of_shr_record orb inbetween] in *; lia.
  - destruct p as [p|p|]; destruct r, s;
      cbn [shr_1 shr_m loc_of_shr_record orb inbetween] in *;
      try rewrite Pos2Z.inj_xI in *; try rewrite Pos2Z.inj_xO in *; lia.
Qed.

Lemma pow2_xI (n : positive) : 2 ^ Zpos n~1 = 2 ^ Zpos n * (2 ^ Zpos n * 2).
Proof.
  replace (Zpos n~1) with (Zpos n + Zpos n + 1) by lia.
  rewrite !Z.pow_add_r by lia. rewrite Z.pow_1_r. ring.
Qed.

Lemma pow2_xO (n : positive) : 2 ^ Zpos n~0 = 2 ^ Zpos n * 2 ^ Zpos n.
Proof.
  replace (Zpos n~0) with (Zpos n + Zpos n) by lia.
  now rewrite Z.pow_add_r by lia.
Qed.

Lemma iter_shr_located (n : positive) :
  forall mrs A B, located mrs A B ->
                  located (iter_pos shr_1 n mrs) A (2 ^ Zpos n * B).
Proof.
  induction n as [n IH|n IH|]; intros mrs A B H; simpl iter_pos.
  - apply shr_1_located in H. apply IH in H. apply IH in H.
    replace (2 ^ Zpos n~1 * B) with (2 ^ Zpos n * (2 ^ Zpos n * (2 * B)));
      [exact H|]. rewrite pow2_xI. ring.
  - apply IH in H. apply IH in H.
    replace (2 ^ Zpos n~0 * B) with (2 ^ Zpos n * (2 ^ Zpos n * B));
      [exact H|]. rewrite pow2_xO. ring.
  - apply shr_1_located in H. exact H.
Qed.

Lemma shr_located mrs e n A B :
  0 <= n -> located mrs A B ->
  located (fst (shr mrs e n)) A (2 ^ n * B) /\ snd (shr mrs e n) = e + n.
Proof.
  intros Hn H. destruct n as [|p|p]; [| |lia]; cbn [shr fst snd].
  - split; [|lia]. now replace (2 ^ 0 * B) with B by lia.
  - split; [|reflexivity]. now apply iter_shr_located.
Qed.

Lemma located_of_loc m l A B :
  0 <= m -> 0 < B -> inbetween m l A B -> located (shr_record_of_loc m l) A B.
Proof.
  intros Hm HB H. destruct l as [|[]]; repeat split; simpl; try assumption;
    simpl in H; tauto.
Qed.

Lemma round_nearest_even_near mrs A B :
  located mrs A B ->
  let z := round_nearest_even (shr_m mrs) (loc_of_shr_record mrs) in
  shr_m mrs <= z <= shr_m mrs + 1
  /\ 2 * Z.abs (z * B - A) <= B
  /\ (A = shr_m mrs * B -> z = shr_m mrs).
Proof.
  intros [Hm [HB Hin]]. cbv zeta.
  destruct (loc_of_shr_record mrs) as [|[]];
    cbn [round_nearest_even inbetween] in *.
  - lia.
  - destruct (Z.even (shr_m mrs)); lia.
  - lia.
  - lia.
Qed.

Lemma fexp_normal (e : Z) : -1074 <= e - 53 -> fexp 53 1024 e = e - 53.
Proof. intros H. unfold fexp, emin. lia. Qed.

Lemma Zdigits2_pos (z d : Z) :
  2 ^ (d - 1) <= z < 2 ^ d -> 0 < d -> Zdigits2 z = d.
Proof.
  intros H Hd. assert (0 < 2 ^ (d - 1)) by (apply Z.pow_pos_nonneg; lia).
  destruct z as [|p|p]; try lia. simpl. now apply digits_unique.
Qed.

Lemma Zdigits2_bounds (z : Z) :
  0 < z -> 2 ^ (Zdigits2 z - 1) <= z < 2 ^ Zdigits2 z.
Proof. destruct z as [|p|p]; try lia. intros _. apply digits_bounds. Qed.

(** Rounding a positive value [A / B * 2 ^ ex], given by its integer part
    [mx] and the place of the rest, when the result is a normal number. *)
Lemma round_aux_normal (sx : bool) (mx ex : Z) (lx : location) (A B : Z) :
  0 < mx -> 0 < B -> inbetween mx lx A B ->
  53 <= Zdigits2 mx -> -1074 <= Zdigits2 mx + ex - 53 ->
  Zdigits2 mx + ex <= 1023 ->
  exists z,
    2 ^ 52 <= z <= 2 ^ 53
    /\ 2 ^ 52 * (2 ^ (Zdigits2 mx - 53) * B) <= A
    /\ 2 * Z.abs (z * (2 ^ (Zdigits2 mx - 53) * B) - A)
       <= 2 ^ (Zdigits2 mx - 53) * B
    /\ (forall D, A <= D * (2 ^ (Zdigits2 mx - 53) * B) -> z <= D)
    /\ (forall D, D * (2 ^ (Zdigits2 mx - 53) * B) <= A -> D <= z)
    /\ binary_round_aux 53 1024 sx mx ex lx
       = if z <? 2 ^ 53
         then S754_finite sx (Z.to_pos z) (ex + (Zdigits2 mx - 53))
         else S754_finite sx (Z.to_pos (2 ^ 52)) (ex + (Zdigits2 mx - 53) + 1).
Proof.
  intros Hmx HB Hin Hd Hlo Hhi.
  set (d := Zdigits2 mx) in *. set (n := d - 53).
  assert (Hn : 0 <= n) by (unfold n; lia).
  pose proof (Zdigits2_bounds mx Hmx) as Hdig. fold d in Hdig.
  assert (Hp1 : 2 ^ d = 2 ^ 53 * 2 ^ n).
  { rewrite <- Z.pow_add_r by lia. f_equal. unfold n. lia. }
  assert (Hp2 : 2 ^ (d - 1) = 2 ^ 52 * 2 ^ n).
  { rewrite <- Z.pow_add_r by lia. f_equal. unfold n. lia. }
  assert (Hpn : 0 < 2 ^ n) by (apply Z.pow_pos_nonneg; lia).
  pose proof (inbetween_bounds mx lx A B HB Hin) as HA.
  unfold binary_round_aux, shr_fexp. fold d.
  rewrite (fexp_normal (d + ex)) by lia.
  replace (d + ex - 53 - ex) with n by (unfold n; lia).
  destruct (shr_located (shr_record_of_loc mx lx) ex n A B Hn
              (located_of_loc mx lx A B ltac:(lia) HB Hin)) as [Hloc He].
  destruct (shr (shr_record_of_loc mx lx) ex n) as [mrs' e'].
  cbn [fst snd] in Hloc, He. subst e'.
  pose proof (round_nearest_even_near mrs' A (2 ^ n * B) Hloc) as Hz.
  cbv zeta in Hz.
  set (z := round_nearest_even (shr_m mrs') (loc_of_shr_record mrs')) in *.
  destruct Hz as [Hz1 [Hz2 Hz3]].
  destruct Hloc as [Hm' [HB' Hin']].
  pose proof (inbetween_bounds _ _ A _ HB' Hin') as HA'.
  assert (Hm52 : 2 ^ 52 <= shr_m mrs' < 2 ^ 53) by nia.
  exists z. split; [lia|]. split; [nia|]. split; [exact Hz2|].
  split.
  { intros D HD. destruct (Z.eq_dec A (shr_m mrs' * (2 ^ n * B))) as [He|Hne].
    - rewrite (Hz3 He). nia.
    - assert (shr_m mrs' < D) by nia. lia. }
  split.
  { intros D HD. assert (D < shr_m mrs' + 1) by nia. lia. }
  destruct (z <? 2 ^ 53) eqn:Hlt.
  - apply Z.ltb_lt in Hlt.
    rewrite (Zdigits2_pos z 53) by (change (53 - 1) with 52; lia).
    rewrite (fexp_normal (53 + (ex + n))) by (unfold n; lia).
    replace (53 + (ex + n) - 53 - (ex + n)) with 0 by lia.
    cbn [shr shr_record_of_loc shr_m].
    destruct z as [|pz|pz]; try lia.
    replace (ex + n <=? 1024 - 53) with true
      by (symmetry; apply Z.leb_le; unfold n; lia).
    reflexivity.
  - apply Z.ltb_ge in Hlt. assert (Hz : z = 2 ^ 53) by lia.
    rewrite Hz.
    replace (Zdigits2 (2 ^ 53)) with 54 by reflexivity.
    rewrite (fexp_normal (54 + (ex + n))) by (unfold n; lia).
    replace (54 + (ex + n) - 53 - (ex + n)) with 1 by lia.
    cbn.
    replace (ex + n + 1 <=? 971) with true
      by (symmetry; apply Z.leb_le; unfold n; lia).
    reflexivity.
Qed.

(** ** Values *)

Local Open Scope Q_scope.

Lemma pow2_pos (e : Z) : 0 < 2 ^ e.
Proof. now apply Qpower_0_lt. Qed.

Lemma pow2_add (a b : Z) : 2 ^ (a + b) == 2 ^ a * 2 ^ b.
Proof. apply Qpower_plus. discriminate. Qed.

Lemma pow2_inject (n : Z) : (0 <= n)%Z -> inject_Z (2 ^ n) == 2 ^ n.
Proof. intros H. now rewrite Zpower_Qpower. Qed.

Lemma value_normal (m : positive) (e : Z) :
  value (S754_finite false m e) == inject_Z (Zpos m) * 2 ^ e.
Proof. unfold value. ring. Qed.

Lemma normal_in_inv lo hi x :
  normal_in lo hi x = true ->
  exists m e, x = S754_finite false m e
              /\ (2 ^ 52 <= Zpos m < 2 ^ 53)%Z /\ (lo <= e <= hi)%Z.
Proof.
  destruct x as [| | |[|] m e]; try discriminate. unfold normal_in, prec.
  rewrite !andb_true_iff, Z.eqb_eq, !Z.leb_le. intros [[Hd Hlo] Hhi].
  exists m, e. split; [reflexivity|]. split; [|lia].
  pose proof (digits_bounds m) as H. rewrite Hd in H. exact H.
Qed.

Lemma normal_in_positive lo hi x : normal_in lo hi x = true -> 0 < value x.
Proof.
  intros H. destruct (normal_in_inv lo hi x H) as [m [e [-> _]]].
  rewrite value_normal. apply Qmult_lt_0_compat; [reflexivity | apply pow2_pos].
Qed.

(** The value of what [round_aux_normal] returns. *)
Lemma rounded_value (z e : Z) :
  (2 ^ 52 <= z <= 2 ^ 53)%Z ->
  let r := if (z <? 2 ^ 53)%Z then S754_finite false (Z.to_pos z) e
           else S754_finite false (Z.to_pos (2 ^ 52)) (e + 1) in
  value r == inject_Z z * 2 ^ e /\ normal_in e (e + 1) r = true.
Proof.
  intros Hz. cbv zeta. destruct (z <? 2 ^ 53)%Z eqn:Hlt.
  - apply Z.ltb_lt in Hlt. rewrite value_normal, Z2Pos.id by lia.
    split; [reflexivity|]. unfold normal_in, prec.
    rewrite (digits_unique (Z.to_pos z) 53)
      by (rewrite ?Z2Pos.id by lia; change (53 - 1)%Z with 52%Z; lia).
    rewrite Z.eqb_refl. cbn [andb]. apply andb_true_iff.
    split; apply Z.leb_le; lia.
  - apply Z.ltb_ge in Hlt. assert (Hz' : z = (2 ^ 53)%Z) by lia. subst z.
    rewrite value_normal, pow2_add. split.
    + change (inject_Z (Zpos (Z.to_pos (2 ^ 52)))) with (inject_Z (2 ^ 52)).
      change (2 ^ 1) with 2.
      setoid_replace (inject_Z (2 ^ 53)) with (inject_Z (2 ^ 52) * 2)
        by reflexivity.
      ring.
    + unfold normal_in, prec. change (Zpos (digits2_pos (Z.to_pos (2 ^ 52)))) with 53%Z.
      rewrite Z.eqb_refl. cbn [andb]. apply andb_true_iff.
      split; apply Z.leb_le; lia.
Qed.

(** Rounding to nearest, within the normal range, is off by at most
    [unit_roundoff] times the exact value. *)
Lemma round_aux_error (mx ex : Z) (lx : location) (A B : Z) (x : Q) :
  (0 < mx)%Z -> (0 < B)%Z -> inbetween mx lx A B ->
  (53 <= Zdigits2 mx)%Z -> (-1074 <= Zdigits2 mx + ex - 53)%Z ->
  (Zdigits2 mx + ex <= 1023)%Z ->
  x == inject_Z A / inject_Z B * 2 ^ ex ->
  normal_in (Zdigits2 mx + ex - 53) (Zdigits2 mx + ex - 52)
            (binary_round_aux 53 1024 false mx ex lx) = true
  /\ Qabs (value (binary_round_aux 53 1024 false mx ex lx) - x)
     <= unit_roundoff * x.
Proof.
  intros Hmx HB Hin Hd Hlo Hhi Hx.
  destruct (round_aux_normal false mx ex lx A B Hmx HB Hin Hd Hlo Hhi)
    as [z [Hz [HA [Hnear [_ [_ ->]]]]]].
  set (n := (Zdigits2 mx - 53)%Z) in *.
  assert (Hn : (0 <= n)%Z) by (unfold n; lia).
  destruct (rounded_value z (ex + n) Hz) as [Hv Hnorm].
  split.
  - replace (Zdigits2 mx + ex - 53)%Z with (ex + n)%Z by (unfold n; lia).
    replace (Zdigits2 mx + ex - 52)%Z with (ex + n + 1)%Z by (unfold n; lia).
    exact Hnorm.
  - rewrite Hv, Hx, pow2_add, <- (pow2_inject n Hn).
    assert (Hb : 0 < inject_Z B)
      by (change 0 with (inject_Z 0); now rewrite <- Zlt_Qlt).
    assert (Hp : 0 < 2 ^ ex) by apply pow2_pos.
    set (c := 2 ^ ex / inject_Z B).
    assert (Hc : 0 < c).
    { unfold c. apply Qlt_shift_div_l; [assumption|]. now rewrite Qmult_0_l. }
    assert (H1 : inject_Z z * (2 ^ ex * inject_Z (2 ^ n))
                 - inject_Z A / inject_Z B * 2 ^ ex
                 == (inject_Z z * (inject_Z (2 ^ n) * inject_Z B) - inject_Z A) * c).
    { unfold c. field. intros H0. rewrite H0 in Hb. now apply (Qlt_irrefl 0). }
    assert (H2 : unit_roundoff * (inject_Z A / inject_Z B * 2 ^ ex)
                 == unit_roundoff * inject_Z A * c).
    { unfold c. field. intros H0. rewrite H0 in Hb. now apply (Qlt_irrefl 0). }
    rewrite H1, H2.
    assert (Hq1 : inject_Z (2 ^ 52) * (inject_Z (2 ^ n) * inject_Z B) <= inject_Z A).
    { rewrite <- !inject_Z_mult, <- Zle_Qle. exact HA. }
    assert (Hq2 : - (inject_Z (2 ^ n) * inject_Z B)
                  <= 2 * (inject_Z z * (inject_Z (2 ^ n) * inject_Z B) - inject_Z A)
                  <= inject_Z (2 ^ n) * inject_Z B).
    { change 2 with (inject_Z 2).
      unfold Qminus. rewrite <- !inject_Z_mult, <- !inject_Z_opp, <- !inject_Z_plus,
        <- !inject_Z_mult, <- !Zle_Qle. lia. }
    set (nb := inject_Z (2 ^ n) * inject_Z B) in *.
    set (a := inject_Z A) in *. set (zz := inject_Z z) in *.
    assert (H52 : inject_Z (2 ^ 52) == 4503599627370496) by reflexivity.
    rewrite H52 in Hq1.
    apply Qabs_Qle_condition. unfold unit_roundoff. split.
    + setoid_replace (- ((1 # 9007199254740992) * a * c))
        with ((- ((1 # 9007199254740992) * a)) * c) by ring.
      apply Qmult_le_compat_r; [lra | now apply Qlt_le_weak].
    + apply Qmult_le_compat_r; [lra | now apply Qlt_le_weak].
Qed.

(** Rounding to nearest does not step over a normal number: what is at most
    (at least) a representable [y] is rounded to at most (at least) [y]. *)
Lemma round_aux_monotone (mx ex : Z) (lx : location) (A B : Z) (x : Q)
    (my : positive) (ey : Z) :
  (0 < mx)%Z -> (0 < B)%Z -> inbetween mx lx A B ->
  (53 <= Zdigits2 mx)%Z -> (-1074 <= Zdigits2 mx + ex - 53)%Z ->
  (Zdigits2 mx + ex <= 1023)%Z ->
  x == inject_Z A / inject_Z B * 2 ^ ex ->
  (2 ^ 52 <= Zpos my < 2 ^ 53)%Z ->
  (x <= inject_Z (Zpos my) * 2 ^ ey ->
   value (binary_round_aux 53 1024 false mx ex lx) <= inject_Z (Zpos my) * 2 ^ ey)
  /\ (inject_Z (Zpos my) * 2 ^ ey <= x ->
      inject_Z (Zpos my) * 2 ^ ey <= value (binary_round_aux 53 1024 false mx ex lx)).
Proof.
  intros Hmx HB Hin Hd Hlo Hhi Hx Hmy.
  destruct (round_aux_normal false mx ex lx A B Hmx HB Hin Hd Hlo Hhi)
    as [z [Hz [HA [_ [Hup [Hdown ->]]]]]].
  set (n := (Zdigits2 mx - 53)%Z) in *.
  assert (Hn : (0 <= n)%Z) by (unfold n; lia).
  destruct (rounded_value z (ex + n) Hz) as [Hv _]. rewrite Hv. clear Hv.
  assert (Hb : 0 < inject_Z B)
    by (change 0 with (inject_Z 0); now rewrite <- Zlt_Qlt).
  set (c := 2 ^ ex / inject_Z B).
  assert (Hc : 0 < c).
  { unfold c. apply Qlt_shift_div_l; [assumption|].
    rewrite Qmult_0_l. apply pow2_pos. }
  assert (Hxc : x == inject_Z A * c).
  { rewrite Hx. unfold c. field.
    intros H0. rewrite H0 in Hb. now apply (Qlt_irrefl 0). }
  assert (Hgrid : forall D : Z,
            inject_Z D * 2 ^ (ex + n) == inject_Z (D * (2 ^ n * B)) * c).
  { intros D. rewrite pow2_add, <- (pow2_inject n Hn), !inject_Z_mult.
    unfold c. field. intros H0. rewrite H0 in Hb. now apply (Qlt_irrefl 0). }
  assert (Hlow : inject_Z (2 ^ 52) * 2 ^ (ex + n) <= x).
  { rewrite Hgrid, Hxc. apply Qmult_le_compat_r; [|now apply Qlt_le_weak].
    rewrite <- Zle_Qle. exact HA. }
  assert (Hzlow : inject_Z (2 ^ 52) * 2 ^ (ex + n) <= inject_Z z * 2 ^ (ex + n)).
  { apply Qmult_le_compat_r; [|apply Qlt_le_weak, pow2_pos].
    rewrite <- Zle_Qle. lia. }
  destruct (Z.le_gt_cases (ex + n) ey) as [Hcase|Hcase].
  - set (D := (Zpos my * 2 ^ (ey - (ex + n)))%Z).
    assert (Hy : inject_Z (Zpos my) * 2 ^ ey == inject_Z D * 2 ^ (ex + n)).
    { unfold D. rewrite inject_Z_mult, pow2_inject by lia.
      replace ey with ((ey - (ex + n)) + (ex + n))%Z at 1 by lia.
      rewrite pow2_add. ring. }
    rewrite Hy. split; intros H.
    + apply Qmult_le_compat_r; [|apply Qlt_le_weak, pow2_pos].
      rewrite <- Zle_Qle. apply Hup.
      rewrite Hgrid, Hxc in H. apply Qmult_le_r in H; [|assumption].
      now rewrite <- Zle_Qle in H.
    + apply Qmult_le_compat_r; [|apply Qlt_le_weak, pow2_pos].
      rewrite <- Zle_Qle. apply Hdown.
      rewrite Hgrid, Hxc in H. apply Qmult_le_r in H; [|assumption].
      now rewrite <- Zle_Qle in H.
  - assert (Hy : inject_Z (Zpos my) * 2 ^ ey < inject_Z (2 ^ 52) * 2 ^ (ex + n)).
    { apply Qlt_le_trans with (inject_Z (2 ^ 53) * 2 ^ ey).
      - apply Qmult_lt_compat_r; [apply pow2_pos|]. rewrite <- Zlt_Qlt. lia.
      - replace (ex + n)%Z with (1 + (ex + n - 1))%Z by lia.
        rewrite pow2_add.
        setoid_replace (inject_Z (2 ^ 52) * (2 ^ 1 * 2 ^ (ex + n - 1)))
          with (inject_Z (2 ^ 53) * 2 ^ (ex + n - 1))
          by (change (inject_Z (2 ^ 52)) with 4503599627370496;
              change (inject_Z (2 ^ 53)) with 9007199254740992;
              change (2 ^ 1) with 2; ring).
        apply Qmult_le_l; [reflexivity|].
        apply Qpower_le_compat_l; [lia | discriminate]. }
    split; intros H.
    + exfalso. apply (Qlt_irrefl x).
      eapply Qle_lt_trans; [exact H|]. eapply Qlt_le_trans; [exact Hy | exact Hlow].
    + apply Qlt_le_weak. eapply Qlt_le_trans; [exact Hy | exact Hzlow].
Qed.

(** ** Multiplication *)

Lemma mul_rounds (lo1 hi1 lo2 hi2 : Z) (x y : number) :
  normal_in lo1 hi1 x = true -> normal_in lo2 hi2 y = true ->
  (-1074 <= lo1 + lo2 + 52)%Z -> (hi1 + hi2 + 106 <= 1023)%Z ->
  normal_in (lo1 + lo2 + 52) (hi1 + hi2 + 54) (mul x y) = true
  /\ Qabs (value (mul x y) - value x * value y)
     <= unit_roundoff * (value x * value y)
  /\ (forall (m : positive) (e : Z),
        (2 ^ 52 <= Zpos m < 2 ^ 53)%Z ->
        (value x * value y <= inject_Z (Zpos m) * 2 ^ e ->
         value (mul x y) <= inject_Z (Zpos m) * 2 ^ e)
        /\ (inject_Z (Zpos m) * 2 ^ e <= value x * value y ->
            inject_Z (Zpos m) * 2 ^ e <= value (mul x y))).
Proof.
  intros Hx Hy Hlo Hhi.
  destruct (normal_in_inv _ _ _ Hx) as [mx [ex [-> [Hmx Hex]]]].
  destruct (normal_in_inv _ _ _ Hy) as [my [ey [-> [Hmy Hey]]]].
  unfold mul, prec, emax. cbn [SFmul xorb].
  assert (Hprod : (2 ^ 104 <= Zpos (mx * my) < 2 ^ 106)%Z).
  { rewrite Pos2Z.inj_mul.
    change (2 ^ 104)%Z with (2 ^ 52 * 2 ^ 52)%Z.
    change (2 ^ 106)%Z with (2 ^ 53 * 2 ^ 53)%Z. nia. }
  assert (Hd : Zdigits2 (Zpos (mx * my)) = 105%Z
               \/ Zdigits2 (Zpos (mx * my)) = 106%Z).
  { destruct (Z.lt_ge_cases (Zpos (mx * my)) (2 ^ 105)) as [H|H].
    - left. apply Zdigits2_pos; [|lia]. change (105 - 1)%Z with 104%Z. lia.
    - right. apply Zdigits2_pos; [|lia]. change (106 - 1)%Z with 105%Z. lia. }
  assert (Hexact : value (S754_finite false mx ex) * value (S754_finite false my ey)
                   == inject_Z (Zpos (mx * my)) / inject_Z 1 * 2 ^ (ex + ey)).
  { rewrite !value_normal, pow2_add, Pos2Z.inj_mul, inject_Z_mult.
    change (inject_Z 1) with 1. field. }
  assert (Hin : inbetween (Zpos (mx * my)) loc_Exact (Zpos (mx * my)) 1)
    by (unfold inbetween; lia).
  destruct (round_aux_error (Zpos (mx * my)) (ex + ey) loc_Exact
              (Zpos (mx * my)) 1 _ ltac:(lia) ltac:(lia) Hin ltac:(lia)
              ltac:(lia) ltac:(lia) Hexact) as [Hn He].
  split; [|split; [exact He|]].
  - destruct (normal_in_inv _ _ _ Hn) as [m [e [Hr [Hm He']]]].
    rewrite Hr. unfold normal_in, prec.
    rewrite (digits_unique m 53) by (change (53 - 1)%Z with 52%Z; lia).
    rewrite Z.eqb_refl. cbn [andb]. apply andb_true_iff.
    split; apply Z.leb_le; lia.
  - intros m e Hm.
    apply (round_aux_monotone (Zpos (mx * my)) (ex + ey) loc_Exact
             (Zpos (mx * my)) 1 _ m e ltac:(lia) ltac:(lia) Hin ltac:(lia)
             ltac:(lia) ltac:(lia) Hexact Hm).
Qed.

(** ** Division *)

Lemma new_location_spec (nb_steps k q : Z) :
  (0 <= k < nb_steps)%Z ->
  inbetween q (new_location nb_steps k) (q * nb_steps + k) nb_steps.
Proof.
  intros Hk. unfold new_location.
  destruct (Z.even nb_steps) eqn:Heven.
  - unfold new_location_even. destruct (k =? 0)%Z eqn:Hk0.
    + apply Z.eqb_eq in Hk0. unfold inbetween. lia.
    + apply Z.eqb_neq in Hk0.
      destruct (Z.compare_spec (2 * k) nb_steps); unfold inbetween; lia.
  - unfold new_location_odd. destruct (k =? 0)%Z eqn:Hk0.
    + apply Z.eqb_eq in Hk0. unfold inbetween. lia.
    + apply Z.eqb_neq in Hk0.
      assert (Hodd : Z.odd nb_steps = true)
        by (rewrite <- Z.negb_even, Heven; reflexivity).
      apply Z.odd_spec in Hodd as [c Hc].
      destruct (Z.compare_spec (2 * k + 1) nb_steps); unfold inbetween; lia.
Qed.

Lemma div_rounds (lo1 hi1 lo2 hi2 : Z) (x y : number) :
  normal_in lo1 hi1 x = true -> normal_in lo2 hi2 y = true ->
  (-1074 <= lo1 - hi2 - 53)%Z -> (hi1 - lo2 + 1 <= 1023)%Z ->
  normal_in (lo1 - hi2 - 53) (hi1 - lo2 - 51) (div x y) = true
  /\ Qabs (value (div x y) - value x / value y)
     <= unit_roundoff * (value x / value y)
  /\ (forall (m : positive) (e : Z),
        (2 ^ 52 <= Zpos m < 2 ^ 53)%Z ->
        (value x / value y <= inject_Z (Zpos m) * 2 ^ e ->
         value (div x y) <= inject_Z (Zpos m) * 2 ^ e)
        /\ (inject_Z (Zpos m) * 2 ^ e <= value x / value y ->
            inject_Z (Zpos m) * 2 ^ e <= value (div x y))).
Proof.
  intros Hx Hy Hlo Hhi.
  destruct (normal_in_inv _ _ _ Hx) as [mx [ex [-> [Hmx Hex]]]].
  destruct (normal_in_inv _ _ _ Hy) as [my [ey [-> [Hmy Hey]]]].
  assert (Hexact : value (S754_finite false mx ex) / value (S754_finite false my ey)
                   == inject_Z (Zpos mx * 2 ^ 53) / inject_Z (Zpos my)
                      * 2 ^ (ex - ey - 53)).
  { rewrite !value_normal, inject_Z_mult.
    replace (ex - ey - 53)%Z with (ex + (- ey + -53))%Z by lia.
    rewrite !pow2_add, !Qpower_opp.
    assert (Ha : ~ 2 ^ ey == 0) by (apply Qpower_not_0; discriminate).
    assert (Hb : ~ inject_Z (Zpos my) == 0) by discriminate.
    change (inject_Z (2 ^ 53)) with 9007199254740992.
    change (2 ^ (-53)) with (1 # 9007199254740992).
    generalize dependent (2 ^ ey). generalize (2 ^ ex).
    generalize dependent (inject_Z (Zpos my)). generalize (inject_Z (Zpos mx)).
    intros a b Hb pa pb Hpb. field. split; assumption. }
  revert Hexact.
  unfold div, prec, emax. cbn [SFdiv xorb]. unfold SFdiv_core_binary.
  cbn [Zdigits2].
  rewrite (digits_unique mx 53), (digits_unique my 53)
    by (change (53 - 1)%Z with 52%Z; lia).
  rewrite (fexp_normal (53 + ex - (53 + ey))) by lia.
  replace (Z.min (53 + ex - (53 + ey) - 53) (ex - ey))
    with (ex - ey - 53)%Z by lia.
  replace (ex - ey - (ex - ey - 53))%Z with 53%Z by lia.
  rewrite Z.shiftl_mul_pow2 by lia.
  pose proof (Z.div_eucl_eq (Zpos mx * 2 ^ 53) (Zpos my) ltac:(lia)) as Heq.
  pose proof (Z.mod_pos_bound (Zpos mx * 2 ^ 53) (Zpos my) ltac:(lia)) as Hmod.
  unfold Z.modulo in Hmod.
  destruct (Z.div_eucl (Zpos mx * 2 ^ 53) (Zpos my)) as [q r].
  intros Hexact.
  assert (Hq : (2 ^ 52 <= q < 2 ^ 54)%Z).
  { change (2 ^ 54)%Z with (2 * 2 ^ 53)%Z. change (2 ^ 53)%Z with (2 * 2 ^ 52)%Z in *.
    nia. }
  assert (Hd : Zdigits2 q = 53%Z \/ Zdigits2 q = 54%Z).
  { destruct (Z.lt_ge_cases q (2 ^ 53)) as [H|H].
    - left. apply Zdigits2_pos; [|lia]. change (53 - 1)%Z with 52%Z. lia.
    - right. apply Zdigits2_pos; [|lia]. change (54 - 1)%Z with 53%Z. lia. }
  assert (Hin : inbetween q (new_location (Zpos my) r)
                          (Zpos mx * 2 ^ 53) (Zpos my)).
  { rewrite Heq, (Z.mul_comm (Zpos my) q). apply new_location_spec. exact Hmod. }
  destruct (round_aux_error q (ex - ey - 53) (new_location (Zpos my) r)
              (Zpos mx * 2 ^ 53) (Zpos my) _ ltac:(lia) ltac:(lia) Hin ltac:(lia)
              ltac:(lia) ltac:(lia) Hexact) as [Hn He].
  split; [|split; [exact He|]].
  - destruct (normal_in_inv _ _ _ Hn) as [m [e [Hr [Hm He']]]].
    rewrite Hr. unfold normal_in, prec.
    rewrite (digits_unique m 53) by (change (53 - 1)%Z with 52%Z; lia).
    rewrite Z.eqb_refl. cbn [andb]. apply andb_true_iff.
    split; apply Z.leb_le; lia.
  - intros m e Hm.
    apply (round_aux_monotone q (ex - ey - 53) (new_location (Zpos my) r)
             (Zpos mx * 2 ^ 53) (Zpos my) _ m e ltac:(lia) ltac:(lia) Hin
             ltac:(lia) ltac:(lia) ltac:(lia) Hexact Hm).
Qed.

End NumberFacts.

(* ===================================================================== *)
(** * Comparison and subtraction of JavaScript numbers *)
(* ===================================================================== *)

Module DifferenceFacts.
Import Number NumberFacts.
Local Open Scope Z_scope.

(** ** Comparison *)

Lemma normal_lt_exponent (m1 m2 : positive) (e1 e2 : Z) :
  2 ^ 52 <= Zpos m1 < 2 ^ 53 -> 2 ^ 52 <= Zpos m2 < 2 ^ 53 -> e1 < e2 ->
  (inject_Z (Zpos m1) * 2 ^ e1 < inject_Z (Zpos m2) * 2 ^ e2)%Q.
Proof.
  intros H1 H2 He.
  apply Qlt_le_trans with (inject_Z (2 ^ 53) * 2 ^ e1)%Q.
  - apply Qmult_lt_compat_r; [apply pow2_pos|]. rewrite <- Zlt_Qlt. lia.
  - apply Qle_trans with (inject_Z (2 ^ 52) * 2 ^ e2)%Q.
    + replace e2 with (1 + (e2 - 1)) by lia. rewrite pow2_add.
      setoid_replace (inject_Z (2 ^ 52) * (2 ^ 1 * 2 ^ (e2 - 1)))%Q
        with (inject_Z (2 ^ 53) * 2 ^ (e2 - 1))%Q
        by (change (inject_Z (2 ^ 52)) with 4503599627370496%Q;
            change (inject_Z (2 ^ 53)) with 9007199254740992%Q;
            change (2 ^ 1)%Q with 2%Q; ring).
      apply Qmult_le_l; [reflexivity|].
      apply Qpower_le_compat_l; [lia | discriminate].
    + apply Qmult_le_compat_r; [|apply Qlt_le_weak, pow2_pos].
      rewrite <- Zle_Qle. lia.
Qed.

(** On normal numbers [>] is the order of the values. *)
Lemma gt_spec (lo1 hi1 lo2 hi2 : Z) (x y : number) :
  normal_in lo1 hi1 x = true -> normal_in lo2 hi2 y = true ->
  (gt x y = true <-> (value y < value x)%Q).
Proof.
  intros Hx Hy.
  destruct (normal_in_inv _ _ _ Hx) as [mx [ex [-> [Hmx _]]]].
  destruct (normal_in_inv _ _ _ Hy) as [my [ey [-> [Hmy _]]]].
  rewrite !value_normal. unfold gt, SFltb. cbn [SFcompare].
  destruct (Z.compare_spec ey ex) as [He|He|He].
  - subst ey. change (Pos.compare_cont Eq my mx) with (my ?= mx)%positive.
    destruct (Pos.compare_spec my mx) as [Hm|Hm|Hm].
    + subst. split; [discriminate|]. intros H. now apply Qlt_irrefl in H.
    + split; [intros _|reflexivity].
      apply Qmult_lt_compat_r; [apply pow2_pos|]. rewrite <- Zlt_Qlt. lia.
    + split; [discriminate|]. intros H. exfalso.
      apply (Qlt_irrefl (inject_Z (Zpos my) * 2 ^ ex)%Q).
      eapply Qlt_trans; [exact H|].
      apply Qmult_lt_compat_r; [apply pow2_pos|]. rewrite <- Zlt_Qlt. lia.
  - split; [intros _|reflexivity]. now apply normal_lt_exponent.
  - split; [discriminate|]. intros H. exfalso.
    apply (Qlt_irrefl (inject_Z (Zpos my) * 2 ^ ey)%Q).
    eapply Qlt_trans; [exact H|]. now apply normal_lt_exponent.
Qed.

(** ** Subtraction *)

Lemma iter_xO (m d : positive) :
  Zpos (Pos.iter xO m d) = Zpos m * 2 ^ Zpos d.
Proof.
  induction d as [|d IH] using Pos.peano_ind.
  - cbn [Pos.iter]. change (2 ^ 1) with 2. lia.
  - rewrite Pos.iter_succ, Pos2Z.inj_xO, IH, Pos2Z.inj_succ, Z.pow_succ_r by lia.
    ring.
Qed.

Lemma shl_align_down (m : positive) (e e' : Z) :
  e' <= e ->
  Zpos (fst (shl_align m e e')) = Zpos m * 2 ^ (e - e')
  /\ snd (shl_align m e e') = e'.
Proof.
  intros H. unfold shl_align.
  destruct (e' - e) as [|d|d] eqn:Hd; [| lia |]; cbn [fst snd].
  - replace (e - e') with 0 by lia. split; lia.
  - rewrite iter_xO. replace (e - e') with (Zpos d) by lia. split; reflexivity.
Qed.

Lemma shl_align_up (m : positive) (e e' : Z) :
  e <= e' -> shl_align m e e' = (m, e).
Proof.
  intros H. unfold shl_align. destruct (e' - e) as [|d|d] eqn:Hd; try reflexivity.
  lia.
Qed.

(** [binary_round] brings the mantissa to 53 digits at least before it
    rounds. *)
Lemma binary_round_aligned (sx : bool) (m : positive) (e : Z) :
  -1074 <= Zpos (digits2_pos m) + e - 53 ->
  exists (mz : positive) (ez : Z),
    binary_round 53 1024 sx m e
    = binary_round_aux 53 1024 sx (Zpos mz) ez loc_Exact
    /\ (inject_Z (Zpos mz) * 2 ^ ez == inject_Z (Zpos m) * 2 ^ e)%Q
    /\ 53 <= Zpos (digits2_pos mz)
    /\ Zpos (digits2_pos mz) + ez = Zpos (digits2_pos m) + e.
Proof.
  intros Hlo. unfold binary_round.
  rewrite (fexp_normal (Zpos (digits2_pos m) + e)) by lia.
  set (d := Zpos (digits2_pos m)) in *.
  pose proof (digits_bounds m) as Hd. fold d in Hd.
  destruct (Z.le_gt_cases d 53) as [Hcase|Hcase].
  - destruct (shl_align_down m e (d + e - 53) ltac:(lia)) as [Hm He].
    destruct (shl_align m e (d + e - 53)) as [mz ez]. cbn [fst snd] in Hm, He.
    subst ez. replace (e - (d + e - 53)) with (53 - d) in Hm by lia.
    exists mz, (d + e - 53). split; [reflexivity|].
    assert (Hdig : Zpos (digits2_pos mz) = 53).
    { assert (E1 : 2 ^ 52 = 2 ^ (d - 1) * 2 ^ (53 - d)).
      { rewrite <- Z.pow_add_r by lia. f_equal. lia. }
      assert (E2 : 2 ^ 53 = 2 ^ d * 2 ^ (53 - d)).
      { rewrite <- Z.pow_add_r by lia. f_equal. lia. }
      assert (0 < 2 ^ (53 - d)) by (apply Z.pow_pos_nonneg; lia).
      apply digits_unique; [|lia]. change (53 - 1) with 52.
      rewrite Hm, E1, E2. split; nia. }
    split; [|lia].
    rewrite Hm, inject_Z_mult, pow2_inject by lia.
    replace e with ((53 - d) + (d + e - 53)) at 2 by lia.
    rewrite pow2_add. ring.
  - rewrite (shl_align_up m e (d + e - 53)) by lia.
    exists m, e. split; [reflexivity|]. split; [reflexivity|]. fold d. lia.
Qed.

(** The aligned difference of two normal numbers. *)
Lemma aligned_difference (mx my : positive) (ex ey : Z) :
  let ez := Z.min ex ey in
  (inject_Z (Zpos (fst (shl_align mx ex ez)) - Zpos (fst (shl_align my ey ez)))
   * 2 ^ ez
   == inject_Z (Zpos mx) * 2 ^ ex - inject_Z (Zpos my) * 2 ^ ey)%Q.
Proof.
  cbv zeta. set (ez := Z.min ex ey).
  destruct (shl_align_down mx ex ez ltac:(lia)) as [-> _].
  destruct (shl_align_down my ey ez ltac:(lia)) as [-> _].
  assert (Hx : (2 ^ ex == 2 ^ (ex - ez) * 2 ^ ez)%Q).
  { rewrite <- pow2_add. now replace (ex - ez + ez) with ex by lia. }
  assert (Hy : (2 ^ ey == 2 ^ (ey - ez) * 2 ^ ez)%Q).
  { rewrite <- pow2_add. now replace (ey - ez + ez) with ey by lia. }
  unfold Z.sub at 1. rewrite inject_Z_plus, inject_Z_opp, !inject_Z_mult.
  rewrite !pow2_inject by lia. rewrite Hx, Hy. ring.
Qed.

Lemma aligned_bound (m : positive) (e ez : Z) :
  2 ^ 52 <= Zpos m < 2 ^ 53 -> ez <= e ->
  Zpos (fst (shl_align m e ez)) < 2 ^ (53 + (e - ez)).
Proof.
  intros Hm He. destruct (shl_align_down m e ez He) as [-> _].
  rewrite Z.pow_add_r by lia.
  assert (0 < 2 ^ (e - ez)) by (apply Z.pow_pos_nonneg; lia). nia.
Qed.

Lemma digits_below (p : positive) (k : Z) :
  Zpos p < 2 ^ k -> 0 <= k -> Zpos (digits2_pos p) <= k.
Proof.
  intros H Hk. pose proof (digits_bounds p) as [Hlo _].
  destruct (Z.le_gt_cases (Zpos (digits2_pos p)) k) as [|Hgt]; [assumption|].
  assert (2 ^ k <= 2 ^ (Zpos (digits2_pos p) - 1))
    by (apply Z.pow_le_mono_r; lia). lia.
Qed.

Lemma sign_of_scaled (M ez : Z) (q : Q) :
  (inject_Z M * 2 ^ ez == q)%Q ->
  ((0 < q)%Q -> 0 < M) /\ ((q <= 0)%Q -> M <= 0).
Proof.
  intros H. pose proof (pow2_pos ez) as Hp. split; intros Hq.
  - destruct (Z.lt_ge_cases 0 M) as [|Hle]; [assumption|]. exfalso.
    assert (H0 : (inject_Z M * 2 ^ ez <= 0)%Q).
    { setoid_replace 0%Q with (0 * 2 ^ ez)%Q by ring.
      apply Qmult_le_compat_r; [|now apply Qlt_le_weak].
      change 0%Q with (inject_Z 0). rewrite <- Zle_Qle. lia. }
    rewrite H in H0. apply (Qlt_irrefl 0%Q). eapply Qlt_le_trans; eassumption.
  - destruct (Z.le_gt_cases M 0) as [|Hgt]; [assumption|]. exfalso.
    assert (H0 : (0 < inject_Z M * 2 ^ ez)%Q).
    { apply Qmult_lt_0_compat; [|assumption].
      change 0%Q with (inject_Z 0). rewrite <- Zlt_Qlt. lia. }
    rewrite H in H0. apply (Qlt_irrefl 0%Q). eapply Qlt_le_trans; eassumption.
Qed.

(** The difference of two normal numbers, the larger first: rounded once. *)
Lemma sub_rounds (lo hi : Z) (x y : number) :
  normal_in lo hi x = true -> normal_in lo hi y = true ->
  -1022 <= lo -> hi <= 970 -> (value y < value x)%Q ->
  normal_in (lo - 52) (hi + 1) (sub x y) = true
  /\ (Qabs (value (sub x y) - (value x - value y))
      <= unit_roundoff * (value x - value y))%Q
  /\ (forall (m : positive) (e : Z),
        2 ^ 52 <= Zpos m < 2 ^ 53 ->
        ((value x - value y <= inject_Z (Zpos m) * 2 ^ e)%Q ->
         (value (sub x y) <= inject_Z (Zpos m) * 2 ^ e)%Q)
        /\ ((inject_Z (Zpos m) * 2 ^ e <= value x - value y)%Q ->
            (inject_Z (Zpos m) * 2 ^ e <= value (sub x y))%Q)).
Proof.
  intros Hx Hy Hlo Hhi Hlt.
  destruct (normal_in_inv _ _ _ Hx) as [mx [ex [-> [Hmx Hex]]]].
  destruct (normal_in_inv _ _ _ Hy) as [my [ey [-> [Hmy Hey]]]].
  pose proof (aligned_difference mx my ex ey) as Hdiff. cbv zeta in Hdiff.
  rewrite <- !value_normal in Hdiff.
  revert Hdiff.
  unfold sub, prec, emax. cbn [SFsub cond_Zopp].
  set (ez := Z.min ex ey).
  pose proof (aligned_bound mx ex ez Hmx ltac:(lia)) as Hbx.
  set (M := Zpos (fst (shl_align mx ex ez)) - Zpos (fst (shl_align my ey ez))).
  intros Hdiff.
  assert (HM : 0 < M).
  { apply (sign_of_scaled M ez _ Hdiff).
    apply (Qplus_lt_l _ _ (value (S754_finite false my ey))).
    ring_simplify. exact Hlt. }
  destruct M as [|pM|pM] eqn:HeqM; try lia. cbn [binary_normalize].
  assert (HdM : Zpos (digits2_pos pM) <= 53 + (ex - ez)).
  { apply digits_below; [|lia]. unfold M in HeqM. lia. }
  destruct (binary_round_aligned false pM ez ltac:(lia))
    as [mz [ez' [-> [Hval [Hdz Hsum]]]]].
  assert (Hexact : (value (S754_finite false mx ex) - value (S754_finite false my ey)
                    == inject_Z (Zpos mz) / inject_Z 1 * 2 ^ ez')%Q).
  { rewrite <- Hdiff, <- Hval. change (inject_Z 1) with 1%Q. field. }
  assert (Hin : inbetween (Zpos mz) loc_Exact (Zpos mz) 1)
    by (unfold inbetween; lia).
  destruct (round_aux_error (Zpos mz) ez' loc_Exact (Zpos mz) 1 _
              ltac:(lia) ltac:(lia) Hin ltac:(cbn [Zdigits2]; lia)
              ltac:(cbn [Zdigits2]; lia) ltac:(cbn [Zdigits2]; lia) Hexact)
    as [Hn He].
  split; [|split; [exact He|]].
  - destruct (normal_in_inv _ _ _ Hn) as [m [e [Hr [Hm He']]]].
    rewrite Hr. unfold normal_in, prec. cbn [Zdigits2] in He'.
    pose proof (Pos2Z.is_pos (digits2_pos pM)).
    rewrite (digits_unique m 53) by (change (53 - 1) with 52; lia).
    rewrite Z.eqb_refl. cbn [andb]. apply andb_true_iff.
    split; apply Z.leb_le; lia.
  - intros m e Hm.
    apply (round_aux_monotone (Zpos mz) ez' loc_Exact (Zpos mz) 1 _ m e
             ltac:(lia) ltac:(lia) Hin ltac:(cbn [Zdigits2]; lia)
             ltac:(cbn [Zdigits2]; lia) ltac:(cbn [Zdigits2]; lia) Hexact Hm).
Qed.

(** The difference of two normal numbers, the smaller first, is [+0] or
    negative: [Math.max(0, .)] of it is [+0]. *)
Lemma sub_nonpositive (lo hi : Z) (x y : number) :
  normal_in lo hi x = true -> normal_in lo hi y = true ->
  -1022 <= lo -> hi <= 970 -> (value x <= value y)%Q ->
  max zero (sub x y) = zero.
Proof.
  intros Hx Hy Hlo Hhi Hle.
  destruct (normal_in_inv _ _ _ Hx) as [mx [ex [-> [Hmx Hex]]]].
  destruct (normal_in_inv _ _ _ Hy) as [my [ey [-> [Hmy Hey]]]].
  pose proof (aligned_difference mx my ex ey) as Hdiff. cbv zeta in Hdiff.
  rewrite <- !value_normal in Hdiff.
  revert Hdiff.
  unfold sub, prec, emax. cbn [SFsub cond_Zopp].
  set (ez := Z.min ex ey).
  pose proof (aligned_bound my ey ez Hmy ltac:(lia)) as Hby.
  set (M := Zpos (fst (shl_align mx ex ez)) - Zpos (fst (shl_align my ey ez))).
  intros Hdiff.
  assert (HM : M <= 0).
  { apply (sign_of_scaled M ez _ Hdiff).
    apply (Qplus_le_l _ _ (value (S754_finite false my ey))).
    ring_simplify. exact Hle. }
  destruct M as [|pM|pM] eqn:HeqM; try lia; cbn [binary_normalize].
  - reflexivity.
  - assert (HdM : Zpos (digits2_pos pM) <= 53 + (ey - ez)).
    { apply digits_below; [|lia]. unfold M in HeqM. lia. }
    pose proof (Pos2Z.is_pos (digits2_pos pM)).
    destruct (binary_round_aligned true pM ez ltac:(lia))
      as [mz [ez' [-> [_ [Hdz Hsum]]]]].
    assert (Hin : inbetween (Zpos mz) loc_Exact (Zpos mz) 1)
      by (unfold inbetween; lia).
    destruct (round_aux_normal true (Zpos mz) ez' loc_Exact (Zpos mz) 1
                ltac:(lia) ltac:(lia) Hin ltac:(cbn [Zdigits2]; lia)
                ltac:(cbn [Zdigits2]; lia) ltac:(cbn [Zdigits2]; lia))
      as [z [_ [_ [_ [_ [_ ->]]]]]].
    destruct (z <? 2 ^ 53); reflexivity.
Qed.

End DifferenceFacts.

(* ===================================================================== *)
(** * The arithmetic of the scroll handlers *)
(* ===================================================================== *)

Module ScrollDoubleFacts.
Import Number NumberFacts DifferenceFacts ScrollDouble.
Local Open Scope Q_scope.

(** The handlers here and those of [ScrollSync] go the same way: they
    return at once, or set the guard, command the same surface and arm the
    same timer. *)
Lemma same_control_flow (isScrollSyncing : bool) (other : option handle)
    (other' : option ScrollSync.handle)
    (scrollTop scrollHeight clientHeight : number)
    (scrollTop' scrollHeight' clientHeight' : Q) :
  (other = None <-> other' = None) ->
  Forall2 agrees
    (handleEditorScroll isScrollSyncing other scrollTop scrollHeight clientHeight)
    (ScrollSync.handleEditorScroll isScrollSyncing other'
       scrollTop' scrollHeight' clientHeight')
  /\ Forall2 agrees
       (handleRendererScroll isScrollSyncing other
          scrollTop scrollHeight clientHeight)
       (ScrollSync.handleRendererScroll isScrollSyncing other'
          scrollTop' scrollHeight' clientHeight').
Proof.
  intros Hsame.
  unfold handleEditorScroll, handleRendererScroll,
    ScrollSync.handleEditorScroll, ScrollSync.handleRendererScroll.
  destruct isScrollSyncing; [split; constructor|].
  destruct other as [h|], other' as [h'|].
  - split; repeat constructor.
  - destruct Hsame as [_ H]. discriminate (H eq_refl).
  - destruct Hsame as [H _]. discriminate (H eq_refl).
  - split; constructor.
Qed.

(** [Math.max(0, x)] of a number that is not NaN or infinite. *)
Lemma max_zero_finite (x : number) :
  finite x = true ->
  max zero x = zero \/ exists m e, max zero x = S754_finite false m e.
Proof.
  destruct x as [[|]|[|]| |[|] m e]; try discriminate; intros _;
    try (now left). right. now exists m, e.
Qed.

Lemma one_is_normal : inject_Z (Zpos 4503599627370496) * 2 ^ (-52) == 1.
Proof. reflexivity. Qed.

Lemma pixels_inv (x : number) :
  pixels x = true -> x = zero \/ moderate x = true.
Proof. destruct x as [[|]| | |]; try discriminate; auto. Qed.

Lemma normal_in_weaken (lo hi lo' hi' : Z) (x : number) :
  normal_in lo hi x = true -> (lo' <= lo)%Z -> (hi <= hi')%Z ->
  normal_in lo' hi' x = true.
Proof.
  destruct x as [| | |[|] m e]; try discriminate. unfold normal_in.
  rewrite !andb_true_iff, !Z.leb_le. intros [[Hd Hlo] Hhi] H1 H2.
  repeat split; try assumption; lia.
Qed.

(** The scrolling range of a surface, [scrollHeight - clientHeight] as the
    code computes it, for heights in pixels. *)
Lemma range_spec (scrollHeight clientHeight : number) :
  pixels scrollHeight = true -> pixels clientHeight = true ->
  (value scrollHeight <= value clientHeight ->
   gt scrollHeight clientHeight = false
   /\ max zero (sub scrollHeight clientHeight) = zero)
  /\ (value clientHeight < value scrollHeight ->
      gt scrollHeight clientHeight = true
      /\ normal_in (-352) 301 (sub scrollHeight clientHeight) = true
      /\ Qabs (value (sub scrollHeight clientHeight)
               - (value scrollHeight - value clientHeight))
         <= unit_roundoff * (value scrollHeight - value clientHeight)
      /\ (forall (m : positive) (e : Z),
            (2 ^ 52 <= Zpos m < 2 ^ 53)%Z ->
            (value scrollHeight - value clientHeight <= inject_Z (Zpos m) * 2 ^ e ->
             value (sub scrollHeight clientHeight) <= inject_Z (Zpos m) * 2 ^ e)
            /\ (inject_Z (Zpos m) * 2 ^ e <= value scrollHeight - value clientHeight ->
                inject_Z (Zpos m) * 2 ^ e <= value (sub scrollHeight clientHeight)))).
Proof.
  intros Hh Hc.
  destruct (pixels_inv _ Hh) as [-> | Hh']; destruct (pixels_inv _ Hc) as [-> | Hc'].
  - split; [intros _; split; reflexivity|].
    intros H. now apply Qlt_irrefl in H.
  - pose proof (normal_in_positive _ _ _ Hc') as Hpos.
    destruct (normal_in_inv _ _ _ Hc') as [m [e [-> _]]].
    split; [intros _; split; reflexivity|].
    intros H. exfalso. apply (Qlt_irrefl 0). eapply Qlt_trans; eassumption.
  - pose proof (normal_in_positive _ _ _ Hh') as Hpos.
    destruct (normal_in_inv _ _ _ Hh') as [m [e [Hr _]]].
    split.
    + intros H. exfalso. apply (Qlt_irrefl 0). eapply Qlt_le_trans; eassumption.
    + intros _.
      assert (Hsub : sub scrollHeight zero = scrollHeight) by (rewrite Hr; reflexivity).
      rewrite Hsub. change (value zero) with 0.
      split; [rewrite Hr; reflexivity|].
      split; [apply (normal_in_weaken _ _ _ _ _ Hh'); lia|].
      split.
      * setoid_replace (value scrollHeight - (value scrollHeight - 0)) with 0 by ring.
        change (Qabs 0) with 0. unfold unit_roundoff. lra.
      * intros m' e' _. split; intros H; lra.
  - pose proof (gt_spec _ _ _ _ scrollHeight clientHeight Hh' Hc') as Hgt.
    split.
    + intros Hle. split.
      * destruct (gt scrollHeight clientHeight); [|reflexivity].
        exfalso. apply (Qlt_irrefl (value clientHeight)).
        eapply Qlt_le_trans; [apply Hgt; reflexivity | exact Hle].
      * apply (sub_nonpositive (-300) 300); try assumption; lia.
    + intros Hlt. split; [now apply Hgt|].
      destruct (sub_rounds (-300) 300 scrollHeight clientHeight Hh' Hc'
                  ltac:(lia) ltac:(lia) Hlt) as [Hn [He Hm]].
      split; [exact Hn|]. split; [exact He | exact Hm].
Qed.

(** Four roundings, of the two differences, the quotient and the product,
    move a share by less than five units. *)
Lemma four_roundings (s a b m d r t : Q) :
  0 < s -> 0 < a -> 0 < b ->
  Qabs (m - a) <= unit_roundoff * a ->
  Qabs (d - b) <= unit_roundoff * b ->
  Qabs (r - s / m) <= unit_roundoff * (s / m) ->
  Qabs (t - r * d) <= unit_roundoff * (r * d) ->
  Qabs (t / b - s / a) <= 5 * unit_roundoff * (s / a).
Proof.
  intros Hs Ha Hb Hm Hd Hr Ht.
  apply Qabs_Qle_condition in Hm. apply Qabs_Qle_condition in Hd.
  apply Qabs_Qle_condition in Hr. apply Qabs_Qle_condition in Ht.
  unfold unit_roundoff in *.
  set (u := 1 # 9007199254740992) in *.
  assert (Hu : 0 < u) by reflexivity.
  assert (Hu1 : u < 1 # 1000) by reflexivity.
  assert (Hmpos : 0 < m) by nra.
  assert (Hdpos : 0 < d) by nra.
  set (f := s / m) in *.
  assert (Hf : f * m == s).
  { unfold f. field. intros H0. rewrite H0 in Hmpos. now apply (Qlt_irrefl 0). }
  assert (Hfpos : 0 < f).
  { unfold f. apply Qlt_shift_div_l; [assumption|]. now rewrite Qmult_0_l. }
  set (g := s / a).
  assert (Hg : g * a == s).
  { unfold g. field. intros H0. rewrite H0 in Ha. now apply (Qlt_irrefl 0). }
  assert (Hgpos : 0 < g).
  { unfold g. apply Qlt_shift_div_l; [assumption|]. now rewrite Qmult_0_l. }
  set (T := t / b).
  assert (HT : T * b == t).
  { unfold T. field. intros H0. rewrite H0 in Hb. now apply (Qlt_irrefl 0). }
  assert (Hrpos : 0 < r) by nra.
  (* shares of the ranges *)
  assert (Hf1 : (1 - u) * f <= g /\ g <= (1 + u) * f).
  { split.
    - apply (Qmult_le_r _ _ a Ha). rewrite Hg, <- Hf. nra.
    - apply (Qmult_le_r _ _ a Ha). rewrite Hg, <- Hf. nra. }
  assert (Ht1 : (1 - u) * ((1 - u) * f) * ((1 - u) * b) <= t
                /\ t <= (1 + u) * ((1 + u) * f) * ((1 + u) * b)).
  { split.
    - apply Qle_trans with ((1 - u) * (r * d)); [|lra].
      assert (H1 : (1 - u) * f * ((1 - u) * b) <= r * d).
      { apply Qle_trans with (r * ((1 - u) * b)).
        - apply Qmult_le_compat_r; [lra | nra].
        - apply Qmult_le_l; [assumption | lra]. }
      nra.
    - apply Qle_trans with ((1 + u) * (r * d)); [lra|].
      assert (H1 : r * d <= (1 + u) * f * ((1 + u) * b)).
      { apply Qle_trans with (r * ((1 + u) * b)).
        - apply Qmult_le_l; [assumption | lra].
        - apply Qmult_le_compat_r; [lra | nra]. }
      nra. }
  apply Qabs_Qle_condition. fold T. fold g.
  assert (Hfb : 0 < f * b) by (apply Qmult_lt_0_compat; assumption).
  assert (Hgb : 0 < g * b) by (apply Qmult_lt_0_compat; assumption).
  split.
  - apply (Qmult_le_r _ _ b Hb).
    setoid_replace ((T - g) * b) with (t - g * b) by (rewrite <- HT; ring).
    assert (H1 : (1 - u) * (1 - u) * (1 - u) * (f * b) <= t) by nra.
    assert (H2 : g * b <= (1 + u) * (f * b)) by nra.
    clear - H1 H2 Hgb Hfb. unfold u in *. lra.
  - apply (Qmult_le_r _ _ b Hb).
    setoid_replace ((T - g) * b) with (t - g * b) by (rewrite <- HT; ring).
    assert (H1 : t <= (1 + u) * (1 + u) * (1 + u) * (f * b)) by nra.
    assert (H2 : (1 - u) * (f * b) <= g * b) by nra.
    clear - H1 H2 Hgb Hfb. unfold u in *. lra.
Qed.

(** C1.  A scroll event [(scrollTop, scrollHeight, clientHeight)] handled
    with the guard off, the other surface being mounted: the handler sets the
    guard, sends the other surface the position
    [ratio * max(0, scrollHeightB - clientHeightB)] and arms the 100 ms
    timer, where [ratio] is [scrollTop / (scrollHeight - clientHeight)] when
    [scrollHeight > clientHeight] and [0] otherwise, all in the arithmetic of
    JavaScript numbers.  For heights in pixels ([+0] or positive and of
    moderate size) the position is
    - [+0] when [scrollHeight <= clientHeight] (the ratio is [0]);
    - [+0] when this surface is at [+0];
    - [+0] when the other surface has nothing to scroll,
      [scrollHeightB <= clientHeightB]: this is the [max(0, .)] of the code;
    - otherwise, [scrollTop] being positive and of moderate size, a finite
      number whose share of the other surface's range,
      [target / (scrollHeightB - clientHeightB)], differs from the share
      [scrollTop / (scrollHeight - clientHeight)] of this surface by at most
      five units of rounding (the code rounds four times: two differences, the
      quotient, the product); it stays within the other range, as the code
      computes it, while [scrollTop] is within this one, and reaches it when
      [scrollTop] does. *)
Theorem sync_keeps_scroll_fraction
    (scrollTop scrollHeight clientHeight : number) (other : handle) :
  let range := sub scrollHeight clientHeight in
  let ratio :=
    if gt scrollHeight clientHeight then div scrollTop range else zero in
  let B := getScrollInfo other in
  let rangeB := sub (ScrollDouble.scrollHeight B) (ScrollDouble.clientHeight B) in
  let target := mul ratio (max zero rangeB) in
  handleEditorScroll false (Some other) scrollTop scrollHeight clientHeight
  = [SetIsScrollSyncing true; ScrollTo Renderer target;
     SetTimeout (SetIsScrollSyncing false) 100]
  /\ handleRendererScroll false (Some other) scrollTop scrollHeight clientHeight
     = [SetIsScrollSyncing true; ScrollTo Editor target;
        SetTimeout (SetIsScrollSyncing false) 100]
  /\ (pixels scrollHeight = true -> pixels clientHeight = true ->
      pixels (ScrollDouble.scrollHeight B) = true ->
      pixels (ScrollDouble.clientHeight B) = true ->
      (value scrollHeight <= value clientHeight -> target = zero)
      /\ (value clientHeight < value scrollHeight ->
          (scrollTop = zero -> target = zero)
          /\ (moderate scrollTop = true ->
              (value (ScrollDouble.scrollHeight B)
               <= value (ScrollDouble.clientHeight B) -> target = zero)
              /\ (value (ScrollDouble.clientHeight B)
                  < value (ScrollDouble.scrollHeight B) ->
                  finite target = true
                  /\ Qabs (value target
                           / (value (ScrollDouble.scrollHeight B)
                              - value (ScrollDouble.clientHeight B))
                           - value scrollTop
                             / (value scrollHeight - value clientHeight))
                     <= 5 * unit_roundoff
                        * (value scrollTop
                           / (value scrollHeight - value clientHeight))
                  /\ Qabs (value rangeB
                           - (value (ScrollDouble.scrollHeight B)
                              - value (ScrollDouble.clientHeight B)))
                     <= unit_roundoff
                        * (value (ScrollDouble.scrollHeight B)
                           - value (ScrollDouble.clientHeight B))
                  /\ (value scrollTop <= value scrollHeight - value clientHeight ->
                      value target <= value rangeB)
                  /\ (value scrollHeight - value clientHeight <= value scrollTop ->
                      value rangeB <= value target))))).
Proof.
  cbv zeta.
  set (range := sub scrollHeight clientHeight).
  set (hB := ScrollDouble.scrollHeight (getScrollInfo other)).
  set (cB := ScrollDouble.clientHeight (getScrollInfo other)).
  set (rangeB := sub hB cB).
  split; [reflexivity|]. split; [reflexivity|].
  intros Hh Hc HhB HcB.
  destruct (range_spec scrollHeight clientHeight Hh Hc) as [Hflat Hscroll].
  destruct (range_spec hB cB HhB HcB) as [HflatB HscrollB].
  fold range in Hflat, Hscroll. fold rangeB in HflatB, HscrollB.
  assert (HmaxB : max zero rangeB = zero
                  \/ exists m e, max zero rangeB = S754_finite false m e).
  { destruct (Qlt_le_dec (value cB) (value hB)) as [H|H].
    - destruct (HscrollB H) as [_ [Hn _]].
      destruct (normal_in_inv _ _ _ Hn) as [m [e [-> _]]].
      right. now exists m, e.
    - left. now apply HflatB. }
  split.
  - intros Hle. destruct (Hflat Hle) as [-> _].
    destruct HmaxB as [-> | [m [e ->]]]; reflexivity.
  - intros Hlt. destruct (Hscroll Hlt) as [-> [Hrange [Hsub Hsubm]]].
    split.
    + intros ->.
      destruct (normal_in_inv _ _ _ Hrange) as [mr [er [-> _]]].
      destruct HmaxB as [-> | [m [e ->]]]; reflexivity.
    + intros Hs.
      destruct (div_rounds (-300) 300 (-352) 301 scrollTop range
                  Hs Hrange) as [Hn [Hdiv Hdm]]; [lia | lia |].
      split.
      * intros HleB. destruct (HflatB HleB) as [_ ->].
        destruct (normal_in_inv _ _ _ Hn) as [m [e [-> _]]]. reflexivity.
      * intros HltB. destruct (HscrollB HltB) as [_ [HrangeB [HsubB _]]].
        assert (Hmax : max zero rangeB = rangeB).
        { destruct (normal_in_inv _ _ _ HrangeB) as [m [e [-> _]]]. reflexivity. }
        rewrite Hmax.
        destruct (mul_rounds _ _ _ _ (div scrollTop range) rangeB Hn HrangeB)
          as [Hn' [Hmul Hmm]]; [lia | lia |].
        pose proof (normal_in_positive _ _ _ Hs) as Hsp.
        pose proof (normal_in_positive _ _ _ Hrange) as Hmp.
        pose proof (normal_in_positive _ _ _ HrangeB) as Hdp.
        assert (Ha : 0 < value scrollHeight - value clientHeight) by lra.
        assert (Hb : 0 < value hB - value cB) by lra.
        destruct (Hdm 4503599627370496%positive (-52)%Z ltac:(lia)) as [Hle1 Hge1].
        rewrite one_is_normal in Hle1, Hge1.
        destruct (normal_in_inv _ _ _ HrangeB) as [mB [eB [HrB [HmB _]]]].
        destruct (Hmm mB eB HmB) as [HleB HgeB].
        assert (HvB : inject_Z (Zpos mB) * 2 ^ eB == value rangeB)
          by (rewrite HrB, value_normal; reflexivity).
        rewrite HvB in HleB, HgeB.
        destruct (normal_in_inv _ _ _ Hs) as [ms [es [Hrs [Hms _]]]].
        destruct (Hsubm ms es Hms) as [Hsle Hsge].
        assert (Hvs : inject_Z (Zpos ms) * 2 ^ es == value scrollTop)
          by (rewrite Hrs, value_normal; reflexivity).
        rewrite Hvs in Hsle, Hsge.
        split; [|split; [|split; [exact HsubB|split]]].
        -- destruct (normal_in_inv _ _ _ Hn') as [m [e [-> _]]]. reflexivity.
        -- apply (four_roundings (value scrollTop) _ _ (value range) (value rangeB)
                    (value (div scrollTop range))); assumption.
        -- intros Hin. apply HleB.
           assert (Hr1 : value (div scrollTop range) <= 1).
           { apply Hle1. apply Qle_shift_div_r; [assumption|].
             rewrite Qmult_1_l. now apply Hsge. }
           setoid_replace (value rangeB) with (1 * value rangeB) at 2 by ring.
           apply Qmult_le_compat_r; [assumption | now apply Qlt_le_weak].
        -- intros Hout. apply HgeB.
           assert (Hr1 : 1 <= value (div scrollTop range)).
           { apply Hge1. apply Qle_shift_div_l; [assumption|].
             rewrite Qmult_1_l. now apply Hsle. }
           setoid_replace (value rangeB) with (1 * value rangeB) at 1 by ring.
           apply Qmult_le_compat_r; [assumption | now apply Qlt_le_weak].
Qed.

Lemma sync_keeps_scroll_fraction_witness :
  handleEditorScroll false (Some (Some short_preview))
    (of_Z 1) (of_Z 110) (of_Z 100)
  = [SetIsScrollSyncing true;
     ScrollTo Renderer (S754_finite false 5404319552844596 (-54));
     SetTimeout (SetIsScrollSyncing false) 100]
  /\ Qabs (value (S754_finite false 5404319552844596 (-54))
           / (value (of_Z 103) - value (of_Z 100))
           - value (of_Z 1) / (value (of_Z 110) - value (of_Z 100)))
     <= 5 * unit_roundoff
        * (value (of_Z 1) / (value (of_Z 110) - value (of_Z 100)))
  /\ value (S754_finite false 5404319552844596 (-54))
     <= value (sub (of_Z 103) (of_Z 100)).
Proof.
  pose proof (sync_keeps_scroll_fraction (of_Z 1) (of_Z 110) (of_Z 100)
                (Some short_preview)) as H.
  cbv zeta in H.
  set (target := mul _ _) in H.
  assert (Htarget : target = S754_finite false 5404319552844596 (-54))
    by (vm_compute; reflexivity).
  rewrite Htarget in H. clear target Htarget.
  destruct H as [Hsent [_ Hheights]].
  destruct (Hheights ltac:(vm_compute; reflexivity)
                     ltac:(vm_compute; reflexivity)
                     ltac:(vm_compute; reflexivity)
                     ltac:(vm_compute; reflexivity))
    as [_ Hscrollable].
  destruct (Hscrollable ltac:(vm_compute; reflexivity)) as [_ Hmoving].
  destruct (Hmoving ltac:(vm_compute; reflexivity)) as [_ Hshare].
  destruct (Hshare ltac:(vm_compute; reflexivity))
    as [_ [Hnear [_ [Hbelow _]]]].
  split; [exact Hsent|]. split; [exact Hnear|].
  apply Hbelow. vm_compute. discriminate.
Defined.

End ScrollDoubleFacts.

(* ===================================================================== *)
(** * More on the AI adapter *)
(* ===================================================================== *)

Module AIMore.
Import JS AI.

Lemma prefix_here (t : jsstring) : exists p, t = p ++ t.
Proof. now exists []. Qed.

Lemma prefix_later (a r t : jsstring) :
  (exists q, r = q ++ t) -> exists p, a ++ r = p ++ t.
Proof. intros [q ->]. exists (a ++ q). apply app_assoc. Qed.

Ltac find_prefix :=
  first [ apply prefix_here | apply prefix_later; find_prefix ].

(** Every chat intent, on an available service, sends one POST to
    [{apiUrl}/chat/completions] with the bearer token, the configured model,
    [stream: false], and two messages, system then user; the user message
    ends with the input text as it was given. *)
Theorem chat_request_shape (engine : Engine) (network : request -> fetch_result)
    (svc : AIService) (st : AISettings) (i : intent) (log : list request) :
  isAvailable svc = true -> settings svc = Some st -> is_chat i = true ->
  exists b sys prefix,
    snd (run engine network svc i log)
    = log ++ [{| url := apiUrl st ++ lit "/chat/completions";
                 method := Some (lit "POST");
                 headers := [(lit "Content-Type", lit "application/json");
                             (lit "Authorization", lit "Bearer " ++ apiKey st)];
                 body := Some b |}]
    /\ body_model b = model st
    /\ stream b = false
    /\ body_messages b
       = [ {| msg_role := system; msg_content := sys |};
           {| msg_role := user; msg_content := prefix ++ Editor.intent_text i |} ].
Proof.
  intros Hav Hst Hi.
  destruct i; try discriminate;
    unfold run, continueText, optimizeContent, checkGrammar, translateText,
      generateSummary, generateTitle, customPrompt;
    match goal with
    | |- context [callAPI engine network svc ?m ?o log] =>
        destruct (AIFacts.callAPI_sends engine network svc st m o log Hav Hst)
          as [res [-> _]]
    end;
    unfold chat_request, two_messages; cbn [Editor.intent_text];
    repeat match goal with
           | |- context [lit ?s] =>
               let x := fresh "s" in set (x := lit s); clearbody x
           end;
    cbn [snd];
    match goal with
    | |- context [{| msg_role := user; msg_content := ?u |}] =>
        match goal with
        | text : jsstring |- _ =>
            let Hu := fresh "Hu" in
            let prefix := fresh "prefix" in
            assert (Hu : exists prefix, u = prefix ++ text)
              by find_prefix;
            destruct Hu as [prefix Hu];
            eexists; eexists; exists prefix;
            split; [reflexivity|]; split; [reflexivity|]; split; [reflexivity|];
            cbn [body_messages];
            apply f_equal2; [reflexivity|];
            apply f_equal2; [|reflexivity];
            apply f_equal; exact Hu
        end
    end.
Qed.

Lemma chat_request_shape_witness :
  exists b sys prefix,
    snd (run v8 (always {| status := 200; resp_body := BodyJson JNull |})
             example_service (Title (lit "notes")) [])
    = [] ++ [{| url := apiUrl example_settings ++ lit "/chat/completions";
                method := Some (lit "POST");
                headers := [(lit "Content-Type", lit "application/json");
                            (lit "Authorization",
                             lit "Bearer " ++ apiKey example_settings)];
                body := Some b |}]
    /\ body_model b = model example_settings
    /\ stream b = false
    /\ body_messages b
       = [ {| msg_role := system; msg_content := sys |};
           {| msg_role := user;
              msg_content := prefix ++ Editor.intent_text (Title (lit "notes")) |} ].
Proof.
  apply (chat_request_shape v8 _ example_service example_settings
           (Title (lit "notes")) []); reflexivity.
Defined.

Lemma testConnection_sends (engine : Engine) (network : request -> fetch_result)
    (svc : AIService) (st : AISettings) (log : list request) :
  isAvailable svc = true -> settings svc = Some st ->
  testConnection engine network svc log
  = (Returns
       match network {| url := apiUrl st ++ lit "/models"; method := None;
                        headers := [(lit "Authorization",
                                     lit "Bearer " ++ apiKey st);
                                    (lit "Content-Type", lit "application/json")];
                        body := None |} with
       | Resolves r => if ok r then succeeded (JStr msg_connected)
                       else failure (JStr msg_connection_failed)
       | Rejects _ => failure (JStr msg_network_down)
       end,
     log ++ [{| url := apiUrl st ++ lit "/models"; method := None;
                headers := [(lit "Authorization", lit "Bearer " ++ apiKey st);
                            (lit "Content-Type", lit "application/json")];
                body := None |}]).
Proof.
  intros Hav Hst.
  unfold testConnection, try_catch, bind, settings_field, fetch.
  rewrite Hav, Hst. cbn [negb ret].
  destruct (network _) as [r|e]; [destruct (ok r)|]; reflexivity.
Qed.

Lemma run_unavailable (engine : Engine) (network : request -> fetch_result)
    (svc : AIService) (i : intent) (log : list request) :
  isAvailable svc = false ->
  run engine network svc i log
  = (Returns (failure (JStr msg_not_configured)), log).
Proof.
  intros Hav.
  destruct i;
    unfold run, continueText, optimizeContent, checkGrammar, translateText,
      generateSummary, generateTitle, customPrompt;
    [ apply AIFacts.callAPI_unavailable; assumption ..
    | apply AIFacts.testConnection_unavailable; assumption ].
Qed.

(** No operation retries: whatever the network does, an operation returns
    after exactly one request when the service is available, and after none
    when it is not. *)
Theorem one_request_per_operation (engine : Engine)
    (network : request -> fetch_result) (svc : AIService) (i : intent)
    (log : list request) :
  exists res sent,
    run engine network svc i log = (Returns res, log ++ sent)
    /\ List.length sent = if isAvailable svc then 1%nat else 0%nat.
Proof.
  destruct (isAvailable svc) eqn:Hav.
  - destruct (AIFacts.isAvailable_settings svc Hav) as [st Hst].
    destruct (is_chat i) eqn:Hi.
    + destruct (AIFacts.chat_intent_calls_API engine network svc i Hi)
        as [messages [options ->]].
      destruct (AIFacts.callAPI_sends engine network svc st messages options
                  log Hav Hst) as [res [-> _]].
      eexists; eexists; split; reflexivity.
    + destruct i; try discriminate. unfold run.
      rewrite (testConnection_sends engine network svc st log Hav Hst).
      eexists; eexists; split; reflexivity.
  - exists (failure (JStr msg_not_configured)), [].
    rewrite app_nil_r. split; [|reflexivity].
    now apply run_unavailable.
Qed.

(** The connection test sends one request, a GET without a body to
    [{apiUrl}/models] that carries the key as bearer token, and judges by the
    status alone: it succeeds exactly when the request resolves with a status
    in 200-299, whatever the body, and tells a refused status from an
    unreachable endpoint by its message. *)
Theorem testConnection_outcomes (engine : Engine)
    (network : request -> fetch_result) (svc : AIService) (log : list request) :
  isAvailable svc = true ->
  exists res req,
    testConnection engine network svc log = (Returns res, log ++ [req])
    /\ (exists st, settings svc = Some st
                   /\ url req = apiUrl st ++ lit "/models"
                   /\ headers req
                      = [(lit "Authorization", lit "Bearer " ++ apiKey st);
                         (lit "Content-Type", lit "application/json")])
    /\ method req = None /\ body req = None
    /\ (forall r, network req = Resolves r -> ok r = true ->
                  res = {| success := true; content := Some (JStr msg_connected);
                           error := None |})
    /\ (forall r, network req = Resolves r -> ok r = false ->
                  res = {| success := false; content := None;
                           error := Some (JStr msg_connection_failed) |})
    /\ (forall e, network req = Rejects e ->
                  res = {| success := false; content := None;
                           error := Some (JStr msg_network_down) |})
    /\ (success res = true <-> exists r, network req = Resolves r /\ ok r = true).
Proof.
  intros Hav. destruct (AIFacts.isAvailable_settings svc Hav) as [st Hst].
  rewrite (testConnection_sends engine network svc st log Hav Hst).
  eexists; eexists; split; [reflexivity|].
  split; [exists st; repeat split; assumption|].
  split; [reflexivity|]. split; [reflexivity|].
  destruct (network _) as [r|e] eqn:Hnet.
  - assert (Hsame : forall r', Resolves r = Resolves r' -> r' = r)
      by (intros r' Hr'; now injection Hr').
    destruct (ok r) eqn:Hok.
    + split; [reflexivity|]. split; [|split; [discriminate|]].
      * intros r' Hr' Hok'. apply Hsame in Hr'. congruence.
      * split; [|reflexivity]. intros _. exists r. auto.
    + split; [|split; [reflexivity|split; [discriminate|]]].
      * intros r' Hr' Hok'. apply Hsame in Hr'. congruence.
      * split; [discriminate|].
        intros [r' [Hr' Hok']]. apply Hsame in Hr'. congruence.
  - split; [discriminate|]. split; [discriminate|]. split; [reflexivity|].
    split; [discriminate|]. intros [r' [Hr' _]]. discriminate.
Qed.

Lemma testConnection_outcomes_witness :
  exists res req,
    testConnection v8 (always {| status := 204; resp_body := BodyThrows ThrownOther |})
      example_service [] = (Returns res, [] ++ [req])
    /\ url req = apiUrl example_settings ++ lit "/models"
    /\ success res = true.
Proof.
  destruct (testConnection_outcomes v8
              (always {| status := 204; resp_body := BodyThrows ThrownOther |})
              example_service [] eq_refl)
    as [res [req [Hrun [[st [Hst [Hurl _]]] [_ [_ [Hok _]]]]]]].
  exists res, req. split; [exact Hrun|]. split.
  - injection Hst as <-. exact Hurl.
  - now rewrite (Hok _ eq_refl eq_refl).
Defined.

(** [x || default] on the options: whatever options [callAPI] is given, the
    request carries neither a zero temperature nor a zero token budget; a
    zero falls back to 0.7 and to 1000. *)
Theorem request_never_carries_zero (engine : Engine)
    (network : request -> fetch_result) (svc : AIService)
    (messages : list ChatMessage) (options : call_options) (log : list request) :
  isAvailable svc = true ->
  exists b,
    map body (snd (callAPI engine network svc messages options log))
    = map body log ++ [Some b]
    /\ ~ (temperature b == 0)%Q /\ max_tokens b <> 0%Z
    /\ (opt_temperature options = Some 0%Q -> temperature b = 7 # 10)
    /\ (opt_maxTokens options = Some 0%Z -> max_tokens b = 1000%Z).
Proof.
  intros Hav. destruct (AIFacts.isAvailable_settings svc Hav) as [st Hst].
  destruct (AIFacts.callAPI_sends engine network svc st messages options log
              Hav Hst) as [res [-> _]].
  eexists. cbn [snd chat_request]. rewrite map_app. split; [reflexivity|].
  cbn [temperature max_tokens]. repeat split.
  - unfold or_Q. destruct (opt_temperature options) as [q|]; [|discriminate].
    destruct (Qeq_bool q 0) eqn:Hq; [discriminate|].
    intros H. apply Qeq_bool_iff in H. congruence.
  - unfold or_Z. destruct (opt_maxTokens options) as [z|]; [|discriminate].
    destruct (z =? 0)%Z eqn:Hz; [discriminate|]. now apply Z.eqb_neq.
  - now intros ->.
  - now intros ->.
Qed.

Lemma request_never_carries_zero_witness :
  exists b,
    map body (snd (callAPI v8 (always {| status := 200;
                                         resp_body := BodyJson JNull |})
                     example_service []
                     {| opt_temperature := Some 0%Q; opt_maxTokens := Some 0%Z;
                        opt_stream := None |} []))
    = map body [] ++ [Some b]
    /\ temperature b = 7 # 10 /\ max_tokens b = 1000%Z.
Proof.
  destruct (request_never_carries_zero v8
              (always {| status := 200; resp_body := BodyJson JNull |})
              example_service []
              {| opt_temperature := Some 0%Q; opt_maxTokens := Some 0%Z;
                 opt_stream := None |} [] eq_refl)
    as [b [Hb [_ [_ [Ht Hm]]]]].
  exists b. split; [exact Hb|]. split; [now apply Ht | now apply Hm].
Defined.

(** A truthy [content] that is not a string (a number, [true], an array, an
    object) has no [trim]: the call throws inside the [try] and the answer is
    a failure carrying the engine's TypeError text, never a success. *)
Theorem non_string_content_is_a_failure (engine : Engine) (svc : AIService)
    (i : intent) (log : list request) (r : response) (data c : json) :
  isAvailable svc = true -> is_chat i = true -> ok r = true ->
  resp_body r = BodyJson data -> content_field data = Some c ->
  truthy (Some c) = true -> (forall s, c <> JStr s) ->
  exists req,
    run engine (always r) svc i log
    = (Returns {| success := false; content := None;
                  error := Some (JStr (not_a_function engine
                                         (lit "content.trim"))) |},
       log ++ [req]).
Proof.
  intros Hav Hi Hok Hbody Hc Htruthy Hnot.
  destruct (AIFacts.chat_intent_calls_API engine (always r) svc i Hi)
    as [messages [options ->]].
  destruct (AIFacts.isAvailable_settings svc Hav) as [st Hst].
  eexists.
  rewrite (AIFacts.callAPI_ok engine (always r) svc st messages options log r
             Hav Hst eq_refl Hok), Hbody.
  destruct data; [discriminate Hc | ..]; rewrite Hc;
    (destruct c as [|b0|x0|s0| |]; [discriminate Htruthy | ..];
     try (now elim (Hnot s0)); rewrite Htruthy; reflexivity).
Qed.

Lemma non_string_content_is_a_failure_witness :
  exists req,
    run v8 (always {| status := 200;
                      resp_body := BodyJson (completion_body (JBool true)) |})
        example_service (Grammar (lit "hello")) []
    = (Returns {| success := false; content := None;
                  error := Some (JStr (not_a_function v8 (lit "content.trim"))) |},
       [] ++ [req]).
Proof.
  apply (non_string_content_is_a_failure v8 example_service
           (Grammar (lit "hello")) []
           {| status := 200;
              resp_body := BodyJson (completion_body (JBool true)) |}
           (completion_body (JBool true)) (JBool true));
    try reflexivity.
  intros s. discriminate.
Defined.

Lemma trimStart_all_whitespace (s : jsstring) :
  forallb is_whitespace s = true -> trimStart s = [].
Proof.
  induction s as [|c s IH]; simpl; [reflexivity|].
  intros H. apply andb_true_iff in H as [Hc Hs]. rewrite Hc. now apply IH.
Qed.

(** The answer to a non-empty string content. *)
Lemma string_answer (engine : Engine) (svc : AIService)
    (i : intent) (log : list request) (r : response) (data : json)
    (s : jsstring) :
  isAvailable svc = true -> is_chat i = true -> ok r = true ->
  resp_body r = BodyJson data -> content_field data = Some (JStr s) ->
  s <> [] ->
  exists req,
    run engine (always r) svc i log
    = (Returns (succeeded (JStr (trim s))), log ++ [req]).
Proof.
  intros Hav Hi Hok Hbody Hc Hs.
  destruct (AIFacts.chat_intent_calls_API engine (always r) svc i Hi)
    as [messages [options ->]].
  destruct (AIFacts.isAvailable_settings svc Hav) as [st Hst].
  eexists.
  rewrite (AIFacts.callAPI_ok engine (always r) svc st messages options log r
             Hav Hst eq_refl Hok), Hbody.
  destruct data; [discriminate Hc | ..]; rewrite Hc;
    (destruct s; [now elim Hs|]); reflexivity.
Qed.

Lemma trim_blank (s : jsstring) :
  forallb is_whitespace s = true -> trim s = [].
Proof.
  intros H. unfold trim, trimEnd. now rewrite (trimStart_all_whitespace s H).
Qed.

(** A completion made only of white space is a non-empty string, so the call
    succeeds; what comes back is the empty string. *)
Theorem blank_completion_succeeds_empty (engine : Engine) (svc : AIService)
    (i : intent) (log : list request) (r : response) (data : json)
    (s : jsstring) :
  isAvailable svc = true -> is_chat i = true -> ok r = true ->
  resp_body r = BodyJson data -> content_field data = Some (JStr s) ->
  s <> [] -> forallb is_whitespace s = true ->
  exists req,
    run engine (always r) svc i log
    = (Returns {| success := true; content := Some (JStr []); error := None |},
       log ++ [req]).
Proof.
  intros Hav Hi Hok Hbody Hc Hs Hblank.
  destruct (string_answer engine svc i log r data s Hav Hi Hok Hbody Hc Hs)
    as [req Hrun].
  exists req. rewrite Hrun, (trim_blank s Hblank). reflexivity.
Qed.

Lemma blank_completion_succeeds_empty_witness :
  exists req,
    run v8 (always {| status := 200;
                      resp_body := BodyJson (completion_body (JStr [32; 10]%N)) |})
        example_service (Optimize (lit "hello")) []
    = (Returns {| success := true; content := Some (JStr []); error := None |},
       [] ++ [req]).
Proof.
  apply (blank_completion_succeeds_empty v8 example_service
           (Optimize (lit "hello")) []
           {| status := 200;
              resp_body := BodyJson (completion_body (JStr [32; 10]%N)) |}
           (completion_body (JStr [32; 10]%N)) [32; 10]%N);
    try reflexivity.
  discriminate.
Defined.


Lemma missing_content_is_malformed_witness :
  exists req,
    run v8 (always {| status := 200;
                      resp_body := BodyJson (JObj [(lit "choices", JArr [])]) |})
        example_service (Summary (lit "hello") None) []
    = (Returns {| success := false; content := None;
                  error := Some (JStr msg_malformed) |}, [] ++ [req]).
Proof.
  apply (AIFacts.missing_content_is_malformed v8 example_service
           (Summary (lit "hello") None) []
           {| status := 200;
              resp_body := BodyJson (JObj [(lit "choices", JArr [])]) |}
           (JObj [(lit "choices", JArr [])]));
    try reflexivity.
  discriminate.
Defined.

Lemma transport_failure_is_caught_witness :
  exists req,
    run v8 (fun _ => Rejects (ThrownError (lit "Failed to fetch")))
        example_service (Optimize (lit "hello")) []
    = (Returns {| success := false; content := None;
                  error := Some (message_or msg_network
                                   (ThrownError (lit "Failed to fetch"))) |},
       [] ++ [req]).
Proof.
  apply (AIFacts.transport_failure_is_caught v8
           (fun _ => Rejects (ThrownError (lit "Failed to fetch")))
           example_service (Optimize (lit "hello")) []
           (ThrownError (lit "Failed to fetch")));
    try reflexivity.
  intros req. now left.
Defined.

End AIMore.

(* ===================================================================== *)
(** * The AI buttons and the counters of the editor *)
(* ===================================================================== *)

Module EditorFacts.
Import JS AI Editor.

(** A click while a call is pending, before the service is set up, or with
    no editor on screen does nothing: no request, no state change. *)
Theorem click_ignored (engine : Engine) (network : request -> fetch_result)
    (b : button) (aiServiceInstance : option AIService)
    (editorRef editorRefLater isAiProcessing : bool)
    (selection content : jsstring) (log : list request) :
  aiServiceInstance = None \/ editorRef = false \/ isAiProcessing = true ->
  click engine network b aiServiceInstance editorRef editorRefLater
        isAiProcessing selection content log
  = (Returns [], log).
Proof.
  intros H.
  assert (Hg : forall body,
    guarded aiServiceInstance editorRef isAiProcessing body log
    = (Returns [], log)).
  { intros body. unfold guarded.
    destruct aiServiceInstance as [svc|]; [|reflexivity].
    destruct H as [H|[->| ->]]; [discriminate | reflexivity |].
    now destruct editorRef. }
  destruct b; apply Hg.
Qed.

Lemma click_ignored_witness :
  click v8 (always {| status := 200; resp_body := BodyJson JNull |})
        Optimization (Some example_service) true true true
        (lit "teh") (lit "teh cat") []
  = (Returns [], []).
Proof.
  apply (click_ignored v8 _ Optimization (Some example_service) true true true).
  right. right. reflexivity.
Defined.

(** What a handler does with the adapter's answer. *)
Lemma guarded_run (body : AIService -> M (list ui_action)) (svc : AIService)
    (log : list request) :
  guarded (Some svc) true false body log
  = match body svc log with
    | (Returns edits, log') =>
        (Returns ([SetIsAiProcessing true] ++ edits ++ [SetIsAiProcessing false]),
         log')
    | (Throws _, log') =>
        (Returns [SetIsAiProcessing true; SetIsAiProcessing false], log')
    end.
Proof.
  unfold guarded, try_catch, bind. cbn [negb orb].
  destruct (body svc log) as [[edits|e] log']; reflexivity.
Qed.


(** The answer to a blank completion is a success with empty content, which
    the handlers treat as nothing to apply: the document is not touched. *)
Theorem blank_completion_edits_nothing (engine : Engine) (b : button)
    (svc : AIService) (editorRefLater : bool) (selection content : jsstring)
    (log : list request) (r : response) (data : json) (s : jsstring) :
  isAvailable svc = true -> ok r = true ->
  resp_body r = BodyJson data -> content_field data = Some (JStr s) ->
  s <> [] -> forallb is_whitespace s = true ->
  exists req,
    click engine (always r) b (Some svc) true editorRefLater false
          selection content log
    = (Returns [SetIsAiProcessing true; SetIsAiProcessing false], log ++ [req]).
Proof.
  intros Hav Hok Hbody Hc Hs Hblank.
  destruct (AIMore.string_answer engine svc
              (requested b selection content) log r data s Hav
              ltac:(now destruct b) Hok Hbody Hc Hs) as [req Hrun].
  rewrite (AIMore.trim_blank s Hblank) in Hrun.
  exists req.
  destruct b; unfold requested, run in Hrun;
    unfold click, handleAiCompletion, handleAiOptimize, handleAiTranslate,
      handleAiSummarize;
    rewrite guarded_run; unfold bind; rewrite Hrun; reflexivity.
Qed.

Lemma blank_completion_edits_nothing_witness :
  exists req,
    click v8 (always {| status := 200;
                        resp_body := BodyJson (completion_body (JStr [32]%N)) |})
          Completion (Some example_service) true true false
          [] (lit "Once upon a time") []
    = (Returns [SetIsAiProcessing true; SetIsAiProcessing false], [] ++ [req]).
Proof.
  apply (blank_completion_edits_nothing v8 Completion example_service true
           [] (lit "Once upon a time") []
           {| status := 200;
              resp_body := BodyJson (completion_body (JStr [32]%N)) |}
           (completion_body (JStr [32]%N)) [32]%N);
    try reflexivity.
  discriminate.
Defined.

(** Optimization and translation put the trimmed answer in place of the
    selection when there is one, and in place of the whole document when
    there is none. *)
Theorem optimize_replaces_selection_or_document (engine : Engine)
    (svc : AIService) (translate : bool) (selection content : jsstring)
    (log : list request) (r : response) (data : json) (s : jsstring) :
  isAvailable svc = true -> ok r = true ->
  resp_body r = BodyJson data -> content_field data = Some (JStr s) ->
  trim s <> [] ->
  exists req,
    click engine (always r) (if translate then Translation else Optimization)
          (Some svc) true true false selection content log
    = (Returns [SetIsAiProcessing true;
                match selection with
                | [] => SetContent (JStr (trim s))
                | _ => ReplaceSelection (JStr (trim s))
                end;
                SetIsAiProcessing false],
       log ++ [req]).
Proof.
  intros Hav Hok Hbody Hc Htrim.
  assert (Hs : s <> []) by (intros ->; now apply Htrim).
  set (b := if translate then Translation else Optimization).
  destruct (AIMore.string_answer engine svc
              (requested b selection content) log r data s Hav
              ltac:(now destruct translate) Hok Hbody Hc Hs) as [req Hrun].
  unfold succeeded in Hrun.
  exists req.
  assert (Hu : usable {| success := true; content := Some (JStr (trim s));
                         error := None |} = true).
  { unfold usable. cbn [success AI.content truthy andb].
    destruct (trim s); [now elim Htrim | reflexivity]. }
  subst b. destruct translate; unfold requested, run in Hrun;
    unfold click, handleAiOptimize, handleAiTranslate;
    rewrite guarded_run; unfold bind; rewrite Hrun; cbn [AI.content];
    rewrite Hu; destruct selection; reflexivity.
Qed.

Lemma optimize_replaces_selection_or_document_witness :
  exists req,
    click v8 (always {| status := 200;
                        resp_body := BodyJson (completion_body
                                                 (JStr (lit " The cat. "))) |})
          Optimization (Some example_service) true true false
          (lit "teh cat") (lit "I saw teh cat") []
    = (Returns [SetIsAiProcessing true;
                ReplaceSelection (JStr (trim (lit " The cat. ")));
                SetIsAiProcessing false],
       [] ++ [req]).
Proof.
  destruct (optimize_replaces_selection_or_document v8 example_service false
              (lit "teh cat") (lit "I saw teh cat") []
              {| status := 200;
                 resp_body := BodyJson (completion_body
                                          (JStr (lit " The cat. "))) |}
              (completion_body (JStr (lit " The cat. "))) (lit " The cat. "))
    as [req Hreq]; try reflexivity.
  - vm_compute. discriminate.
  - exists req. exact Hreq.
Defined.

End EditorFacts.

(* ===================================================================== *)
(** * The word counter *)
(* ===================================================================== *)

Module WordFacts.
Import JS Editor.

Lemma split_ws_nonempty (g : bool) (s : jsstring) : split_ws g s <> [].
Proof.
  revert g; induction s as [|c s IH]; intros g; simpl; [discriminate|].
  destruct (is_whitespace c).
  - destruct g; [apply IH | discriminate].
  - destruct (split_ws false s); discriminate.
Qed.

(** Counting the non-empty pieces counts the runs. *)
Lemma pieces_are_runs (s : jsstring) :
  (forall g,
     List.length (filter (fun word => (0 <? List.length word)%nat) (split_ws g s))
     = word_starts false s)
  /\ List.length (filter (fun word => (0 <? List.length word)%nat)
                         (tl (split_ws false s)))
     = word_starts true s.
Proof.
  induction s as [|c s [IHf IHt]]; simpl.
  - split; [intros g|]; reflexivity.
  - destruct (is_whitespace c) eqn:Hc.
    + split.
      * intros [|]; simpl; apply IHf.
      * simpl. apply IHf.
    + pose proof (split_ws_nonempty false s) as Hne.
      destruct (split_ws false s) as [|piece pieces]; [now elim Hne|].
      simpl in IHt. split; [intros g|]; simpl; now rewrite IHt.
Qed.

Lemma word_starts_skip_blank (pre s : jsstring) :
  forallb is_whitespace pre = true ->
  word_starts false (pre ++ s) = word_starts false s.
Proof.
  induction pre as [|c pre IH]; simpl; [reflexivity|].
  intros H. apply andb_true_iff in H as [Hc Hpre]. rewrite Hc. now apply IH.
Qed.

Lemma word_starts_drop_blank (g : bool) (s post : jsstring) :
  forallb is_whitespace post = true ->
  word_starts g (s ++ post) = word_starts g s.
Proof.
  intros Hpost. revert g; induction s as [|c s IH]; intros g; simpl.
  - rewrite <- (app_nil_r post) at 1.
    destruct g.
    + destruct post as [|d post]; [reflexivity|]. simpl in *.
      apply andb_true_iff in Hpost as [Hd Hp]. rewrite Hd.
      rewrite app_nil_r.
      rewrite <- (app_nil_r post). now rewrite word_starts_skip_blank.
    + now rewrite word_starts_skip_blank.
  - destruct (is_whitespace c); [apply IH|]. destruct g; now rewrite IH.
Qed.

Lemma words_are_runs (s : jsstring) : words (count s) = word_starts false s.
Proof.
  unfold count. cbn [words].
  rewrite (proj1 (pieces_are_runs (trim s)) false).
  destruct (JSFacts.trim_split s) as [pre [post [Hs [Hpre Hpost]]]].
  rewrite Hs at 2.
  rewrite word_starts_skip_blank by assumption.
  now rewrite word_starts_drop_blank.
Qed.

Lemma word_starts_append (g : bool) (a b : jsstring) (c : N) :
  is_whitespace c = true ->
  word_starts g (a ++ c :: b) = (word_starts g a + word_starts false b)%nat.
Proof.
  intros Hc. revert g; induction a as [|d a IH]; intros g; simpl.
  - now rewrite Hc.
  - destruct (is_whitespace d); [apply IH|].
    destruct g; rewrite IH; reflexivity.
Qed.

(** The counters of the status bar.  [characters] is the length in code
    units.  [words] is zero exactly for a text that is empty or all white
    space, is one for a text without white space, and adds up across a
    white-space code unit: white space at the ends or repeated between words
    counts for nothing. *)
Theorem word_count_laws (a b : jsstring) (c : N) :
  characters (count a) = List.length a
  /\ (words (count a) = 0%nat <-> forallb is_whitespace a = true)
  /\ (a <> [] -> forallb (fun x => negb (is_whitespace x)) a = true ->
      words (count a) = 1%nat)
  /\ (is_whitespace c = true ->
      words (count (a ++ c :: b)) = (words (count a) + words (count b))%nat).
Proof.
  rewrite !words_are_runs. split; [reflexivity|]. split; [|split].
  - induction a as [|d a IH]; simpl; [tauto|].
    destruct (is_whitespace d); simpl; [exact IH|].
    split; discriminate.
  - intros Ha Hall. destruct a as [|d a]; [now elim Ha|]. simpl in *.
    apply andb_true_iff in Hall as [Hd Hall].
    apply negb_true_iff in Hd. rewrite Hd. f_equal.
    clear Ha Hd. induction a as [|e a IH]; simpl in *; [reflexivity|].
    apply andb_true_iff in Hall as [He Hall].
    apply negb_true_iff in He. rewrite He. now apply IH.
  - intros Hc. now apply word_starts_append.
Qed.

Lemma word_count_laws_witness :
  words (count (lit "  Hello,   world  " ++ 10%N :: lit "again"))
  = (words (count (lit "  Hello,   world  ")) + words (count (lit "again")))%nat
  /\ words (count (lit "  Hello,   world  ")) = 2%nat.
Proof.
  split.
  - apply (proj2 (proj2 (proj2 (word_count_laws (lit "  Hello,   world  ")
                                                (lit "again") 10%N)))).
    reflexivity.
  - vm_compute. reflexivity.
Defined.

End WordFacts.

(* ===================================================================== *)
(** * More on the file routes *)
(* ===================================================================== *)

Module FilesMore.
Import JS Files TreeRoute.

(** ** The file-content route *)

Lemma join_absolute (root p : jsstring) :
  Path.isAbsolute root = true -> Path.isAbsolute (Path.join root p) = true.
Proof.
  intros Hroot.
  assert (Hnorm : forall q, Path.isAbsolute q = true ->
                            Path.isAbsolute (Path.normalize q) = true).
  { intros q Hq. unfold Path.normalize.
    destruct q as [|c q]; [discriminate|]. rewrite Hq.
    destruct (Path.join_segments _); [reflexivity|].
    cbn [app Path.isAbsolute]. apply N.eqb_refl. }
  unfold Path.join. destruct root as [|c root]; [discriminate|].
  destruct p; apply Hnorm; exact Hroot.
Qed.

(** The answers of the content route.  The request is refused with 403
    exactly when the resolved path does not begin with the root's text, so a
    path that lies under the root is never refused.  Of the others, a path
    on which [fs.stat] fails (a missing file) gets 500, not 404; a path
    that is not a regular file gets 404; and the answer is a success exactly
    when its status is 200, carrying the content read from the resolved path
    and, as [path], the path as it was requested. *)
Theorem get_file_answers (PROJECT_ROOT : jsstring) (fs : FileSystem)
    (filePath : jsstring) :
  let absolutePath := Path.join PROJECT_ROOT filePath in
  let answer := get_file PROJECT_ROOT fs filePath in
  (http_status answer = 403%N <-> startsWith absolutePath PROJECT_ROOT = false)
  /\ (Path.isAbsolute PROJECT_ROOT = true ->
      Path.within PROJECT_ROOT absolutePath = true ->
      http_status answer <> 403%N)
  /\ (startsWith absolutePath PROJECT_ROOT = true ->
      stat fs absolutePath = None ->
      http_status answer = 500%N /\ http_success answer = false)
  /\ (startsWith absolutePath PROJECT_ROOT = true ->
      forall stats, stat fs absolutePath = Some stats -> isFile stats = false ->
      http_status answer = 404%N /\ http_success answer = false)
  /\ (http_success answer = true <-> http_status answer = 200%N)
  /\ (http_success answer = true <->
      exists stats content,
        startsWith absolutePath PROJECT_ROOT = true
        /\ stat fs absolutePath = Some stats /\ isFile stats = true
        /\ readFile fs absolutePath = Some content
        /\ http_data answer
           = Some {| data_content := content; data_path := filePath;
                     data_size := Files.size stats;
                     data_lastModified := mtime stats |}).
Proof.
  cbv zeta. unfold get_file.
  assert (Hwithin : Path.isAbsolute PROJECT_ROOT = true ->
                    Path.within PROJECT_ROOT (Path.join PROJECT_ROOT filePath) = true ->
                    startsWith (Path.join PROJECT_ROOT filePath) PROJECT_ROOT = true).
  { intros Habs Hw. unfold Path.within in Hw.
    apply orb_true_iff in Hw as [Hw|Hw]; [apply orb_true_iff in Hw as [Hw|Hw]|].
    - apply JSFacts.eqb_str_eq in Hw. rewrite Hw.
      pose proof (join_absolute _ filePath Habs) as Hj. rewrite Hw in Hj.
      destruct (Path.join [Path.slash] filePath) as [|c rest]; [discriminate|].
      simpl in Hj. simpl. rewrite Hj. now destruct rest.
    - apply JSFacts.eqb_str_eq in Hw. rewrite Hw.
      rewrite <- (app_nil_r PROJECT_ROOT) at 1. apply FilesFacts.startsWith_app.
    - apply FilesFacts.startsWith_prefix in Hw as [t Ht]. rewrite Ht.
      rewrite <- app_assoc. apply FilesFacts.startsWith_app. }
  destruct (startsWith (Path.join PROJECT_ROOT filePath) PROJECT_ROOT) eqn:Hpre;
    cbn [negb].
  - destruct (stat fs (Path.join PROJECT_ROOT filePath)) as [stats|] eqn:Hstat.
    + destruct (isFile stats) eqn:Hfile; cbn [negb].
      * destruct (readFile fs (Path.join PROJECT_ROOT filePath)) as [content|]
          eqn:Hread; cbn [http_status http_success http_data rejected];
          repeat split; try discriminate; try congruence;
          try (intros [stats' [content' [_ [Hs [_ [Hr _]]]]]]; congruence).
        intros _. exists stats, content. repeat split; assumption.
      * cbn [http_status http_success http_data rejected];
          repeat split; try discriminate; try congruence.
        intros [stats' [content' [_ [Hs [Hf _]]]]]. congruence.
    + cbn [http_status http_success http_data rejected];
        repeat split; try discriminate; try congruence.
      intros [stats' [content' [_ [Hs _]]]]. discriminate.
  - cbn [http_status http_success http_data rejected];
      repeat split; try discriminate; try congruence.
    + intros Habs Hw. specialize (Hwithin Habs Hw). discriminate.
    + intros [stats' [content' [Hp _]]]. discriminate.
Qed.

(** A file system holding one regular file, under the root. *)
Lemma get_file_answers_witness :
  http_status (get_file example_root sibling_fs (lit "notes/todo.md")) = 500%N
  /\ http_success (get_file example_root sibling_fs (lit "notes/todo.md")) = false.
Proof.
  apply (proj1 (proj2 (proj2 (get_file_answers example_root sibling_fs
                                               (lit "notes/todo.md")))));
    vm_compute; reflexivity.
Defined.

(** ** The tree walk *)

(** What the loop returns: the nodes of the entries it met, in their order,
    up to the end or up to the first entry on which [fs.stat] fails. *)
Lemma push_entries_nodes (relativePath : jsstring) (entries : list visit) :
  forall items,
    match push_entries relativePath entries items with
    | inr r =>
        exists nodes,
          r = items ++ nodes
          /\ Forall2 (fun v n => exists stats,
                        v_stats v = Some stats
                        /\ n = pushed_node relativePath v stats)
                     entries nodes
    | inl r =>
        exists good bad rest nodes,
          entries = good ++ bad :: rest /\ v_stats bad = None
          /\ r = items ++ nodes
          /\ Forall2 (fun v n => exists stats,
                        v_stats v = Some stats
                        /\ n = pushed_node relativePath v stats)
                     good nodes
    end.
Proof.
  induction entries as [|v entries IH]; intros items; simpl.
  - exists []. rewrite app_nil_r. split; [reflexivity | constructor].
  - destruct (v_stats v) as [stats|] eqn:Hstats.
    + assert (Hnode :
        push_entries relativePath entries
          (items ++ [pushed_node relativePath v stats])
        = if v_isDirectory v
          then push_entries relativePath entries
                 (items ++ [mkFileNode (Path.join relativePath (v_name v))
                              (v_name v) (Path.join relativePath (v_name v))
                              folder None
                              match (if (List.length (Path.split relativePath) <? 3)%nat
                                     then v_subtree v else []) with
                              | [] => None
                              | n :: l =>
                                  Some (if (List.length (Path.split relativePath) <? 3)%nat
                                        then v_subtree v else [])
                              end None (Some (mtime stats))])
          else push_entries relativePath entries
                 (items ++ [mkFileNode (Path.join relativePath (v_name v))
                              (v_name v) (Path.join relativePath (v_name v))
                              file (Some true) None (Some (Files.size stats))
                              (Some (mtime stats))])).
      { unfold pushed_node. destruct (v_isDirectory v); reflexivity. }
      rewrite <- Hnode. clear Hnode.
      specialize (IH (items ++ [pushed_node relativePath v stats])).
      destruct (push_entries relativePath entries _) as [r|r].
      * destruct IH as [good [bad [rest [nodes [He [Hb [Hr Hf]]]]]]].
        exists (v :: good), bad, rest, (pushed_node relativePath v stats :: nodes).
        rewrite He, Hr, <- app_assoc. repeat split; try assumption.
        constructor; [eauto | assumption].
      * destruct IH as [nodes [Hr Hf]].
        exists (pushed_node relativePath v stats :: nodes).
        rewrite Hr, <- app_assoc. split; [reflexivity|].
        constructor; [eauto | assumption].
    + exists [], v, entries, []. rewrite app_nil_r.
      repeat split; try assumption. constructor.
Qed.

Section Walk.

Variable localeCompare : jsstring -> jsstring -> Z.

(** A property of single nodes that the pushed nodes have holds of
    everything [buildFileTree] returns, at every level. *)
Lemma buildFileTree_all_nodes (P : FileNode -> Prop) :
  (forall relativePath v stats, P (pushed_node relativePath v stats)) ->
  forall here relativePath,
    Forall (fun n => Forall P (all_nodes n))
           (buildFileTree localeCompare here relativePath).
Proof.
  intros Hp here.
  induction here as [s|s entries IH] using FilesFacts.fsnode_nested_ind;
    intros relativePath; simpl; [constructor|].
  match goal with
  | |- context [push_entries relativePath ?es []] =>
      pose proof (push_entries_nodes relativePath es []) as Hpush;
      assert (Hsub : Forall (fun v => Forall (fun n => Forall P (all_nodes n))
                                             (v_subtree v)) es)
  end.
  { apply Forall_forall. intros v Hv. apply filter_In in Hv as [Hv _].
    apply in_map_iff in Hv as [[[name isDir] below] [<- Hin]]. simpl.
    rewrite Forall_forall in IH. apply (IH _ Hin). }
  assert (Hall : forall n,
    P n ->
    match children n with
    | Some l => Forall (fun m => Forall P (all_nodes m)) l
    | None => True
    end ->
    Forall P (all_nodes n)).
  { intros [k t p ty lf ch sz lm] Hn Hch. simpl. constructor; [assumption|].
    simpl in Hch. destruct ch; [apply Forall_flat_map; exact Hch | constructor]. }
  assert (Hnodes : forall vs nodes,
    Forall (fun v => Forall (fun n => Forall P (all_nodes n)) (v_subtree v)) vs ->
    Forall2 (fun v n => exists stats,
               v_stats v = Some stats /\ n = pushed_node relativePath v stats)
            vs nodes ->
    Forall (fun n => Forall P (all_nodes n)) nodes).
  { intros vs nodes Hvs Hf.
    induction Hf as [|v n vs nodes [stats [_ ->]] _ IHf]; [constructor|].
    inversion Hvs as [|? ? Hv Hvs']; subst.
    constructor; [|now apply IHf].
    apply Hall; [apply Hp|].
    unfold pushed_node.
    destruct (v_isDirectory v); cbn [children]; [|exact I].
    destruct (_ <? 3)%nat; [|exact I].
    destruct (v_subtree v) as [|n0 l] eqn:Hl; [exact I | exact Hv]. }
  destruct (push_entries relativePath _ []) as [r|r].
  - destruct Hpush as [good [bad [rest [nodes [He [_ [-> Hf]]]]]]].
    simpl. apply (Hnodes good); [|assumption].
    rewrite He in Hsub. now apply Forall_app in Hsub as [Hg _].
  - destruct Hpush as [nodes [-> Hf]]. simpl.
    apply FilesFacts.sort_Forall. now apply (Hnodes _ nodes Hsub).
Qed.

(** Every node of a listing, at every level, has its [key] equal to its
    [path] and carries [lastModified]; a file is a leaf with a [size] and no
    [children]; a folder has neither [isLeaf] nor [size], and its [children]
    are absent rather than an empty list. *)
Theorem nodes_are_well_formed (here : fsnode) (relativePath : jsstring) :
  Forall (fun top =>
    Forall (fun n =>
      key n = path n /\ lastModified n <> None
      /\ match type n with
         | file => isLeaf n = Some true /\ children n = None /\ size n <> None
         | folder => isLeaf n = None /\ size n = None /\ children n <> Some []
         end)
      (all_nodes top))
    (buildFileTree localeCompare here relativePath).
Proof.
  apply buildFileTree_all_nodes. intros rel v stats. unfold pushed_node.
  destruct (v_isDirectory v); cbn [key path lastModified type isLeaf children size].
  - repeat split; try discriminate.
    destruct (_ <? 3)%nat; [|discriminate].
    destruct (v_subtree v); discriminate.
  - repeat split; discriminate.
Qed.

Lemma no_children_below_depth (here : fsnode) (relativePath : jsstring) :
  (3 <= List.length (Path.split relativePath))%nat ->
  Forall (fun n => children n = None)
         (buildFileTree localeCompare here relativePath).
Proof.
  intros Hdepth. destruct here as [s [entries|]]; simpl; [|constructor].
  assert (Hnodes : forall vs nodes,
    Forall2 (fun v n => exists stats,
               v_stats v = Some stats /\ n = pushed_node relativePath v stats)
            vs nodes ->
    Forall (fun n => children n = None) nodes).
  { intros vs nodes Hf.
    induction Hf as [|v n vs nodes [stats [_ ->]] _ IHf]; constructor;
      [|assumption].
    unfold pushed_node. destruct (v_isDirectory v); cbn [children]; [|reflexivity].
    apply Nat.ltb_ge in Hdepth. now rewrite Hdepth. }
  match goal with
  | |- context [push_entries relativePath ?es []] =>
      pose proof (push_entries_nodes relativePath es []) as Hpush
  end.
  destruct (push_entries relativePath _ []) as [r|r].
  - destruct Hpush as [good [bad [rest [nodes [_ [_ [-> Hf]]]]]]].
    simpl. now apply (Hnodes good).
  - destruct Hpush as [nodes [-> Hf]]. simpl.
    apply FilesFacts.sort_Forall. eapply Hnodes; eassumption.
Qed.

(** The depth limit: below a relative path of three or more segments
    (counting the empty one before a leading slash) folders are listed
    without their content. *)
Theorem deep_folders_are_not_expanded (here : fsnode) (relativePath : jsstring) :
  (3 <= List.length (Path.split relativePath))%nat ->
  Forall (fun n => children n = None)
         (buildFileTree localeCompare here relativePath).
Proof. exact (no_children_below_depth here relativePath). Qed.

Lemma push_entries_stops (relativePath : jsstring) (good : list visit)
    (bad : visit) (rest : list visit) :
  Forall (fun v => v_stats v <> None) good -> v_stats bad = None ->
  forall items,
  exists nodes,
    push_entries relativePath (good ++ bad :: rest) items = inl (items ++ nodes)
    /\ map title nodes = map v_name good.
Proof.
  intros Hgood Hbad.
  induction Hgood as [|v good Hv _ IH]; intros items; simpl.
  - rewrite Hbad. exists []. now rewrite app_nil_r.
  - destruct (v_stats v) as [stats|]; [|now elim Hv].
    destruct (v_isDirectory v);
      match goal with
      | |- context [push_entries _ _ (items ++ [?n])] =>
          destruct (IH (items ++ [n])) as [nodes [Hp Ht]];
          exists (n :: nodes); rewrite Hp, <- app_assoc; simpl;
          split; [reflexivity | now rewrite Ht]
      end.
Qed.

(** When [fs.stat] fails on an entry, the listing is what had been pushed
    before: the entries that pass the filter and precede the failing one, in
    directory order; nothing after it is listed and nothing is sorted. *)
Theorem walk_stops_at_first_stat_failure (s : option Stats)
    (entries good rest : list (jsstring * bool * fsnode))
    (bad : jsstring * bool * fsnode) (relativePath : jsstring) :
  filter (fun e : jsstring * bool * fsnode => keep (fst (fst e))) entries
  = good ++ bad :: rest ->
  Forall (fun e : jsstring * bool * fsnode => stats_of (snd e) <> None) good ->
  stats_of (snd bad) = None ->
  map title (buildFileTree localeCompare (FsNode s (Some entries)) relativePath)
  = map (fun e : jsstring * bool * fsnode => fst (fst e)) good.
Proof.
  intros Hfilter Hgood Hbad. cbn [buildFileTree].
  set (to_visit := fun entry : jsstring * bool * fsnode =>
         let '(name, isDirectory, below) := entry in
         {| v_name := name; v_isDirectory := isDirectory;
            v_stats := stats_of below;
            v_subtree := buildFileTree localeCompare below
                           (Path.join relativePath name) |}).
  assert (Hcomm : filter (fun entry => keep (v_name entry)) (map to_visit entries)
                  = map to_visit
                        (filter (fun e : jsstring * bool * fsnode =>
                                   keep (fst (fst e))) entries)).
  { clear. induction entries as [|[[name isDir] below] entries IH]; simpl;
      [reflexivity | destruct (keep name); simpl; now rewrite IH]. }
  rewrite Hcomm, Hfilter, map_app. cbn [map].
  destruct (push_entries_stops relativePath (map to_visit good) (to_visit bad)
              (map to_visit rest)) with (items := @nil FileNode)
    as [nodes [Hp Ht]].
  - apply Forall_forall. intros v Hv.
    apply in_map_iff in Hv as [[[name isDir] below] [<- Hin]]. simpl.
    rewrite Forall_forall in Hgood. apply (Hgood _ Hin).
  - destruct bad as [[name isDir] below]. exact Hbad.
  - rewrite Hp. simpl. rewrite Ht, map_map.
    apply map_ext. now intros [[name isDir] below].
Qed.

(** ** The tree route *)

(** The answers of the tree route.  Without a [path], or with an empty one,
    the root is listed.  A [path] that is a string is refused with 403
    exactly when the resolved path does not begin with the root's text, and
    is otherwise answered with 200: a directory that cannot be read (or does
    not exist) gives an empty list, not an error, and what is listed is what
    [buildFileTree] returns, so it shows only names that pass the filter.  A
    [path] given twice or with a key is answered with 500. *)
Theorem get_tree_answers (PROJECT_ROOT : jsstring) (below : jsstring -> fsnode)
    (query : option query_value) :
  let answer := get_tree PROJECT_ROOT localeCompare below query in
  get_tree PROJECT_ROOT localeCompare below None
  = get_tree PROJECT_ROOT localeCompare below (Some (QString (lit "/")))
  /\ get_tree PROJECT_ROOT localeCompare below (Some (QString []))
     = get_tree PROJECT_ROOT localeCompare below (Some (QString (lit "/")))
  /\ (forall rootPath,
        query = Some (QString rootPath) -> rootPath <> [] ->
        let absolutePath := Path.join PROJECT_ROOT rootPath in
        (tree_status answer = 403%N
         <-> startsWith absolutePath PROJECT_ROOT = false)
        /\ (startsWith absolutePath PROJECT_ROOT = false ->
            answer
            = {| tree_status := 403; tree_success := false;
                 tree_error
                 := Some (lit "Access denied: Path outside project root");
                 tree_data := None |})
        /\ (startsWith absolutePath PROJECT_ROOT = true ->
            answer
            = {| tree_status := 200; tree_success := true; tree_error := None;
                 tree_data
                 := Some (buildFileTree localeCompare (below absolutePath)
                                        rootPath) |}
            /\ (forall s, below absolutePath = FsNode s None ->
                          tree_data answer = Some [])
            /\ (forall nodes, tree_data answer = Some nodes ->
                  Forall (fun n => Forall (fun t => keep t = true) (titles n))
                         nodes)))
  /\ ((exists items, query = Some (QArray items))
      \/ (exists fields, query = Some (QObject fields)) ->
      answer
      = {| tree_status := 500; tree_success := false;
           tree_error := Some (lit "Failed to get file tree");
           tree_data := None |}).
Proof.
  cbv zeta. split; [reflexivity|]. split; [reflexivity|]. split.
  - intros rootPath -> Hne. unfold get_tree.
    destruct rootPath as [|c p]; [now elim Hne|].
    destruct (startsWith _ PROJECT_ROOT) eqn:Hpre;
      cbn [negb tree_status tree_success tree_data].
    + split; [split; discriminate|]. split; [discriminate|]. intros _.
      split; [reflexivity|]. split.
      * intros s Hs. now rewrite Hs.
      * intros nodes Hn. injection Hn as <-.
        apply FilesFacts.buildFileTree_kept.
    + split; [split; reflexivity|]. split; [reflexivity | discriminate].
  - intros [[items ->] | [fields ->]]; reflexivity.
Qed.

End Walk.

Lemma walk_stops_at_first_stat_failure_witness :
  map title (buildFileTree lex_compare directory_with_dangling_link (lit "/"))
  = map (fun e : jsstring * bool * fsnode => fst (fst e))
        [regular "b.txt"; regular "a.md"].
Proof.
  apply (walk_stops_at_first_stat_failure lex_compare None
           [regular "b.txt"; regular "a.md"; dangling "latest"]
           [regular "b.txt"; regular "a.md"] [] (dangling "latest") (lit "/")).
  - vm_compute. reflexivity.
  - repeat constructor; discriminate.
  - reflexivity.
Defined.

Lemma deep_folders_are_not_expanded_witness :
  Forall (fun n => children n = None)
         (buildFileTree lex_compare
            (FsNode None (Some [directory "deep" [regular "w.md"]; regular "q.ts"]))
            (lit "/src/lib")).
Proof.
  apply (deep_folders_are_not_expanded lex_compare). vm_compute. lia.
Defined.

Lemma get_tree_answers_witness :
  tree_status (get_tree example_root lex_compare (fun _ => FsNode None None)
                 (Some (QString (lit "docs")))) = 200%N
  /\ tree_data (get_tree example_root lex_compare (fun _ => FsNode None None)
                  (Some (QString (lit "docs")))) = Some []
  /\ tree_status (get_tree example_root lex_compare (fun _ => FsNode None None)
                    (Some (QArray [QString (lit "docs"); QString (lit "src")])))
     = 500%N.
Proof.
  destruct (get_tree_answers lex_compare example_root
              (fun _ => FsNode None None) (Some (QString (lit "docs"))))
    as [_ [_ [Hstring _]]].
  destruct (Hstring (lit "docs") eq_refl ltac:(vm_compute; discriminate))
    as [_ [_ Hlisted]].
  destruct (Hlisted ltac:(vm_compute; reflexivity)) as [Hanswer [Hempty _]].
  split; [now rewrite Hanswer|]. split; [apply (Hempty None); reflexivity|].
  destruct (get_tree_answers lex_compare example_root
              (fun _ => FsNode None None)
              (Some (QArray [QString (lit "docs"); QString (lit "src")])))
    as [_ [_ [_ Hother]]].
  rewrite Hother; [reflexivity|]. left. eexists. reflexivity.
Defined.


End FilesMore.

(* ===================================================================== *)
(** * The recent-files list *)
(* ===================================================================== *)

Module RecentFacts.
Import JS FileOperations.

(** The list once the first occurrence of [filePath], if any, is spliced
    out. *)
Lemma spliced_list (l : list jsstring) (filePath : jsstring) :
  let l' := match indexOf l filePath with
            | Some index => splice1 index l
            | None => l
            end in
  (forall x, In x l' -> In x l)
  /\ (forall x, x <> filePath -> In x l -> In x l')
  /\ (NoDup l -> NoDup l' /\ ~ In filePath l')
  /\ (List.length l' <= List.length l)%nat.
Proof.
  induction l as [|y l IH]; simpl.
  - split; [auto|]. split; [auto|]. split; [|auto].
    intros _. split; [constructor | auto].
  - destruct (eqb_str y filePath) eqn:Hy; simpl.
    + apply JSFacts.eqb_str_eq in Hy. subst y.
      split; [auto|]. split; [|split; [|auto]].
      * intros x Hx [H|H]; [congruence | assumption].
      * intros H. inversion H; subst. auto.
    + assert (Hne : y <> filePath).
      { intros H. apply JSFacts.eqb_str_eq in H. congruence. }
      destruct IH as [Hsub [Hkeep [Hnodup Hlen]]].
      destruct (indexOf l filePath) as [index|]; simpl in *.
      * split; [|split; [|split; [|lia]]].
        -- intros x [H|H]; auto.
        -- intros x Hx [H|H]; auto.
        -- intros H. inversion H as [|? ? Hin Hnd]; subst.
           destruct (Hnodup Hnd) as [Hnd' Hnot]. split.
           ++ constructor; [|assumption].
              intros Hin'. apply Hin. now apply Hsub.
           ++ intros [H'|H']; auto.
      * split; [auto|]. split; [auto|]. split; [|auto].
        intros H. split; [assumption|].
        inversion H as [|? ? Hin Hnd]; subst.
        destruct (Hnodup Hnd) as [_ Hnot]. intros [H'|H']; auto.
Qed.

(** Taking out the first occurrence, stated on the list cut at it. *)
Lemma spliced_at (before after : list jsstring) (filePath : jsstring) :
  ~ In filePath before ->
  match indexOf (before ++ filePath :: after) filePath with
  | Some index => splice1 index (before ++ filePath :: after)
  | None => before ++ filePath :: after
  end = before ++ after.
Proof.
  induction before as [|y before IH]; intros Hnot; simpl.
  - assert (H : eqb_str filePath filePath = true)
      by now apply JSFacts.eqb_str_eq.
    now rewrite H.
  - destruct (eqb_str y filePath) eqn:Hy.
    + apply JSFacts.eqb_str_eq in Hy. subst y. elim Hnot. now left.
    + assert (Hnot' : ~ In filePath before) by (intros H; apply Hnot; now right).
      specialize (IH Hnot').
      destruct (indexOf (before ++ filePath :: after) filePath) as [index|];
        simpl; now rewrite IH.
Qed.

Lemma not_listed (l : list jsstring) (filePath : jsstring) :
  ~ In filePath l -> indexOf l filePath = None.
Proof.
  induction l as [|y l IH]; intros Hnot; simpl; [reflexivity|].
  destruct (eqb_str y filePath) eqn:Hy.
  - apply JSFacts.eqb_str_eq in Hy. subst y. elim Hnot. now left.
  - rewrite IH; [reflexivity|]. intros H. apply Hnot. now right.
Qed.

(** [addToRecentFiles] keeps a most-recent-first list of at most ten
    names.  The file added comes first and the names listed before follow in
    the order they had: a file that was not listed is put in front of the
    whole list, a listed one is moved to the front from its first place.
    What does not fit in ten places falls off the end: adding a new file to
    a full list drops the last, the oldest, name.  Nothing is listed that
    was not listed before, and a list without repetition stays without
    repetition. *)
Theorem recent_files_list (recentFiles : list jsstring) (filePath : jsstring) :
  let updated := addToRecentFiles recentFiles filePath in
  hd_error updated = Some filePath
  /\ (List.length updated <= 10)%nat
  /\ (~ In filePath recentFiles ->
      updated = firstn 10 (filePath :: recentFiles))
  /\ (forall before after,
        recentFiles = before ++ filePath :: after -> ~ In filePath before ->
        updated = firstn 10 (filePath :: before ++ after))
  /\ (~ In filePath recentFiles -> List.length recentFiles = 10%nat ->
      updated = filePath :: removelast recentFiles)
  /\ (forall x, In x updated -> x = filePath \/ In x recentFiles)
  /\ (NoDup recentFiles -> NoDup updated)
  /\ ((List.length recentFiles < 10)%nat ->
      forall x, In x recentFiles -> In x updated).
Proof.
  cbv zeta.
  assert (Hcut : forall l : list jsstring,
            (if (10 <? List.length l)%nat then firstn 10 l else l)
            = firstn 10 l).
  { intros l. destruct (10 <? List.length l)%nat eqn:H; [reflexivity|].
    apply Nat.ltb_ge in H. symmetry. now apply firstn_all2. }
  assert (Hnew : ~ In filePath recentFiles ->
            addToRecentFiles recentFiles filePath
            = firstn 10 (filePath :: recentFiles)).
  { intros Hnot. unfold addToRecentFiles. rewrite (not_listed _ _ Hnot).
    apply Hcut. }
  split; [|split; [|split; [exact Hnew|split; [|split]]]].
  - unfold addToRecentFiles. rewrite Hcut. reflexivity.
  - unfold addToRecentFiles. rewrite Hcut. apply firstn_le_length.
  - intros before after -> Hnot. unfold addToRecentFiles.
    rewrite (spliced_at before after filePath Hnot). apply Hcut.
  - intros Hnot Hlen. rewrite (Hnew Hnot).
    change 10%nat with (S 9). rewrite firstn_cons. f_equal.
    destruct (exists_last (l := recentFiles)) as [l [x ->]].
    { intros ->. discriminate. }
    rewrite removelast_last. rewrite length_app in Hlen. simpl in Hlen.
    rewrite firstn_app, firstn_all2 by lia.
    replace (9 - List.length l)%nat with 0%nat by lia.
    rewrite firstn_O. apply app_nil_r.
  - unfold addToRecentFiles.
    destruct (spliced_list recentFiles filePath) as [Hsub [Hkeep [Hnodup Hlen]]].
    cbv zeta in *.
    set (l' := match indexOf recentFiles filePath with
               | Some index => splice1 index recentFiles
               | None => recentFiles
               end) in *.
    rewrite Hcut. split; [|split].
    + intros x Hx.
      assert (Hin : In x (filePath :: l')).
      { rewrite <- (firstn_skipn 10 (filePath :: l')).
        apply in_or_app. now left. }
      destruct Hin as [<-|Hin]; auto.
    + intros Hnd. destruct (Hnodup Hnd) as [Hnd' Hnot].
      assert (Hall : NoDup (filePath :: l')) by now constructor.
      rewrite <- (firstn_skipn 10 (filePath :: l')) in Hall.
      now apply NoDup_app_remove_r in Hall.
    + intros Hshort x Hx.
      rewrite firstn_all2 by (simpl; lia).
      destruct (list_eq_dec N.eq_dec x filePath) as [->|Hne];
        [now left | right; now apply Hkeep].
Qed.

Lemma recent_files_list_witness :
  NoDup (addToRecentFiles [lit "a.md"; lit "b.md"; lit "c.md"] (lit "b.md"))
  /\ addToRecentFiles [lit "a.md"; lit "b.md"; lit "c.md"] (lit "b.md")
     = [lit "b.md"; lit "a.md"; lit "c.md"].
Proof.
  destruct (recent_files_list [lit "a.md"; lit "b.md"; lit "c.md"] (lit "b.md"))
    as [_ [_ [_ [Hmoved [_ [_ [Hnodup _]]]]]]].
  split.
  - apply Hnodup. repeat constructor; vm_compute; intuition discriminate.
  - rewrite (Hmoved [lit "a.md"] [lit "c.md"] eq_refl).
    + vm_compute. reflexivity.
    + vm_compute. intuition discriminate.
Defined.

End RecentFacts.

(* ===================================================================== *)
(** * More on the scroll synchroniser *)
(* ===================================================================== *)

Module ScrollMore.
Import ScrollSync.
Local Open Scope Q_scope.



(** With the other surface not on screen (edit-only or preview-only view)
    a scroll event changes nothing that the guard is made of: no command, no
    guard, no timer. *)
Theorem event_without_other_surface (st : state)
    (scrollTop scrollHeight clientHeight : Q) :
  (rendererRef st = None ->
   let st' := step st (EditorScroll scrollTop scrollHeight clientHeight) in
   commands st' = commands st /\ isScrollSyncing st' = isScrollSyncing st
   /\ timers st' = timers st)
  /\ (editorRef st = None ->
      let st' := step st (RendererScroll scrollTop scrollHeight clientHeight) in
      commands st' = commands st /\ isScrollSyncing st' = isScrollSyncing st
      /\ timers st' = timers st).
Proof.
  split; intros H; cbv zeta; unfold step, handleEditorScroll, handleRendererScroll.
  - destruct (editorListener st) as [[|]|]; rewrite ?H; repeat split.
  - unfold update_surface, set_ref, get_ref. cbn [ScrollSync.editorRef].
    rewrite H. destruct (rendered st); repeat split.
Qed.

Lemma event_without_other_surface_witness :
  commands (step {| isScrollSyncing := false; rendered := false;
                    editorListener := Some false;
                    editorRef := Some (Some example_editor);
                    rendererRef := None; timers := []; commands := [] |}
                 (EditorScroll 400 1000 200)) = [].
Proof.
  apply (proj1 (event_without_other_surface
                  {| isScrollSyncing := false; rendered := false;
                     editorListener := Some false;
                     editorRef := Some (Some example_editor);
                     rendererRef := None; timers := []; commands := [] |}
                  400 1000 200)).
  reflexivity.
Defined.



(** The guard cannot stay set: in every state the component can reach,
    every pending timer clears the guard, one is pending whenever the guard
    is set, and when the pending timers have fired the guard is off. *)
Theorem guard_is_always_released (renderer : ScrollInfo) (events : list event) :
  let st := run (initial renderer) events in
  Forall (fun callback => callback = SetIsScrollSyncing false) (timers st)
  /\ (isScrollSyncing st = true -> timers st <> [])
  /\ isScrollSyncing (run st (repeat TimerFires (List.length (timers st))))
     = false.
Proof.
  cbv zeta.
  assert (Hinv : forall st,
    Forall (fun callback => callback = SetIsScrollSyncing false) (timers st)
    /\ (isScrollSyncing st = true -> timers st <> []) ->
    forall e,
    Forall (fun callback => callback = SetIsScrollSyncing false)
           (timers (step st e))
    /\ (isScrollSyncing (step st e) = true -> timers (step st e) <> [])).
  { intros st [Hall Hset] e. destruct e; simpl.
    - split; assumption.
    - destruct (editorListener st); split; assumption.
    - destruct (editorListener st) as [[|]|]; try (split; assumption).
      unfold handleEditorScroll. simpl.
      destruct (rendererRef st); simpl; [|split; assumption].
      split.
      + apply Forall_app. split; [assumption | now constructor].
      + intros _ H. now apply app_eq_nil in H as [_ H].
    - unfold handleRendererScroll.
      destruct (rendered st); simpl; [split; assumption|].
      destruct (editorRef st); simpl; [|split; assumption].
      split.
      + apply Forall_app. split; [assumption | now constructor].
      + intros _ H. now apply app_eq_nil in H as [_ H].
    - destruct (timers st) as [|callback rest] eqn:Ht.
      + rewrite Ht. split; [constructor | assumption].
      + inversion Hall as [|? ? Hc Hrest]; subst. simpl. split; [assumption|].
        discriminate. }
  assert (Hreach : forall evs st,
    Forall (fun callback => callback = SetIsScrollSyncing false) (timers st)
    /\ (isScrollSyncing st = true -> timers st <> []) ->
    Forall (fun callback => callback = SetIsScrollSyncing false)
           (timers (run st evs))
    /\ (isScrollSyncing (run st evs) = true -> timers (run st evs) <> [])).
  { induction evs as [|e evs IH]; intros st Hst; [exact Hst|].
    apply (IH (step st e)). now apply Hinv. }
  destruct (Hreach events (initial renderer)) as [Hall Hset].
  { split; [constructor | discriminate]. }
  split; [assumption|]. split; [assumption|].
  generalize dependent (run (initial renderer) events). clear.
  intros st Hall Hset.
  assert (Hfire : forall ts st',
    timers st' = ts ->
    Forall (fun callback => callback = SetIsScrollSyncing false) ts ->
    (isScrollSyncing st' = true -> ts <> []) ->
    isScrollSyncing (run st' (repeat TimerFires (List.length ts))) = false).
  { induction ts as [|callback rest IH]; intros st' Hts Hf Hs.
    - simpl. destruct (isScrollSyncing st'); [now elim Hs | reflexivity].
    - inversion Hf as [|? ? Hc Hrest]; subst callback.
      cbn [List.length repeat]. unfold run. cbn [fold_left].
      fold (run (step st' TimerFires) (repeat TimerFires (List.length rest))).
      assert (Hstep : step st' TimerFires
                      = set_isScrollSyncing false (set_timers rest st')).
      { unfold step. now rewrite Hts. }
      rewrite Hstep. apply IH; [reflexivity | assumption |].
      cbn [set_isScrollSyncing ScrollSync.isScrollSyncing]. discriminate. }
  now apply Hfire.
Qed.

Lemma renderer_event_discarded_witness :
  commands (step preview_scrolled (RendererScroll 150 400 100))
  = commands preview_scrolled.
Proof.
  apply (proj1 (ScrollFacts.renderer_event_discarded preview_scrolled
                  150 400 100 eq_refl)).
Defined.

End ScrollMore.

(* ===================================================================== *)
(** * How deep a listing goes *)
(* ===================================================================== *)

Module DepthFacts.
Import JS Files TreeRoute.

Lemma split_not_nil (s : jsstring) : Path.split s <> [].
Proof.
  induction s as [|c s IH]; simpl; [discriminate|].
  destruct (c =? Path.slash)%N; [discriminate|].
  destruct (Path.split s); [now elim IH | discriminate].
Qed.

Lemma split_app (a b : jsstring) :
  Path.split (a ++ Path.slash :: b) = Path.split a ++ Path.split b.
Proof.
  induction a as [|c a IH]; simpl.
  - reflexivity.
  - destruct (c =? Path.slash)%N; [now rewrite IH|].
    rewrite IH. pose proof (split_not_nil a) as Hne.
    destruct (Path.split a); [now elim Hne | reflexivity].
Qed.

Lemma plain_facts (name : jsstring) :
  plain_segment name = true ->
  eqb_str name [] = false
  /\ existsb (N.eqb Path.slash) name = false
  /\ eqb_str name (lit ".") = false
  /\ eqb_str name (lit "..") = false.
Proof.
  unfold plain_segment. rewrite !andb_true_iff, !negb_true_iff. tauto.
Qed.

Lemma split_plain (name : jsstring) :
  existsb (N.eqb Path.slash) name = false -> Path.split name = [name].
Proof.
  induction name as [|c name IH]; [reflexivity|].
  cbn [existsb Path.split]. intros H. apply orb_false_iff in H as [Hc Hn].
  rewrite N.eqb_sym in Hc. rewrite Hc, (IH Hn). reflexivity.
Qed.

Lemma trailing_plain (prefix name : jsstring) :
  plain_segment name = true ->
  Path.trailingSeparator (prefix ++ name) = false.
Proof.
  intros Hp. destruct (plain_facts name Hp) as [Hne [Hslash _]].
  destruct name as [|c name] using rev_ind; [discriminate|].
  unfold Path.trailingSeparator.
  rewrite app_assoc, rev_app_distr. cbn [rev app].
  rewrite existsb_app in Hslash. apply orb_false_iff in Hslash as [_ Hx].
  cbn [existsb] in Hx. apply orb_false_iff in Hx as [Hx _].
  now rewrite N.eqb_sym.
Qed.

Lemma normalize_absolute (p : jsstring) (segs : list jsstring) :
  Path.split (Path.slash :: p) = segs ->
  Path.trailingSeparator (Path.slash :: p) = false ->
  Path.join_segments (Path.normalizeString false [] segs) <> [] ->
  Path.normalize (Path.slash :: p)
  = Path.slash :: Path.join_segments (Path.normalizeString false [] segs).
Proof.
  intros Hsplit Htrail Hne. unfold Path.normalize.
  rewrite Hsplit, Htrail.
  change (Path.isAbsolute (Path.slash :: p)) with true. cbn [negb].
  destruct (Path.join_segments _); [now elim Hne|].
  cbn [app]. now rewrite app_nil_r.
Qed.

(** The relative path of an entry of the root, and of an entry below it. *)
Lemma join_root (a : jsstring) :
  plain_segment a = true -> Path.join [Path.slash] a = Path.slash :: a.
Proof.
  intros Ha. destruct (plain_facts a Ha) as [Hne [Hslash [Hdot Hdots]]].
  assert (Hsteps : Path.normalizeString false [] [[]; []; a] = [a]).
  { cbn [Path.normalizeString eqb_str orb]. rewrite Hne, Hdot, Hdots.
    reflexivity. }
  unfold Path.join. destruct a as [|c a]; [discriminate|].
  change ([Path.slash] ++ Path.slash :: c :: a)
    with (Path.slash :: Path.slash :: c :: a).
  rewrite (normalize_absolute (Path.slash :: c :: a) [[]; []; c :: a]).
  - unfold jsstring in *. now rewrite Hsteps.
  - change (Path.slash :: Path.slash :: c :: a)
      with ([] ++ Path.slash :: ([] ++ Path.slash :: c :: a)).
    now rewrite !split_app, (split_plain (c :: a) Hslash).
  - apply (trailing_plain [Path.slash; Path.slash] (c :: a) Ha).
  - unfold jsstring in *. rewrite Hsteps. discriminate.
Qed.

Lemma join_below (a b : jsstring) :
  plain_segment a = true -> plain_segment b = true ->
  Path.join (Path.slash :: a) b = Path.slash :: a ++ Path.slash :: b.
Proof.
  intros Ha Hb.
  destruct (plain_facts a Ha) as [Hane [Haslash [Hadot Hadots]]].
  destruct (plain_facts b Hb) as [Hbne [Hbslash [Hbdot Hbdots]]].
  assert (Hsteps : Path.normalizeString false [] [[]; a; b] = [a; b]).
  { cbn [Path.normalizeString eqb_str orb]. rewrite Hane, Hadot, Hadots.
    cbn [orb]. rewrite Hbne, Hbdot, Hbdots. reflexivity. }
  unfold Path.join. destruct b as [|c b]; [discriminate|].
  change ((Path.slash :: a) ++ Path.slash :: c :: b)
    with (Path.slash :: (a ++ Path.slash :: c :: b)).
  rewrite (normalize_absolute (a ++ Path.slash :: c :: b) [[]; a; c :: b]).
  - unfold jsstring in *. rewrite Hsteps.
    destruct a; [discriminate | reflexivity].
  - change (Path.slash :: (a ++ Path.slash :: c :: b))
      with ([] ++ Path.slash :: (a ++ Path.slash :: c :: b)).
    now rewrite !split_app, (split_plain a Haslash),
      (split_plain (c :: b) Hbslash).
  - assert (Hre : Path.slash :: (a ++ Path.slash :: c :: b)
                  = (Path.slash :: a ++ [Path.slash]) ++ c :: b)
      by (simpl; now rewrite <- app_assoc).
    rewrite Hre.
    apply (trailing_plain (Path.slash :: a ++ [Path.slash]) (c :: b) Hb).
  - unfold jsstring in *. rewrite Hsteps. destruct a; discriminate.
Qed.

Section Depth.

Variable localeCompare : jsstring -> jsstring -> Z.

(** The children of a listed folder are the listing of that entry. *)
Lemma children_are_listings (s : option Stats)
    (entries : list (jsstring * bool * fsnode)) (relativePath : jsstring)
    (n : FileNode) (l : list FileNode) :
  In n (buildFileTree localeCompare (FsNode s (Some entries)) relativePath) ->
  children n = Some l ->
  exists name isDirectory below,
    In (name, isDirectory, below) entries
    /\ l = buildFileTree localeCompare below (Path.join relativePath name).
Proof.
  cbn [buildFileTree].
  set (to_visit := fun entry : jsstring * bool * fsnode =>
         let '(name, isDirectory, below) := entry in
         {| v_name := name; v_isDirectory := isDirectory;
            v_stats := stats_of below;
            v_subtree := buildFileTree localeCompare below
                           (Path.join relativePath name) |}).
  intros Hin Hch.
  assert (Hnodes : forall vs nodes,
    Forall2 (fun v n => exists stats,
               v_stats v = Some stats /\ n = pushed_node relativePath v stats)
            vs nodes ->
    In n nodes -> exists v, In v vs /\ l = v_subtree v).
  { intros vs nodes Hf. induction Hf as [|v m vs nodes [stats [_ ->]] _ IH].
    - intros [].
    - intros [<-|Hn].
      + exists v. split; [now left|].
        unfold pushed_node in Hch.
        destruct (v_isDirectory v); cbn [children] in Hch; [|discriminate].
        destruct (_ <? 3)%nat; [|discriminate].
        destruct (v_subtree v); [discriminate | congruence].
      + destruct (IH Hn) as [v' [Hv' Hl]]. exists v'. split; [now right | exact Hl]. }
  assert (Hvisit : forall v,
    In v (filter (fun entry => keep (v_name entry)) (map to_visit entries)) ->
    l = v_subtree v ->
    exists name isDirectory below,
      In (name, isDirectory, below) entries
      /\ l = buildFileTree localeCompare below (Path.join relativePath name)).
  { intros v Hv Hl. apply filter_In in Hv as [Hv _].
    apply in_map_iff in Hv as [[[name isDir] below] [<- Hin']].
    exists name, isDir, below. split; [assumption | exact Hl]. }
  pose proof (FilesMore.push_entries_nodes relativePath
                (filter (fun entry => keep (v_name entry)) (map to_visit entries))
                []) as Hpush.
  destruct (push_entries relativePath _ []) as [r|r].
  - destruct Hpush as [good [bad [rest [nodes [He [_ [-> Hf]]]]]]].
    destruct (Hnodes good nodes Hf Hin) as [v [Hv Hl]].
    apply (Hvisit v); [|exact Hl]. rewrite He. apply in_or_app. now left.
  - destruct Hpush as [nodes [-> Hf]].
    assert (Hin' : In n nodes).
    { eapply Permutation_in; [apply FilesFacts.sort_Permutation | exact Hin]. }
    destruct (Hnodes _ nodes Hf Hin') as [v [Hv Hl]].
    now apply (Hvisit v).
Qed.

(** Started at ["/"], over entries named as [readdir] names them, a listing
    has at most three levels: the entries of the root, their children, and
    the children of those, which are listed without children of their own. *)
Theorem listing_has_three_levels (here : fsnode) :
  Forall (fun name => plain_segment name = true) (all_names here) ->
  forall top level2 second level3 third,
    In top (buildFileTree localeCompare here [Path.slash]) ->
    children top = Some level2 -> In second level2 ->
    children second = Some level3 -> In third level3 ->
    children third = None.
Proof.
  intros Hplain top level2 second level3 third Htop Hl2 Hsecond Hl3 Hthird.
  destruct here as [s [entries|]]; [|destruct Htop].
  destruct (children_are_listings s entries [Path.slash] top level2 Htop Hl2)
    as [a [isDir1 [below1 [Ha ->]]]].
  assert (Hnames1 : plain_segment a = true
                    /\ Forall (fun name => plain_segment name = true)
                              (all_names below1)).
  { rewrite Forall_forall in Hplain. split.
    - apply Hplain. cbn [all_names]. apply in_flat_map.
      exists (a, isDir1, below1). split; [assumption | now left].
    - apply Forall_forall. intros x Hx. apply Hplain. cbn [all_names].
      apply in_flat_map. exists (a, isDir1, below1).
      split; [assumption | now right]. }
  destruct Hnames1 as [Hpa Hplain1].
  rewrite (join_root a Hpa) in Hsecond.
  destruct below1 as [s1 [entries1|]]; [|destruct Hsecond].
  destruct (children_are_listings s1 entries1 (Path.slash :: a) second level3
              Hsecond Hl3) as [b [isDir2 [below2 [Hb ->]]]].
  assert (Hpb : plain_segment b = true).
  { rewrite Forall_forall in Hplain1. apply Hplain1. cbn [all_names].
    apply in_flat_map. exists (b, isDir2, below2). split; [assumption | now left]. }
  rewrite (join_below a b Hpa Hpb) in Hthird.
  pose proof (FilesMore.no_children_below_depth localeCompare below2
                (Path.slash :: a ++ Path.slash :: b)) as Hdeep.
  rewrite Forall_forall in Hdeep. apply Hdeep; [|assumption].
  change (Path.slash :: a ++ Path.slash :: b)
    with ([] ++ Path.slash :: (a ++ Path.slash :: b)).
  rewrite !split_app, !length_app.
  pose proof (split_not_nil a). pose proof (split_not_nil b).
  destruct (Path.split a), (Path.split b); simpl; try congruence; lia.
Qed.

End Depth.

Lemma listing_has_three_levels_witness :
  let nowhere := mkFileNode [] [] [] file None None None None in
  let listed (n : FileNode) :=
    match children n with Some nodes => nodes | None => [] end in
  let top :=
    nth 0 (buildFileTree lex_compare
             (FsNode None
                (Some [directory "src"
                         [directory "lib" [directory "deep" [regular "w.md"]]]]))
             [Path.slash]) nowhere in
  let second := nth 0 (listed top) nowhere in
  let third := nth 0 (listed second) nowhere in
  title third = lit "deep" /\ children third = None.
Proof.
  cbv zeta. split; [vm_compute; reflexivity|].
  eapply (listing_has_three_levels lex_compare
            (FsNode None
               (Some [directory "src"
                        [directory "lib" [directory "deep" [regular "w.md"]]]]))).
  - vm_compute. repeat constructor.
  - vm_compute. left. reflexivity.
  - vm_compute. reflexivity.
  - vm_compute. left. reflexivity.
  - vm_compute. reflexivity.
  - vm_compute. left. reflexivity.
Defined.

End DepthFacts.
